(** * Team-name standardizer: a shallow embedding of [pure_python_solution.py]

    The development follows the Python module top to bottom:
    - [PyStr]: the [str] methods and the three forms of [re.sub] used by the
      normalizer, on strings whose code points are below 256;
    - [PurePythonFuzzyMatcher]: [_normalize_text], the five hand-written
      metrics, [calculate_similarity] and [find_best_match];
    - [PurePythonTeamStandardizer]: the registry, its per-sport cache,
      [standardize_team_name], [add_team_manually], [clean_empty_teams],
      [get_statistics] and [process_api_response]; the functions that read
      and write files are left out.
    The definitions used only to state properties come next, then the
    properties: the decision procedure first, then the metrics, then one
    part for each group of functions, from the normalizer to the walk over
    a document.

    Scores are Python floats in the source.  Every score is a finite float,
    hence a rational number, and the comparisons of the decision procedure
    are comparisons of those rationals; scores are therefore modelled in [Q],
    with the arithmetic carried out exactly. *)

From Stdlib Require Import ZArith QArith Qminmax Lqa Ascii String List Lia Bool.
From stdpp Require Import gmap strings list fin_maps sorting.

Set Warnings "-clear-no-such-hyp".

Local Open Scope string_scope.
Local Open Scope list_scope.
Local Open Scope nat_scope.

(** ** Python [str] on code points 0..255 *)

Module PyStr.

Definition ord (c : ascii) : nat := nat_of_ascii c.

(** [str.isspace] for one character; also the class [\s] of [re]. *)
Definition isspace (c : ascii) : bool :=
  let n := ord c in
  ((9 <=? n) && (n <=? 13)) || ((28 <=? n) && (n <=? 32))
  || (n =? 133) || (n =? 160).

Definition isupper (c : ascii) : bool :=
  let n := ord c in
  ((65 <=? n) && (n <=? 90))
  || ((192 <=? n) && (n <=? 222) && negb (n =? 215)).

Definition lower_char (c : ascii) : ascii :=
  if isupper c then ascii_of_nat (ord c + 32) else c.

(** The class [\w] of [re] for [str] patterns: alphanumerics and [_]. *)
Definition isword (c : ascii) : bool :=
  let n := ord c in
  ((48 <=? n) && (n <=? 57)) || ((65 <=? n) && (n <=? 90)) || (n =? 95)
  || ((97 <=? n) && (n <=? 122))
  || (n =? 170) || (n =? 178) || (n =? 179) || (n =? 181) || (n =? 185)
  || (n =? 186) || ((188 <=? n) && (n <=? 190))
  || ((192 <=? n) && (n <=? 214)) || ((216 <=? n) && (n <=? 246))
  || (248 <=? n).

Fixpoint lower (s : string) : string :=
  match s with
  | EmptyString => EmptyString
  | String c r => String (lower_char c) (lower r)
  end.

Fixpoint lstrip (s : string) : string :=
  match s with
  | EmptyString => EmptyString
  | String c r => if isspace c then lstrip r else s
  end.

Fixpoint rstrip (s : string) : string :=
  match s with
  | EmptyString => EmptyString
  | String c r =>
      match rstrip r with
      | EmptyString => if isspace c then EmptyString else String c EmptyString
      | r' => String c r'
      end
  end.

Definition strip (s : string) : string := rstrip (lstrip s).

(** Truthiness of a [str]: [if text] / [if not text]. *)
Definition truthy (s : string) : bool :=
  match s with EmptyString => false | _ => true end.

(** [s.split()]: maximal runs of non-space characters. [tok] is the run
    being read, in reverse. *)
Fixpoint split_go (tok : list ascii) (s : string) : list string :=
  match s with
  | EmptyString =>
      match tok with
      | [] => []
      | _ => [string_of_list_ascii (rev tok)]
      end
  | String c r =>
      if isspace c then
        match tok with
        | [] => split_go [] r
        | _ => string_of_list_ascii (rev tok) :: split_go [] r
        end
      else split_go (c :: tok) r
  end.

Definition split (s : string) : list string := split_go [] s.

(** [sep.join(l)]. *)
Fixpoint join (sep : string) (l : list string) : string :=
  match l with
  | [] => EmptyString
  | [x] => x
  | x :: r => String.append x (String.append sep (join sep r))
  end.

(** Order of [str] in Python: lexicographic on code points. *)
Definition str_leb (a b : string) : bool := String.leb a b.

Fixpoint insert_sorted (x : string) (l : list string) : list string :=
  match l with
  | [] => [x]
  | y :: r => if str_leb x y then x :: l else y :: insert_sorted x r
  end.

(** [sorted(l)] on strings. *)
Definition sorted (l : list string) : list string :=
  fold_right insert_sorted [] l.

(** *** [re.sub] with [flags=re.IGNORECASE]

    Every substitution of the normalizer has one of three shapes:
    [\b(a1|...|an)\b] replaced by a fixed text, [[^\w\s]] replaced by a
    space, and [\s+] replaced by a space. *)

(** [\b] between the character before and the character after a position. *)
Definition wordb (c : option ascii) : bool :=
  match c with Some x => isword x | None => false end.

Definition boundary (before after : option ascii) : bool :=
  xorb (wordb before) (wordb after).

Definition head (s : string) : option ascii :=
  match s with EmptyString => None | String c _ => Some c end.

(** The literal [pat] read case-insensitively at the start of [s]; gives
    the last character consumed and the rest of [s]. *)
Fixpoint match_literal (pat s : string) (last : option ascii)
  : option (option ascii * string) :=
  match pat with
  | EmptyString => Some (last, s)
  | String p pat' =>
      match s with
      | EmptyString => None
      | String c s' =>
          if Ascii.eqb (lower_char c) p
          then match_literal pat' s' (Some c)
          else None
      end
  end.

(** [\b(a1|...|an)\b] at the start of [s], with [prev] the character in
    front: the alternatives are tried in order, and an alternative whose
    closing [\b] fails gives way to the next.  Returns the length matched. *)
Fixpoint match_at (alts : list string) (prev : option ascii) (s : string)
  : option nat :=
  match alts with
  | [] => None
  | a :: alts' =>
      match match_literal a s None with
      | Some (Some l, rest) =>
          if boundary prev (head s) && boundary (Some l) (head rest)
          then Some (String.length a)
          else match_at alts' prev s
      | _ => match_at alts' prev s
      end
  end.

(** Leftmost, non-overlapping replacement. [skip] counts the characters of
    the current match still to be dropped. *)
Fixpoint sub_go (alts : list string) (repl : string) (skip : nat)
    (prev : option ascii) (s : string) : string :=
  match s with
  | EmptyString => EmptyString
  | String c r =>
      match skip with
      | S k => sub_go alts repl k (Some c) r
      | O =>
          match match_at alts prev s with
          | Some n => String.append repl (sub_go alts repl (Nat.pred n) (Some c) r)
          | None => String c (sub_go alts repl 0 (Some c) r)
          end
      end
  end.

Definition sub_words (alts : list string) (repl text : string) : string :=
  sub_go alts repl 0 None text.

(** [re.sub(r'[^\w\s]', ' ', text)]. *)
Fixpoint sub_special (s : string) : string :=
  match s with
  | EmptyString => EmptyString
  | String c r =>
      String (if isword c || isspace c then c else " "%char) (sub_special r)
  end.

(** [re.sub(r'\s+', ' ', text)]; [in_run] tells that the previous character
    was a space already replaced. *)
Fixpoint sub_spaces_go (in_run : bool) (s : string) : string :=
  match s with
  | EmptyString => EmptyString
  | String c r =>
      if isspace c then
        if in_run then sub_spaces_go true r
        else String " "%char (sub_spaces_go true r)
      else String c (sub_spaces_go false r)
  end.

Definition sub_spaces (s : string) : string := sub_spaces_go false s.

End PyStr.

Import PyStr.

(** ** [PurePythonFuzzyMatcher._normalize_text] *)

(** The table [city_abbrev], in the order the [dict] literal lists it. *)
Definition city_abbrev : list (string * string) :=
  [ ("la", "los angeles"); ("n.y.", "new york"); ("ny", "new york");
    ("s.f.", "san francisco"); ("sf", "san francisco");
    ("d.c.", "washington"); ("dc", "washington"); ("l.a.", "los angeles");
    ("chi", "chicago"); ("phila", "philadelphia"); ("n.o.", "new orleans");
    ("no", "new orleans"); ("s.a.", "san antonio"); ("sa", "san antonio");
    ("utd", "united"); ("fc", ""); ("sc", ""); ("ac", ""); ("bc", "");
    ("ht", "heat"); ("mn", "minnesota"); ("man.", "manchester") ].

Definition patterns_to_remove : list (list string) :=
  [ [ "fc"; "cf"; "sc"; "ac"; "bc"; "fk"; "kk"; "club"; "team";
      "basketball"; "football" ];
    [ "real"; "de"; "del"; "la"; "le"; "the"; "of"; "and"; "&" ] ].

Definition expand_abbrev (text : string) : string :=
  fold_left (fun t ae => sub_words [fst ae] (snd ae) t) city_abbrev text.

Definition remove_patterns (text : string) : string :=
  fold_left (fun t alts => sub_words alts "" t) patterns_to_remove text.

Definition _normalize_text (text : string) : string :=
  if negb (truthy text) then ""
  else
    let text := strip (lower text) in
    let text := expand_abbrev text in
    let text := remove_patterns text in
    let text := sub_special text in
    strip (sub_spaces text).

(** ** Scores *)

Definition Qltb (a b : Q) : bool := negb (Qle_bool b a).

(** [max] and [min] of Python keep the first of two equal arguments. *)
Definition py_max (a b : Q) : Q := if Qltb a b then b else a.
Definition py_min (a b : Q) : Q := if Qltb b a then b else a.

Definition Qnat (n : nat) : Q := inject_Z (Z.of_nat n).

(** ** [PurePythonFuzzyMatcher]: the metrics *)

Definition chars (s : string) : list ascii := list_ascii_of_string s.

Definition cost (a b : ascii) : nat := if Ascii.eqb a b then 0 else 1.

(** The inner [for j] loop of [_levenshtein_distance] for one row: [prev]
    is the row above from column [j-1] on, [left] is [matrix[i][j-1]]. *)
Fixpoint fill_row (c : ascii) (s2 : list ascii) (prev : list nat)
    (left : nat) : list nat :=
  match s2, prev with
  | d :: s2', diag :: ((up :: _) as prev') =>
      let v := Nat.min (Nat.min (up + 1) (left + 1)) (diag + cost c d) in
      v :: fill_row c s2' prev' v
  | _, _ => []
  end.

(** The outer [for i] loop; [prev] is row [i-1], the result is the last
    row of the matrix. *)
Fixpoint fill_matrix (s1 : list ascii) (i : nat) (s2 : list ascii)
    (prev : list nat) : list nat :=
  match s1 with
  | [] => prev
  | c :: s1' => fill_matrix s1' (S i) s2 (i :: fill_row c s2 prev i)
  end.

Definition _levenshtein_distance (s1 s2 : string) : nat :=
  if negb (truthy s1) then String.length s2
  else if negb (truthy s2) then String.length s1
  else
    let cols := String.length s2 + 1 in
    List.last (fill_matrix (chars s1) 1 (chars s2) (seq 0 cols)) 0.

Definition _levenshtein_ratio (s1 s2 : string) : Q :=
  let max_len := Nat.max (String.length s1) (String.length s2) in
  if max_len =? 0 then 1%Q
  else (1 - Qnat (_levenshtein_distance s1 s2) / Qnat max_len)%Q.

(** *** Jaro *)

(** The inner [for j in range(start, end)] loop: the first free position of
    [s2] in the window that carries the character [c]. *)
Definition find_partner (c : ascii) (s2 : list ascii) (s2_matches : list bool)
    (start end_ : nat) : option nat :=
  List.find
    (fun j => negb (nth j s2_matches false) && Ascii.eqb c (nth j s2 c))
    (seq start (end_ - start)).

(** The loop "Identify matches": [s1] is what is left of the first string,
    [i] the index of its head.  Returns [s1_matches] for the part read,
    the final [s2_matches] and the number of matches found. *)
Fixpoint identify_matches (match_window : nat) (s2 : list ascii) (i : nat)
    (s1 : list ascii) (s2_matches : list bool) : list bool * list bool * nat :=
  match s1 with
  | [] => ([], s2_matches, 0)
  | c :: s1' =>
      let start := i - match_window in
      let end_ := Nat.min (i + match_window + 1) (List.length s2) in
      match find_partner c s2 s2_matches start end_ with
      | Some j =>
          let '(m1, m2, matches) :=
            identify_matches match_window s2 (S i) s1' (<[j:=true]> s2_matches) in
          (true :: m1, m2, S matches)
      | None =>
          let '(m1, m2, matches) :=
            identify_matches match_window s2 (S i) s1' s2_matches in
          (false :: m1, m2, matches)
      end
  end.

(** [while not s2_matches[k]: k += 1]; [None] is the [IndexError] of
    running off the list. *)
Definition next_matched (s2_matches : list bool) (k : nat) : option nat :=
  List.find (fun j => nth j s2_matches false)
    (seq k (List.length s2_matches - k)).

(** The loop "Count transpositions" over the characters of [s1] paired with
    their flags; [k] points into [s2]. *)
Fixpoint count_transpositions (s1 : list (ascii * bool)) (s2 : list ascii)
    (s2_matches : list bool) (k : nat) : option nat :=
  match s1 with
  | [] => Some 0
  | (_, false) :: r => count_transpositions r s2 s2_matches k
  | (c, true) :: r =>
      match next_matched s2_matches k with
      | None => None
      | Some k' =>
          match count_transpositions r s2 s2_matches (S k') with
          | None => None
          | Some t => Some (cost c (nth k' s2 c) + t)
          end
      end
  end.

(** [max(len1, len2) // 2 - 1], clamped at 0: subtraction on [nat] stops
    at 0, which is the clamp. *)
Definition match_window (len1 len2 : nat) : nat := Nat.max len1 len2 / 2 - 1.

(** [_jaro_similarity]; [None] stands for an [IndexError] raised by the
    transposition loop (lemma [jaro_never_raises] shows there is none). *)
Definition jaro_run (s1 s2 : string) : option Q :=
  if negb (truthy s1) || negb (truthy s2) then Some 0%Q
  else if String.eqb s1 s2 then Some 1%Q
  else
    let len1 := String.length s1 in
    let len2 := String.length s2 in
    let w := match_window len1 len2 in
    let '(s1_matches, s2_matches, matches) :=
      identify_matches w (chars s2) 0 (chars s1) (repeat false len2) in
    if matches =? 0 then Some 0%Q
    else
      match count_transpositions (combine (chars s1) s1_matches)
              (chars s2) s2_matches 0 with
      | None => None
      | Some transpositions =>
          Some ((Qnat matches / Qnat len1 + Qnat matches / Qnat len2
                 + (Qnat matches - Qnat transpositions / 2) / Qnat matches)
                / 3)%Q
      end.

Definition _jaro_similarity (s1 s2 : string) : Q :=
  match jaro_run s1 s2 with Some q => q | None => 0%Q end.

(** *** n-gram Jaccard *)

Definition _get_ngrams (text : string) (n : nat) : gset string :=
  if String.length text <? n then {[ text ]}
  else
    list_to_set
      (map (fun i => substring i n text) (seq 0 (String.length text - n + 1))).

Definition set_truthy (X : gset string) : bool := negb (bool_decide (X = ∅)).

Definition _jaccard_similarity (s1 s2 : string) (n : nat) : Q :=
  let ngrams1 := _get_ngrams s1 n in
  let ngrams2 := _get_ngrams s2 n in
  if negb (set_truthy ngrams1) && negb (set_truthy ngrams2) then 1%Q
  else if negb (set_truthy ngrams1) || negb (set_truthy ngrams2) then 0%Q
  else
    let intersection := size (ngrams1 ∩ ngrams2) in
    let union := size (ngrams1 ∪ ngrams2) in
    if 0 <? union then (Qnat intersection / Qnat union)%Q else 0%Q.

(** *** Token metrics *)

Definition _token_sort_ratio (s1 s2 : string) : Q :=
  let tokens1 := sorted (split s1) in
  let tokens2 := sorted (split s2) in
  _levenshtein_ratio (join " " tokens1) (join " " tokens2).

Definition tokens (s : string) : gset string := list_to_set (split s).

Definition _token_set_ratio (s1 s2 : string) : Q :=
  let tokens1 := tokens s1 in
  let tokens2 := tokens s2 in
  if negb (set_truthy tokens1) && negb (set_truthy tokens2) then 1%Q
  else
    let intersection := tokens1 ∩ tokens2 in
    let sorted_inter := join " " (sorted (elements intersection)) in
    let sorted_1 := join " " (sorted (elements tokens1)) in
    let sorted_2 := join " " (sorted (elements tokens2)) in
    py_max (py_max (_levenshtein_ratio sorted_inter sorted_1)
                   (_levenshtein_ratio sorted_inter sorted_2))
           (_levenshtein_ratio sorted_1 sorted_2).

(** ** Data: the registry, the decision record, JSON documents *)

(** One record of the teams file; a key that is absent reads as [""]
    through [team.get(key, '')]. *)
Record team := Team { sport : string; canonical_team_name : string }.

Record standardizer := Standardizer {
  teams_map : list team;
  threshold : Q;
  auto_add_threshold : Q;
  _sport_teams_cache : gmap string (list string);
  _new_teams_added : list team
}.

(** [cache[sport].append(name)], creating the list when the key is new. *)
Definition cache_append (cache : gmap string (list string))
    (sp name : string) : gmap string (list string) :=
  <[ sp := default [] (cache !! sp) ++ [name] ]> cache.

Definition _build_cache (teams : list team) : gmap string (list string) :=
  fold_left
    (fun cache t =>
       let sp := lower (sport t) in
       let name := canonical_team_name t in
       if truthy sp && truthy name then cache_append cache sp name else cache)
    teams ∅.

(** [__init__]: the arguments are stored as given and the cache is built. *)
Definition init (teams_data : list team) (threshold auto_add_threshold : Q)
  : standardizer :=
  {| teams_map := teams_data;
     threshold := threshold;
     auto_add_threshold := auto_add_threshold;
     _sport_teams_cache := _build_cache teams_data;
     _new_teams_added := [] |}.

Definition default_threshold : Q := 0.75%Q.
Definition default_auto_add_threshold : Q := 0.70%Q.

(** The [details] dictionary returned with [return_details=True]. *)
Inductive details :=
| Empty
| ExactMatch (score : Q)
| FuzzyMatch (score : Q) (matched_name : string)
| AutoAdded (best_existing_score : Q) (best_existing_team : option string)
| NoMatchNoAdd (best_existing_score : Q) (best_existing_team : option string)
    (auto_add_threshold : Q).

Definition status (d : details) : string :=
  match d with
  | Empty => "empty"
  | ExactMatch _ => "exact_match"
  | FuzzyMatch _ _ => "fuzzy_match"
  | AutoAdded _ _ => "auto_added"
  | NoMatchNoAdd _ _ _ => "no_match_no_add"
  end.

(** The registry mutation of the auto-add branch. *)
Definition add_team (st : standardizer) (sp team_name : string) : standardizer :=
  let new_team := {| sport := sp; canonical_team_name := team_name |} in
  {| teams_map := teams_map st ++ [new_team];
     threshold := threshold st;
     auto_add_threshold := auto_add_threshold st;
     _sport_teams_cache := cache_append (_sport_teams_cache st) sp team_name;
     _new_teams_added := _new_teams_added st ++ [new_team] |}.

(** [clean_empty_teams]: the number of entries removed and the standardizer
    after the call; the cache is rebuilt from the entries kept. *)
Definition clean_empty_teams (st : standardizer) : nat * standardizer :=
  let original_count := List.length (teams_map st) in
  let kept :=
    List.filter (fun t => truthy (strip (canonical_team_name t))) (teams_map st) in
  (original_count - List.length kept,
   {| teams_map := kept;
      threshold := threshold st;
      auto_add_threshold := auto_add_threshold st;
      _sport_teams_cache := _build_cache kept;
      _new_teams_added := _new_teams_added st |}).

Definition get_newly_added_teams (st : standardizer) : list team :=
  _new_teams_added st.

Definition reset_new_teams_tracker (st : standardizer) : standardizer :=
  {| teams_map := teams_map st;
     threshold := threshold st;
     auto_add_threshold := auto_add_threshold st;
     _sport_teams_cache := _sport_teams_cache st;
     _new_teams_added := [] |}.

(** The dictionary of [get_statistics].  Its [configuration] entry repeats
    the two thresholds; the bucket name listed with them belongs to the
    storage functions and is not part of [standardizer]. *)
Record statistics := Statistics {
  total_teams : nat;
  sports : gmap string nat;
  empty_names : nat;
  newly_added_this_session : nat;
  matching_threshold : Q;
  configured_auto_add_threshold : Q
}.

(** One round of the loop of [get_statistics] on the two counters it
    updates, [stats['sports']] and [stats['empty_names']].  A [team]
    record stands here for an entry that has the key [sport]; the default
    of [team.get('sport', 'unknown')] serves the entries without it. *)
Definition count_team (acc : gmap string nat * nat) (t : team)
  : gmap string nat * nat :=
  let sp := lower (sport t) in
  let canonical_name := canonical_team_name t in
  if negb (truthy (strip canonical_name)) then (fst acc, S (snd acc))
  else (<[ sp := default 0 (fst acc !! sp) + 1 ]> (fst acc), snd acc).

Definition get_statistics (st : standardizer) : statistics :=
  let counted := fold_left count_team (teams_map st) (∅, 0) in
  {| total_teams := List.length (teams_map st);
     sports := fst counted;
     empty_names := snd counted;
     newly_added_this_session := List.length (_new_teams_added st);
     matching_threshold := threshold st;
     configured_auto_add_threshold := auto_add_threshold st |}.

(** *** JSON documents

    The response is what [json.loads(json.dumps(api_response))] yields: a
    tree of dictionaries (in insertion order), lists and scalars. *)

#[warnings="-register-all"]
Inductive json :=
| JNull
| JBool (b : bool)
| JNum (q : Q)
| JStr (s : string)
| JArr (items : list json)
| JObj (fields : list (string * json)).

Definition json_truthy (v : json) : bool :=
  match v with
  | JNull => false
  | JBool b => b
  | JNum q => negb (Qeq_bool q 0)
  | JStr s => truthy s
  | JArr items => match items with [] => false | _ => true end
  | JObj fields => match fields with [] => false | _ => true end
  end.

(** [obj.get(key)] *)
Fixpoint dict_get (fields : list (string * json)) (key : string) : option json :=
  match fields with
  | [] => None
  | (k, v) :: rest => if String.eqb k key then Some v else dict_get rest key
  end.

(** [obj[key] = v]: an existing key keeps its place, a new key goes last. *)
Fixpoint dict_set (fields : list (string * json)) (key : string) (v : json)
  : list (string * json) :=
  match fields with
  | [] => [(key, v)]
  | (k, v0) :: rest =>
      if String.eqb k key then (k, v) :: rest
      else (k, v0) :: dict_set rest key v
  end.

Definition json_of_option (o : option string) : json :=
  match o with Some s => JStr s | None => JNull end.

Definition json_of_details (d : details) : json :=
  match d with
  | Empty => JObj [("status", JStr "empty")]
  | ExactMatch score =>
      JObj [("status", JStr "exact_match"); ("score", JNum score)]
  | FuzzyMatch score matched_name =>
      JObj [("status", JStr "fuzzy_match"); ("score", JNum score);
            ("matched_name", JStr matched_name)]
  | AutoAdded best_score best_team =>
      JObj [("status", JStr "auto_added");
            ("best_existing_score", JNum best_score);
            ("best_existing_team", json_of_option best_team)]
  | NoMatchNoAdd best_score best_team aat =>
      JObj [("status", JStr "no_match_no_add");
            ("best_existing_score", JNum best_score);
            ("best_existing_team", json_of_option best_team);
            ("auto_add_threshold", JNum aat)]
  end.

(** A call either returns, raises ([AttributeError] of [.strip()] or
    [.lower()] on a value that is no string, [TypeError] of a key
    assignment on a list), or the model runs out of fuel. *)
Inductive outcome (A : Type) :=
| Returns (a : A)
| Raises
| OutOfFuel.
Arguments Returns {A} a.
Arguments Raises {A}.
Arguments OutOfFuel {A}.

(** The standardizer with the two [nonlocal] counters of the walk. *)
Record walk := Walk {
  self : standardizer;
  changes_made : bool;
  teams_processed : nat
}.

Definition team_fields : list string :=
  ["home_team"; "away_team"; "team_name"; "team"; "participant"].

(** [sport_override or obj.get('sport', obj.get('sport_key',
    obj.get('category', 'unknown')))]. *)
Definition sport_field_of (sport_override : option string)
    (fields : list (string * json)) : json :=
  match sport_override with
  | Some s => if truthy s then JStr s else
      default (default (default (JStr "unknown") (dict_get fields "category"))
                 (dict_get fields "sport_key")) (dict_get fields "sport")
  | None =>
      default (default (default (JStr "unknown") (dict_get fields "category"))
                 (dict_get fields "sport_key")) (dict_get fields "sport")
  end.

(** ** [calculate_similarity] and [find_best_match]

    [difflib.SequenceMatcher(None, a, b).ratio()] belongs to Python's
    standard library, not to this repository: the matcher is stated over an
    arbitrary ratio function. *)

Section Matcher.

Variable difflib_ratio : string -> string -> Q.

Definition weights : list Q := [0.20; 0.10; 0.10; 0.30; 0.25; 0.05]%Q.

(** [sum(score * weight for score, weight in zip(scores, weights))]. *)
Definition weighted_sum (scores ws : list Q) : Q :=
  fold_left Qplus (map (fun sw => (fst sw * snd sw)%Q) (combine scores ws)) 0%Q.

Definition calculate_similarity (s1 s2 : string) : Q :=
  if negb (truthy s1) || negb (truthy s2) then 0%Q
  else if String.eqb s1 s2 then 1%Q
  else
    let norm1 := _normalize_text s1 in
    let norm2 := _normalize_text s2 in
    if String.eqb norm1 norm2 then 1%Q
    else
      let scores :=
        [ _levenshtein_ratio norm1 norm2;
          _jaro_similarity norm1 norm2;
          _jaccard_similarity norm1 norm2 2;
          _token_sort_ratio norm1 norm2;
          _token_set_ratio norm1 norm2;
          difflib_ratio norm1 norm2 ] in
      py_min 1 (py_max 0 (weighted_sum scores weights)).

(** The [for candidate in candidates] loop of [find_best_match]. *)
Fixpoint best_match_loop (threshold : Q) (query : string)
    (candidates : list string) (best_match : option string) (best_score : Q)
  : option string * Q :=
  match candidates with
  | [] => (best_match, best_score)
  | candidate :: rest =>
      let score := calculate_similarity query candidate in
      if Qltb best_score score && Qle_bool threshold score
      then best_match_loop threshold query rest (Some candidate) score
      else best_match_loop threshold query rest best_match best_score
  end.

(** [find_best_match]; [threshold] is [self.threshold].  The final test
    [if best_match] is the truthiness of an optional string. *)
Definition find_best_match (threshold : Q) (query : string)
    (candidates : list string) : option (string * Q) :=
  if negb (truthy query) || match candidates with [] => true | _ => false end
  then None
  else
    match best_match_loop threshold query candidates None 0%Q with
    | (Some best_match, best_score) =>
        if truthy best_match then Some (best_match, best_score) else None
    | (None, _) => None
    end.

(** ** [PurePythonTeamStandardizer.standardize_team_name] *)

(** The loop that looks for the best score without a cutoff. *)
Fixpoint best_existing (team_name : string) (candidates : list string)
    (best_score : Q) (best_candidate : option string) : Q * option string :=
  match candidates with
  | [] => (best_score, best_candidate)
  | candidate :: rest =>
      let score := calculate_similarity team_name candidate in
      if Qltb best_score score
      then best_existing team_name rest score (Some candidate)
      else best_existing team_name rest best_score best_candidate
  end.

(** [standardize_team_name(team_name, sport, auto_add, return_details=True)]:
    the name returned, the details, and the standardizer after the call. *)
Definition standardize_team_name (st : standardizer) (team_name sp : string)
    (auto_add : bool) : string * details * standardizer :=
  if negb (truthy team_name) || negb (truthy (strip team_name))
  then ("", Empty, st)
  else
    let team_name := strip team_name in
    let sp := lower sp in
    let cached := _sport_teams_cache st !! sp in
    let exact :=
      match cached with
      | Some names =>
          List.find (fun c => String.eqb (lower c) (lower team_name)) names
      | None => None
      end in
    match exact with
    | Some canonical_name => (canonical_name, ExactMatch 1, st)
    | None =>
        let match_result :=
          match cached with
          | Some candidates => find_best_match (threshold st) team_name candidates
          | None => None
          end in
        match match_result with
        | Some (matched_name, score) =>
            (matched_name, FuzzyMatch score matched_name, st)
        | None =>
            let '(best_score, best_candidate) :=
              match cached with
              | Some candidates => best_existing team_name candidates 0%Q None
              | None => (0%Q, None)
              end in
            let should_add :=
              auto_add && Qltb best_score (auto_add_threshold st) in
            if should_add
            then (team_name, AutoAdded best_score best_candidate,
                  add_team st sp team_name)
            else (team_name,
                  NoMatchNoAdd best_score best_candidate (auto_add_threshold st),
                  st)
        end
    end.

(** ** [PurePythonTeamStandardizer.add_team_manually] *)

(** [add_team_manually(team_name, sport, force)]: the boolean returned and
    the standardizer after the call.  The first loop returns [False] at a
    stored name equal up to case unless [force] is set; the similarity check
    runs only without [force]. *)
Definition add_team_manually (st : standardizer) (team_name sp : string)
    (force : bool) : bool * standardizer :=
  if negb (truthy team_name) || negb (truthy (strip team_name))
  then (false, st)
  else
    let team_name := strip team_name in
    let sp := lower sp in
    let cached := _sport_teams_cache st !! sp in
    let already_exists :=
      match cached with
      | Some names =>
          existsb
            (fun existing_name =>
               String.eqb (lower existing_name) (lower team_name) && negb force)
            names
      | None => false
      end in
    if already_exists then (false, st)
    else
      let match_result :=
        if negb force then
          match cached with
          | Some candidates => find_best_match (threshold st) team_name candidates
          | None => None
          end
        else None in
      match match_result with
      | Some _ => (false, st)
      | None => (true, add_team st sp team_name)
      end.

(** ** [process_api_response] *)

(** [self.standardize_team_name(original_name, sport_field,
    return_details=True)] on values that need not be strings: the blank
    test comes before [sport.lower()]. *)
Definition standardize_value (st : standardizer) (original sport_field : json)
  : outcome (string * details * standardizer) :=
  match original with
  | JStr team_name =>
      if negb (truthy team_name) || negb (truthy (strip team_name))
      then Returns ("", Empty, st)
      else
        match sport_field with
        | JStr sp => Returns (standardize_team_name st team_name sp true)
        | _ => Raises
        end
  | _ => if json_truthy original then Raises else Returns ("", Empty, st)
  end.

(** The loop [for field in team_fields] on one dictionary. *)
Fixpoint process_fields (sport_field : json) (todo : list string) (w : walk)
    (fields : list (string * json)) : outcome (list (string * json) * walk) :=
  match todo with
  | [] => Returns (fields, w)
  | field :: todo' =>
      match dict_get fields field with
      | Some original_name =>
          if json_truthy original_name then
            match standardize_value (self w) original_name sport_field with
            | Returns (standardized_name, d, st') =>
                let changed :=
                  negb (match original_name with
                        | JStr o => String.eqb standardized_name o
                        | _ => false
                        end) in
                let fields1 :=
                  if changed then dict_set fields field (JStr standardized_name)
                  else fields in
                let fields2 :=
                  dict_set fields1 (String.append field "_standardization")
                    (JObj [("original", original_name);
                           ("standardized", JStr standardized_name);
                           ("details", json_of_details d)]) in
                process_fields sport_field todo'
                  {| self := st';
                     changes_made := changes_made w || changed;
                     teams_processed := S (teams_processed w) |}
                  fields2
            | Raises => Raises
            | OutOfFuel => OutOfFuel
            end
          else process_fields sport_field todo' w fields
      | None => process_fields sport_field todo' w fields
      end
  end.

(** [process_recursive]: depth first, a dictionary's own fields before its
    values, the values in insertion order (the [_standardization] entries
    written by the field loop included). [fuel] bounds the nesting. *)
Fixpoint process_recursive (fuel : nat) (sport_override : option string)
    (w : walk) (obj : json) : outcome (json * walk) :=
  match fuel with
  | O => OutOfFuel
  | S fuel' =>
      let each :=
        fix each (w : walk) (l : list json) : outcome (list json * walk) :=
          match l with
          | [] => Returns ([], w)
          | v :: rest =>
              match process_recursive fuel' sport_override w v with
              | Returns (v', w') =>
                  match each w' rest with
                  | Returns (rest', w'') => Returns (v' :: rest', w'')
                  | Raises => Raises
                  | OutOfFuel => OutOfFuel
                  end
              | Raises => Raises
              | OutOfFuel => OutOfFuel
              end
          end in
      match obj with
      | JObj fields =>
          let sport_field := sport_field_of sport_override fields in
          match process_fields sport_field team_fields w fields with
          | Returns (fields', w') =>
              match each w' (map snd fields') with
              | Returns (values, w'') =>
                  Returns (JObj (combine (map fst fields') values), w'')
              | Raises => Raises
              | OutOfFuel => OutOfFuel
              end
          | Raises => Raises
          | OutOfFuel => OutOfFuel
          end
      | JArr items =>
          match each w items with
          | Returns (items', w') => Returns (JArr items', w')
          | Raises => Raises
          | OutOfFuel => OutOfFuel
          end
      | _ => Returns (obj, w)
      end
  end.

Fixpoint json_depth (v : json) : nat :=
  match v with
  | JArr items => S (fold_right (fun x d => Nat.max (json_depth x) d) 0 items)
  | JObj fields =>
      S (fold_right (fun kv d => Nat.max (json_depth (snd kv)) d) 0 fields)
  | _ => 1
  end.

(** [process_api_response(api_response, auto_save=False, sport_override)]:
    the processed copy and the standardizer after the call.  A
    [_standardization] entry nests two dictionaries, hence the fuel. *)
Definition process_api_response (st : standardizer) (api_response : json)
    (sport_override : option string) : outcome (json * standardizer) :=
  let w0 := {| self := st; changes_made := false; teams_processed := 0 |} in
  match process_recursive (json_depth api_response + 3) sport_override w0
          api_response with
  | Returns (JObj fields, w) =>
      Returns
        (JObj (dict_set fields "_processing_summary"
           (JObj [("teams_processed", JNum (Qnat (teams_processed w)));
                  ("changes_made", JBool (changes_made w));
                  ("new_teams_added",
                     JNum (Qnat (List.length (_new_teams_added (self w)))));
                  ("auto_save_performed", JBool false)])),
         self w)
  | Returns (_, _) => Raises
  | Raises => Raises
  | OutOfFuel => OutOfFuel
  end.

End Matcher.

Arguments Team sport canonical_team_name : assert.

(** ** The reference sequence-matching ratio *)

Module Difflib.

(** Length of the longest common prefix. *)
Fixpoint common_prefix (a b : list ascii) : nat :=
  match a, b with
  | x :: a', y :: b' => if Ascii.eqb x y then S (common_prefix a' b') else 0
  | _, _ => 0
  end.

(** The longest block of [a] found in [b] starting at [b]'s positions
    [j, j+1, ...]: the earliest start in [b] among the longest. *)
Fixpoint longest_in (a b : list ascii) (j : nat) (best : nat * nat)
  : nat * nat :=
  match b with
  | [] => best
  | _ :: b' =>
      let k := common_prefix a b in
      longest_in a b' (S j) (if snd best <? k then (j, k) else best)
  end.

(** [find_longest_match]: the longest block common to [a] and [b], the
    earliest in [a] and then the earliest in [b]; [(i, j, k)]. *)
Fixpoint find_longest_match (a b : list ascii) (i : nat)
    (best : nat * nat * nat) : nat * nat * nat :=
  match a with
  | [] => best
  | _ :: a' =>
      let '(j, k) := longest_in a b 0 (0, 0) in
      find_longest_match a' b (S i)
        (if snd best <? k then (i, j, k) else best)
  end.

(** Sum of the sizes of [get_matching_blocks]: the longest block, then the
    same on what lies to its left and to its right. *)
Fixpoint matching_total (fuel : nat) (a b : list ascii) : nat :=
  match fuel with
  | O => 0
  | S fuel' =>
      let '(i, j, k) := find_longest_match a b 0 (0, 0, 0) in
      if k =? 0 then 0
      else k + matching_total fuel' (firstn i a) (firstn j b)
             + matching_total fuel' (skipn (i + k) a) (skipn (j + k) b)
  end.

(** Modelled from the spec: [difflib.SequenceMatcher(None, a, b).ratio()]
    is Python's standard library and is not among the sources; section 4.2
    asks for a "longest-matching-blocks-based ratio".  This is that ratio,
    [2 * M / (len(a) + len(b))] with [M] the total size of the matching
    blocks, without the junk heuristic that [difflib] applies to second
    sequences of 200 elements or more. *)
Definition sequence_ratio (a b : string) : Q :=
  let la := String.length a in
  let lb := String.length b in
  if la + lb =? 0 then 1%Q
  else (2 * Qnat (matching_total (la + lb) (chars a) (chars b)) / Qnat (la + lb))%Q.

End Difflib.

(** ** Sequences of calls and the uniqueness key *)

(** The key under which an entry must be unique:
    [(category.lower(), name.lower())]. *)
Definition key (t : team) : string * string :=
  (lower (sport t), lower (canonical_team_name t)).

(** The arguments of one call of [standardize_team_name]. *)
Record call := Call {
  call_team_name : string;
  call_sport : string;
  call_auto_add : bool
}.

(** The standardizer after a sequence of calls, made one after the other on
    the same object. *)
Definition run_calls (difflib_ratio : string -> string -> Q)
    (st : standardizer) (calls : list call) : standardizer :=
  fold_left
    (fun st c =>
       snd (standardize_team_name difflib_ratio st (call_team_name c)
              (call_sport c) (call_auto_add c)))
    calls st.

(** The registry and the document of the bulk scenario. *)
Definition scenario_registry : standardizer :=
  init [Team "basketball" "Kauno Zalgiris"]
    default_threshold default_auto_add_threshold.

Definition scenario_doc : json :=
  JObj [("sport", JStr "basketball");
        ("home_team", JStr "Zalgiris Kaunas");
        ("away_team", JStr "Brand New FC")].

(** * Vocabulary of the statements

    Definitions that the properties below are stated with: what the loops
    compute, written as recurrences and relations, and the concrete
    registries of the runs. *)

(** [c] at index [k] is the first candidate of [l] with the greatest score
    for the query [q]. *)
Definition first_best (difflib_ratio : string -> string -> Q) (q : string)
    (l : list string) (k : nat) (c : string) : Prop :=
  l !! k = Some c
  /\ (forall c', c' ∈ l ->
        (calculate_similarity difflib_ratio q c'
         <= calculate_similarity difflib_ratio q c)%Q)
  /\ (forall j c', j < k -> l !! j = Some c' ->
        (calculate_similarity difflib_ratio q c'
         < calculate_similarity difflib_ratio q c)%Q).

(** Every named entry of the teams list is listed by the cache under its
    lowercased sport. *)
Definition covered (st : standardizer) : Prop :=
  forall t, t ∈ teams_map st -> canonical_team_name t <> "" ->
    canonical_team_name t
      ∈ default [] (_sport_teams_cache st !! lower (sport t)).

(** One step of the loop of [_build_cache]. *)
Definition cache_step (cache : gmap string (list string)) (t : team)
  : gmap string (list string) :=
  if truthy (lower (sport t)) && truthy (canonical_team_name t)
  then cache_append cache (lower (sport t)) (canonical_team_name t)
  else cache.

(** The registries and the calls of the concrete runs. *)
Definition ajax_registry : standardizer :=
  init [Team "soccer" "Ajax FC"; Team "soccer" " Ajax "]
    default_threshold default_auto_add_threshold.

Definition one_team_registry : standardizer :=
  init [Team "Soccer" "Ajax"] default_threshold default_auto_add_threshold.

Definition empty_registry : standardizer :=
  init [] default_threshold default_auto_add_threshold.

Definition ajax_only_registry : standardizer :=
  init [Team "soccer" "Ajax"] default_threshold default_auto_add_threshold.

Definition sc_registry : standardizer :=
  init [Team "soccer" "SC"] default_threshold default_auto_add_threshold.

Definition unindexed_registry : standardizer :=
  init [Team "" "Ajax"] default_threshold default_auto_add_threshold.

(** The empty registry after the call [('Ajax', '')], and that registry
    after [clean_empty_teams] has rebuilt its cache. *)
Definition empty_sport_added : standardizer :=
  snd (standardize_team_name Difflib.sequence_ratio empty_registry "Ajax" ""
         true).

Definition empty_sport_rebuilt : standardizer :=
  snd (clean_empty_teams empty_sport_added).

Definition sample_calls : list call :=
  [ Call "Ajax" "soccer" true; Call " AJAX " "Soccer" true;
    Call "Feyenoord" "soccer" true; Call "feyenoord" "SOCCER" true;
    Call "Ajx" "soccer" true ].

(** The recurrence the matrix implements, on the reversed prefixes: the
    heads are the last characters read. *)
Fixpoint lev_rec (a : list ascii) : list ascii -> nat :=
  fix inner (b : list ascii) : nat :=
    match a, b with
    | [], _ => List.length b
    | _, [] => List.length a
    | x :: a', y :: b' =>
        Nat.min (Nat.min (lev_rec a' b + 1) (inner b' + 1))
          (lev_rec a' b' + cost x y)
    end.

(** The reversed prefixes of [s], each put in front of [acc]: the columns
    of the matrix. *)
Fixpoint rprefixes (acc s : list ascii) : list (list ascii) :=
  acc :: match s with
         | [] => []
         | d :: s' => rprefixes (d :: acc) s'
         end.

(** The pairs [(i, j)] that the matching loop forms, in the order it forms
    them: the loop of [identify_matches] with the pairs written down. *)
Fixpoint identify_pairs (match_window : nat) (s2 : list ascii) (i : nat)
    (s1 : list ascii) (s2_matches : list bool) : list (nat * nat) :=
  match s1 with
  | [] => []
  | c :: s1' =>
      let start := i - match_window in
      let end_ := Nat.min (i + match_window + 1) (List.length s2) in
      match find_partner c s2 s2_matches start end_ with
      | Some j =>
          (i, j) :: identify_pairs match_window s2 (S i) s1' (<[j:=true]> s2_matches)
      | None => identify_pairs match_window s2 (S i) s1' s2_matches
      end
  end.

(** Position [a] of [s1] may be matched with position [b] of [s2]: same
    character, at most [w] apart. *)
Definition compat (s1 s2 : list ascii) (w : nat) (a b : nat) : Prop :=
  exists c, s1 !! a = Some c /\ s2 !! b = Some c /\ a <= b + w /\ b <= a + w.

(** What the loop guarantees for the pairs [P] it forms from position [lo]
    of [s1] on, when it starts with the flags [m2]. *)
Record greedy (s1 s2 : list ascii) (w : nat) (lo : nat) (m2 : list bool)
    (P : list (nat * nat)) : Prop := {
  g_sound : forall a b, (a, b) ∈ P ->
    lo <= a /\ compat s1 s2 w a b /\ m2 !! b = Some false;
  g_fun : forall a b b', (a, b) ∈ P -> (a, b') ∈ P -> b = b';
  g_inj : forall a a' b, (a, b) ∈ P -> (a', b) ∈ P -> a = a';
  g_L1 : forall a b b', (a, b) ∈ P -> compat s1 s2 w a b' -> b' < b ->
    m2 !! b' = Some true \/ exists a', a' < a /\ (a', b') ∈ P;
  g_X1 : forall a b, lo <= a -> (forall b', (a, b') ∉ P) ->
    compat s1 s2 w a b ->
    m2 !! b = Some true \/ exists a', a' < a /\ (a', b) ∈ P;
  g_L2 : forall a b a', (a, b) ∈ P -> compat s1 s2 w a' b ->
    lo <= a' -> a' < a ->
    exists b', b' < b /\ (a', b') ∈ P;
  g_X2 : forall a b, m2 !! b = Some false -> (forall a', (a', b) ∉ P) ->
    compat s1 s2 w a b -> lo <= a ->
    exists b', b' < b /\ (a, b') ∈ P
}.

Arguments g_sound {s1 s2 w lo m2 P} _.
Arguments g_fun {s1 s2 w lo m2 P} _.
Arguments g_inj {s1 s2 w lo m2 P} _.
Arguments g_L1 {s1 s2 w lo m2 P} _.
Arguments g_X1 {s1 s2 w lo m2 P} _.
Arguments g_L2 {s1 s2 w lo m2 P} _.
Arguments g_X2 {s1 s2 w lo m2 P} _.

(** Number of flags set. *)
Definition ntrue (m : list bool) : nat := List.length (List.filter id m).

(** The guarantees of a run that starts with no flag set; they determine
    the set of pairs. *)
Record canonical (s1 s2 : list ascii) (w : nat) (P : list (nat * nat))
  : Prop := {
  c_sound : forall a b, (a, b) ∈ P -> compat s1 s2 w a b;
  c_inj : forall a a' b, (a, b) ∈ P -> (a', b) ∈ P -> a = a';
  c_L1 : forall a b b', (a, b) ∈ P -> compat s1 s2 w a b' -> b' < b ->
    exists a', a' < a /\ (a', b') ∈ P;
  c_X1 : forall a b, (forall b', (a, b') ∉ P) -> compat s1 s2 w a b ->
    exists a', a' < a /\ (a', b) ∈ P
}.

Arguments c_sound {s1 s2 w P} _.
Arguments c_inj {s1 s2 w P} _.
Arguments c_L1 {s1 s2 w P} _.
Arguments c_X1 {s1 s2 w P} _.

(** A pair of the run in the other direction, turned round. *)
Definition swap_pair (p : nat * nat) : nat * nat := (snd p, fst p).

(** The characters of [s] at the flagged positions, in order. *)
Fixpoint sel (s : list ascii) (m : list bool) : list ascii :=
  match s, m with
  | c :: s', b :: m' => if b then c :: sel s' m' else sel s' m'
  | _, _ => []
  end.

(** Places at which two lists differ, over their common length. *)
Fixpoint mism (l1 l2 : list ascii) : nat :=
  match l1, l2 with
  | x :: l1', y :: l2' => cost x y + mism l1' l2'
  | _, _ => 0
  end.

(** The value returned for [n] matches and [t] transpositions. *)
Definition jaro_value (n t len1 len2 : nat) : Q :=
  ((Qnat n / Qnat len1 + Qnat n / Qnat len2
    + (Qnat n - Qnat t / 2) / Qnat n) / 3)%Q.

(** The names that belong under the key [k] of the cache: those of the
    entries whose lowercased sport is [k], with a sport and a name that are
    not empty, in the order of the teams list. *)
Definition names_under (teams : list team) (k : string) : list string :=
  map canonical_team_name
    (List.filter
       (fun t => String.eqb (lower (sport t)) k
                 && truthy (lower (sport t)) && truthy (canonical_team_name t))
       teams).

(** The cache is the one [_build_cache] would build. *)
Definition in_sync (st : standardizer) : Prop :=
  _sport_teams_cache st = _build_cache (teams_map st).

(** [sum(stats['sports'].values())]. *)
Definition sum_values (m : gmap string nat) : nat :=
  map_fold (fun _ n acc => n + acc) 0 m.

(** The test of [clean_empty_teams] and [get_statistics]: the name is not
    blank. *)
Definition named (t : team) : bool := truthy (strip (canonical_team_name t)).

(** The loop over the values of a dictionary or the items of a list, given
    the way [f] one value is processed: the recursive calls of
    [process_recursive], one after the other on the same counters. *)
Fixpoint walk_list (f : walk -> json -> outcome (json * walk)) (w : walk)
    (l : list json) : outcome (list json * walk) :=
  match l with
  | [] => Returns ([], w)
  | v :: rest =>
      match f w v with
      | Returns (v', w') =>
          match walk_list f w' rest with
          | Returns (rest', w'') => Returns (v' :: rest', w'')
          | Raises => Raises
          | OutOfFuel => OutOfFuel
          end
      | Raises => Raises
      | OutOfFuel => OutOfFuel
      end
  end.

(** The entry written under [<field>_standardization]. *)
Definition standardization_entry (original standardized : string) (d : details)
  : json :=
  JObj [("original", JStr original); ("standardized", JStr standardized);
        ("details", json_of_details d)].



(** No dictionary of the document has a team field with a truthy value. *)
Fixpoint no_team_fields (v : json) : bool :=
  match v with
  | JObj fields =>
      forallb
        (fun field =>
           match dict_get fields field with
           | Some x => negb (json_truthy x)
           | None => true
           end)
        team_fields
      && forallb (fun kv => no_team_fields (snd kv)) fields
  | JArr items => forallb no_team_fields items
  | _ => true
  end.

(** The entry [_processing_summary] of a call made without saving. *)
Definition processing_summary (processed : nat) (changes : bool) (added : nat)
  : json :=
  JObj [("teams_processed", JNum (Qnat processed));
        ("changes_made", JBool changes);
        ("new_teams_added", JNum (Qnat added));
        ("auto_save_performed", JBool false)].


(** A registry with an entry whose name is blank. *)
Definition blank_entry_registry : standardizer :=
  init [Team "soccer" "Ajax"; Team "soccer" "  "; Team "tennis" ""]
    default_threshold default_auto_add_threshold.

(** The order of [sorted] on strings. *)
Definition str_le (a b : string) : Prop := str_leb a b = true.

(** * Properties *)

(** ** Strings and scores *)

Lemma truthy_true (s : string) : truthy s = true <-> s <> "".
Proof. destruct s; simpl; split; congruence. Qed.

Lemma truthy_false (s : string) : truthy s = false <-> s = "".
Proof. destruct s; simpl; split; congruence. Qed.

Lemma strip_nonempty_truthy (s : string) : strip s <> "" -> truthy s = true.
Proof.
  destruct s; [intros H; exfalso; apply H; reflexivity | reflexivity].
Qed.

Lemma Qltb_lt (a b : Q) : Qltb a b = true <-> (a < b)%Q.
Proof.
  unfold Qltb. rewrite negb_true_iff. split.
  - intros H. apply Qnot_le_lt. intros Hle.
    apply Qle_bool_iff in Hle. congruence.
  - intros H. destruct (Qle_bool b a) eqn:E; [|reflexivity].
    apply Qle_bool_iff in E. exfalso. exact (Qlt_not_le _ _ H E).
Qed.

Lemma Qltb_ge (a b : Q) : Qltb a b = false <-> (b <= a)%Q.
Proof.
  unfold Qltb. rewrite negb_false_iff. apply Qle_bool_iff.
Qed.

Lemma Qle_bool_false (a b : Q) : Qle_bool a b = false <-> (b < a)%Q.
Proof.
  rewrite <- Qltb_lt. unfold Qltb. rewrite negb_true_iff. reflexivity.
Qed.

Lemma py_min_le_l (a b : Q) : (py_min a b <= a)%Q.
Proof.
  unfold py_min. destruct (Qltb b a) eqn:E.
  - apply Qltb_lt in E. apply Qlt_le_weak, E.
  - apply Qle_refl.
Qed.

Lemma py_min_glb (a b c : Q) : (c <= a)%Q -> (c <= b)%Q -> (c <= py_min a b)%Q.
Proof. unfold py_min. destruct (Qltb b a); auto. Qed.

Lemma py_max_ge_l (a b : Q) : (a <= py_max a b)%Q.
Proof.
  unfold py_max. destruct (Qltb a b) eqn:E.
  - apply Qltb_lt in E. apply Qlt_le_weak, E.
  - apply Qle_refl.
Qed.

Lemma py_max_ge_r (a b : Q) : (b <= py_max a b)%Q.
Proof.
  unfold py_max. destruct (Qltb a b) eqn:E.
  - apply Qle_refl.
  - apply Qltb_ge in E. exact E.
Qed.

Lemma py_max_lub (a b c : Q) : (a <= c)%Q -> (b <= c)%Q -> (py_max a b <= c)%Q.
Proof. unfold py_max. destruct (Qltb a b); auto. Qed.

Section MatcherFacts.

Variable difflib_ratio : string -> string -> Q.

Local Abbreviation sim := (calculate_similarity difflib_ratio).

(** ** [calculate_similarity]: the early exits and the clamp *)

Lemma sim_empty_l (s : string) : sim "" s = 0%Q.
Proof. reflexivity. Qed.

Lemma sim_empty_r (s : string) : sim s "" = 0%Q.
Proof. unfold calculate_similarity. destruct s; reflexivity. Qed.

Lemma sim_bounds (s1 s2 : string) : (0 <= sim s1 s2 <= 1)%Q.
Proof.
  unfold calculate_similarity.
  destruct (negb (truthy s1) || negb (truthy s2)); [split; discriminate|].
  destruct (String.eqb s1 s2); [split; discriminate|].
  destruct (String.eqb _ _); [split; discriminate|].
  split.
  - apply py_min_glb; [discriminate | apply py_max_ge_l].
  - apply py_min_le_l.
Qed.

Lemma sim_positive_nonempty (q c : string) : (0 < sim q c)%Q -> q <> "" /\ c <> "".
Proof.
  intros H. split; intros ->.
  - rewrite sim_empty_l in H. discriminate.
  - rewrite sim_empty_r in H. discriminate.
Qed.

Lemma sim_same_normal_form (s1 s2 : string) :
  s1 <> "" -> s2 <> "" -> _normalize_text s1 = _normalize_text s2 ->
  sim s1 s2 = 1%Q.
Proof.
  intros H1 H2 Hn. unfold calculate_similarity.
  apply truthy_true in H1. apply truthy_true in H2. rewrite H1, H2. simpl.
  destruct (String.eqb s1 s2); [reflexivity|].
  rewrite Hn, String.eqb_refl. reflexivity.
Qed.

(** ** The two selection loops *)

Lemma first_best_here (q c0 : string) (l : list string) :
  (forall c', c' ∈ l -> (sim q c' <= sim q c0)%Q) ->
  first_best difflib_ratio q (c0 :: l) 0 c0.
Proof.
  intros H. split; [reflexivity|]. split.
  - intros c' Hc'. apply elem_of_cons in Hc' as [->|Hc'];
      [apply Qle_refl | auto].
  - intros j c' Hj. lia.
Qed.

Lemma first_best_later (q c0 c : string) (l : list string) (k : nat) :
  first_best difflib_ratio q l k c -> (sim q c0 < sim q c)%Q ->
  first_best difflib_ratio q (c0 :: l) (S k) c.
Proof.
  intros (Hk & Hmax & Hfirst) Hlt. split; [exact Hk|]. split.
  - intros c' Hc'. apply elem_of_cons in Hc' as [->|Hc'];
      [apply Qlt_le_weak, Hlt | auto].
  - intros [|j] c' Hj Hc'; simpl in Hc'.
    + inversion Hc'; subst. exact Hlt.
    + apply (Hfirst j); [lia | exact Hc'].
Qed.

(** What the loop of [find_best_match] leaves in [(best_match,
    best_score)]: either nothing passed the test and the pair is as it was,
    or it holds the first candidate with the greatest score. *)
Lemma best_match_loop_spec (thr : Q) (q : string) (l : list string) :
  forall bm bs bm' bs',
  best_match_loop difflib_ratio thr q l bm bs = (bm', bs') ->
  (bm' = bm /\ bs' = bs
   /\ forall c, c ∈ l -> ~ ((bs < sim q c)%Q /\ (thr <= sim q c)%Q))
  \/ (exists k c, first_best difflib_ratio q l k c /\ bm' = Some c /\ bs' = sim q c
                  /\ (bs < sim q c)%Q /\ (thr <= sim q c)%Q).
Proof.
  induction l as [|c0 l IH]; intros bm bs bm' bs' H; simpl in H.
  - left. inversion H; subst. repeat split; auto.
    intros c Hc. apply elem_of_nil in Hc. contradiction.
  - destruct (Qltb bs (sim q c0) && Qle_bool thr (sim q c0)) eqn:E.
    + apply andb_true_iff in E as [E1 E2].
      apply Qltb_lt in E1. apply Qle_bool_iff in E2.
      right. apply IH in H as [(-> & -> & Hno) | (k & c & Hfb & -> & -> & Hlt & Hthr)].
      * exists 0, c0. split; [|repeat split; auto].
        apply first_best_here. intros c' Hc'.
        apply Qnot_lt_le. intros Hgt. apply (Hno c' Hc'). split; [exact Hgt|].
        apply Qle_trans with (sim q c0); [exact E2 | apply Qlt_le_weak, Hgt].
      * exists (S k), c. split; [apply first_best_later; assumption|].
        repeat split; auto. apply Qlt_trans with (sim q c0); assumption.
    + apply IH in H as [(-> & -> & Hno) | (k & c & Hfb & -> & -> & Hlt & Hthr)].
      * left. repeat split; auto. intros c Hc [Hc1 Hc2].
        apply elem_of_cons in Hc as [->|Hc]; [|apply (Hno c Hc); auto].
        apply Qltb_lt in Hc1. apply Qle_bool_iff in Hc2.
        rewrite Hc1, Hc2 in E. discriminate.
      * right. exists (S k), c. split; [|repeat split; auto].
        apply first_best_later; [exact Hfb|].
        apply andb_false_iff in E as [E|E].
        -- apply Qltb_ge in E. apply Qle_lt_trans with bs; assumption.
        -- apply Qle_bool_false in E. apply Qlt_le_trans with thr; assumption.
Qed.

(** The loop of the no-match branch: the same, without a cutoff. *)
Lemma best_existing_spec (q : string) (l : list string) :
  forall bs bc bs' bc',
  best_existing difflib_ratio q l bs bc = (bs', bc') ->
  (bs' = bs /\ bc' = bc /\ forall c, c ∈ l -> (sim q c <= bs)%Q)
  \/ (exists k c, first_best difflib_ratio q l k c /\ bc' = Some c /\ bs' = sim q c
                  /\ (bs < sim q c)%Q).
Proof.
  induction l as [|c0 l IH]; intros bs bc bs' bc' H; simpl in H.
  - left. inversion H; subst. repeat split; auto.
    intros c Hc. apply elem_of_nil in Hc. contradiction.
  - destruct (Qltb bs (sim q c0)) eqn:E.
    + apply Qltb_lt in E. right.
      apply IH in H as [(-> & -> & Hno) | (k & c & Hfb & -> & -> & Hlt)].
      * exists 0, c0. split; [apply first_best_here; exact Hno|].
        repeat split; auto.
      * exists (S k), c. split; [apply first_best_later; assumption|].
        repeat split; auto. apply Qlt_trans with (sim q c0); assumption.
    + apply Qltb_ge in E.
      apply IH in H as [(-> & -> & Hno) | (k & c & Hfb & -> & -> & Hlt)].
      * left. repeat split; auto. intros c Hc.
        apply elem_of_cons in Hc as [->|Hc]; auto.
      * right. exists (S k), c. split; [|repeat split; auto].
        apply first_best_later; [exact Hfb|].
        apply Qle_lt_trans with bs; assumption.
Qed.

Lemma find_first_split {A : Type} (f : A -> bool) (l : list A) (x : A) :
  List.find f l = Some x ->
  exists l1 l2, l = l1 ++ x :: l2 /\ f x = true
                /\ forall y, y ∈ l1 -> f y = false.
Proof.
  induction l as [|a l IH]; simpl; [discriminate|].
  destruct (f a) eqn:E; intros H.
  - inversion H; subst. exists [], l. repeat split; auto.
    intros y Hy. apply elem_of_nil in Hy. contradiction.
  - destruct (IH H) as (l1 & l2 & -> & Hx & Hl1).
    exists (a :: l1), l2. repeat split; auto.
    intros y Hy. apply elem_of_cons in Hy as [->|Hy]; auto.
Qed.

Lemma find_none_iff {A : Type} (f : A -> bool) (l : list A) :
  List.find f l = None <-> forall y, y ∈ l -> f y = false.
Proof.
  induction l as [|a l IH]; simpl.
  - split; auto. intros _ y Hy. apply elem_of_nil in Hy. contradiction.
  - destruct (f a) eqn:E.
    + split; [discriminate|]. intros H.
      rewrite (H a) in E; [discriminate | apply elem_of_cons; auto].
    + rewrite IH. split.
      * intros H y Hy. apply elem_of_cons in Hy as [->|Hy]; auto.
      * intros H y Hy. apply H. apply elem_of_cons; auto.
Qed.

(** ** [find_best_match] *)

Lemma find_best_match_cases (thr : Q) (q : string) (l : list string) :
  match find_best_match difflib_ratio thr q l with
  | None =>
      forall c, c ∈ l -> ~ ((0 < sim q c)%Q /\ (thr <= sim q c)%Q)
  | Some (c, s) =>
      s = sim q c /\ (0 < s)%Q /\ (thr <= s)%Q
      /\ exists k, first_best difflib_ratio q l k c
  end.
Proof.
  unfold find_best_match.
  destruct (negb (truthy q)) eqn:Eq; simpl.
  { apply negb_true_iff, truthy_false in Eq. subst q.
    intros c _ [H _]. rewrite sim_empty_l in H. discriminate. }
  destruct l as [|c0 l].
  { intros c Hc. apply elem_of_nil in Hc. contradiction. }
  destruct (best_match_loop difflib_ratio thr q (c0 :: l) None 0%Q)
    as [bm bs] eqn:E.
  apply best_match_loop_spec in E
    as [(-> & -> & Hno) | (k & c & Hfb & -> & -> & Hlt & Hthr)].
  - exact Hno.
  - destruct (sim_positive_nonempty q c Hlt) as [_ Hc].
    apply truthy_true in Hc. rewrite Hc.
    repeat split; auto. exists k. exact Hfb.
Qed.

Lemma find_best_match_none_below (thr : Q) (q : string) (l : list string) :
  (forall c, c ∈ l -> (sim q c < thr)%Q) ->
  find_best_match difflib_ratio thr q l = None.
Proof.
  intros H. pose proof (find_best_match_cases thr q l) as Hc.
  destruct (find_best_match difflib_ratio thr q l) as [[c s]|]; [|reflexivity].
  destruct Hc as (-> & _ & Hthr & k & Hk & _).
  exfalso. apply (Qlt_not_le _ _ (H c (list_elem_of_lookup_2 _ _ _ Hk))), Hthr.
Qed.

(** C6, as the code has it.  [find_best_match] returns [None] exactly when
    no candidate has a score that is both positive and at least the
    threshold (the running best starts at [0.0] and is replaced on a
    strictly greater score only); otherwise it returns the first candidate,
    in list order, that attains the greatest score of the list, with that
    score, which is positive and at least the threshold. *)
Theorem find_best_match_first_greatest (thr : Q) (q : string) (l : list string) :
  (find_best_match difflib_ratio thr q l = None
   <-> forall c, c ∈ l -> ~ ((0 < sim q c)%Q /\ (thr <= sim q c)%Q))
  /\ (forall c s, find_best_match difflib_ratio thr q l = Some (c, s) ->
        s = sim q c /\ (0 < s)%Q /\ (thr <= s)%Q
        /\ exists k, first_best difflib_ratio q l k c).
Proof.
  pose proof (find_best_match_cases thr q l) as H.
  destruct (find_best_match difflib_ratio thr q l) as [[c s]|].
  - destruct H as (-> & Hpos & Hthr & k & Hfb). split.
    + split; [discriminate|]. intros Hno. exfalso.
      apply (Hno c); [|split; assumption].
      destruct Hfb as [Hk _]. exact (list_elem_of_lookup_2 _ _ _ Hk).
    + intros c' s' E. inversion E; subst. repeat split; auto. exists k; auto.
  - split; [split; auto | discriminate].
Qed.

(** With a positive threshold the test on the sign is subsumed: [None]
    exactly when every candidate scores below the threshold. *)
Lemma find_best_match_none_positive (thr : Q) (q : string) (l : list string) :
  (0 < thr)%Q ->
  (find_best_match difflib_ratio thr q l = None
   <-> forall c, c ∈ l -> (sim q c < thr)%Q).
Proof.
  intros Hthr. split; [|apply find_best_match_none_below].
  intros E c Hc. pose proof (find_best_match_cases thr q l) as H.
  rewrite E in H. apply Qnot_le_lt. intros Hle. apply (H c Hc). split; auto.
  apply Qlt_le_trans with thr; assumption.
Qed.

(** ** [standardize_team_name] *)

Lemma standardize_blank (st : standardizer) (team_name sp : string) (aa : bool) :
  strip team_name = "" ->
  standardize_team_name difflib_ratio st team_name sp aa = ("", Empty, st).
Proof.
  intros H. unfold standardize_team_name. rewrite H. simpl.
  rewrite orb_true_r. reflexivity.
Qed.

(** The body of the function once the blank test has been passed. *)
Lemma standardize_nonblank (st : standardizer) (team_name sp : string) (aa : bool) :
  strip team_name <> "" ->
  standardize_team_name difflib_ratio st team_name sp aa =
  let q := strip team_name in
  let names := _sport_teams_cache st !! lower sp in
  match
    match names with
    | Some l => List.find (fun c => String.eqb (lower c) (lower q)) l
    | None => None
    end
  with
  | Some canonical_name => (canonical_name, ExactMatch 1, st)
  | None =>
      match
        match names with
        | Some l => find_best_match difflib_ratio (threshold st) q l
        | None => None
        end
      with
      | Some (matched_name, score) =>
          (matched_name, FuzzyMatch score matched_name, st)
      | None =>
          let '(best_score, best_candidate) :=
            match names with
            | Some l => best_existing difflib_ratio q l 0%Q None
            | None => (0%Q, None)
            end in
          if aa && Qltb best_score (auto_add_threshold st)
          then (q, AutoAdded best_score best_candidate, add_team st (lower sp) q)
          else (q, NoMatchNoAdd best_score best_candidate (auto_add_threshold st), st)
      end
  end.
Proof.
  intros H. unfold standardize_team_name.
  rewrite (strip_nonempty_truthy _ H), (proj2 (truthy_true _) H).
  reflexivity.
Qed.

Lemma standardize_exact (st : standardizer) (team_name sp : string)
    (auto_add : bool) (names : list string) (c : string) :
  strip team_name <> "" ->
  _sport_teams_cache st !! lower sp = Some names ->
  c ∈ names ->
  lower c = lower (strip team_name) ->
  exists c' l1 l2,
    names = l1 ++ c' :: l2
    /\ lower c' = lower (strip team_name)
    /\ (forall x, x ∈ l1 -> lower x <> lower (strip team_name))
    /\ standardize_team_name difflib_ratio st team_name sp auto_add
       = (c', ExactMatch 1, st).
Proof.
  intros Hq Hnames Hc Heq.
  rewrite (standardize_nonblank _ _ _ _ Hq). simpl. rewrite Hnames.
  destruct (List.find _ names) as [c'|] eqn:E.
  - destruct (find_first_split _ _ _ E) as (l1 & l2 & -> & Hc' & Hl1).
    exists c', l1, l2. apply String.eqb_eq in Hc'. repeat split; auto.
    intros x Hx. apply Hl1 in Hx. apply String.eqb_neq in Hx. exact Hx.
  - exfalso. rewrite find_none_iff in E. specialize (E c Hc).
    apply String.eqb_neq in E. contradiction.
Qed.

(** C1, as the code has it.  The comparison is made on the trimmed name:
    whenever the trimmed name is not empty and equals, case-insensitively,
    some name stored under the (lowercased) category, the call returns the
    first such stored name with status [exact_match] and score 1.0 and
    leaves the standardizer as it was, whatever the thresholds held by the
    standardizer and whatever [auto_add]. *)
Theorem exact_match_on_trimmed_name (st : standardizer) (team_name sp : string)
    (auto_add : bool) (names : list string) (c : string) :
  strip team_name <> "" ->
  _sport_teams_cache st !! lower sp = Some names ->
  c ∈ names ->
  lower c = lower (strip team_name) ->
  exists c' l1 l2,
    names = l1 ++ c' :: l2
    /\ lower c' = lower (strip team_name)
    /\ (forall x, x ∈ l1 -> lower x <> lower (strip team_name))
    /\ standardize_team_name difflib_ratio st team_name sp auto_add
       = (c', ExactMatch 1, st)
    /\ status (ExactMatch 1) = "exact_match".
Proof.
  intros Hq Hnames Hc Heq.
  destruct (standardize_exact st team_name sp auto_add names c Hq Hnames Hc Heq)
    as (c' & l1 & l2 & H1 & H2 & H3 & H4).
  exists c', l1, l2. repeat split; assumption.
Qed.

(** C2, as the code has it.  When the category has no candidates, the
    trimmed name is not empty, [auto_add] is true and the auto-add
    threshold is positive (0.70 by default), the call returns the trimmed
    name (not the raw one) with status [auto_added], best score 0 and no
    best candidate, and appends the entry made of the lowercased category
    and the trimmed name to the teams list, to the session log and to the
    cache. *)
Theorem auto_add_in_empty_category (st : standardizer) (team_name sp : string) :
  strip team_name <> "" ->
  default [] (_sport_teams_cache st !! lower sp) = [] ->
  (0 < auto_add_threshold st)%Q ->
  exists st',
    standardize_team_name difflib_ratio st team_name sp true
    = (strip team_name, AutoAdded 0 None, st')
    /\ status (AutoAdded 0 None) = "auto_added"
    /\ teams_map st' = teams_map st ++ [Team (lower sp) (strip team_name)]
    /\ _new_teams_added st'
       = _new_teams_added st ++ [Team (lower sp) (strip team_name)]
    /\ _sport_teams_cache st' !! lower sp = Some [strip team_name]
    /\ threshold st' = threshold st
    /\ auto_add_threshold st' = auto_add_threshold st.
Proof.
  intros Hq Hnone Haat.
  exists (add_team st (lower sp) (strip team_name)).
  split; [|repeat split].
  - rewrite (standardize_nonblank _ _ _ _ Hq). simpl.
    apply Qltb_lt in Haat.
    destruct (_sport_teams_cache st !! lower sp) as [l|]; simpl in *.
    + subst l. unfold find_best_match. rewrite orb_true_r. simpl.
      rewrite Haat. reflexivity.
    + rewrite Haat. reflexivity.
  - unfold add_team, cache_append. simpl.
    rewrite lookup_insert_eq, Hnone. reflexivity.
Qed.

(** C3.  With matching threshold 0.75 and auto-add threshold 0.70, a name
    that is not blank, has no case-insensitive exact match in its category
    and whose best score against the candidates of the category is at
    least 0.70 and below 0.75 (0.72 for instance) is answered with status
    [no_match_no_add], for either value of [auto_add]: the trimmed name
    comes back, the diagnostics carry the best score and the first
    candidate that attains it, and the standardizer is unchanged. *)
Theorem gray_zone_no_match_no_add (st : standardizer) (team_name sp : string)
    (auto_add : bool) (names : list string) :
  threshold st = default_threshold ->
  auto_add_threshold st = default_auto_add_threshold ->
  strip team_name <> "" ->
  _sport_teams_cache st !! lower sp = Some names ->
  (forall c, c ∈ names -> lower c <> lower (strip team_name)) ->
  (forall c, c ∈ names -> (sim (strip team_name) c < 0.75)%Q) ->
  (exists c, c ∈ names /\ (0.70 <= sim (strip team_name) c)%Q) ->
  exists bs bc,
    standardize_team_name difflib_ratio st team_name sp auto_add
    = (strip team_name, NoMatchNoAdd bs (Some bc) 0.70%Q, st)
    /\ status (NoMatchNoAdd bs (Some bc) 0.70%Q) = "no_match_no_add"
    /\ bc ∈ names
    /\ bs = sim (strip team_name) bc
    /\ (0.70 <= bs)%Q /\ (bs < 0.75)%Q
    /\ forall c, c ∈ names -> (sim (strip team_name) c <= bs)%Q.
Proof.
  intros Hthr Haat Hq Hnames Hexact Hbelow (c0 & Hc0 & Hc0s).
  rewrite (standardize_nonblank _ _ _ _ Hq). simpl. rewrite Hnames.
  replace (List.find _ names) with (@None string).
  2:{ symmetry. apply find_none_iff. intros y Hy.
      apply String.eqb_neq. auto. }
  rewrite Hthr, Haat.
  rewrite (find_best_match_none_below default_threshold (strip team_name) names Hbelow).
  destruct (best_existing difflib_ratio (strip team_name) names 0%Q None)
    as [bs bc] eqn:E.
  apply best_existing_spec in E
    as [(-> & -> & Hno) | (k & c & Hfb & -> & -> & Hlt)].
  - exfalso. specialize (Hno c0 Hc0).
    assert (H : (0.70 <= 0)%Q) by (apply Qle_trans with (sim (strip team_name) c0); assumption).
    unfold Qle in H. simpl in H. lia.
  - destruct Hfb as (Hk & Hmax & _).
    pose proof (list_elem_of_lookup_2 _ _ _ Hk) as Hc.
    assert (Hge : (0.70 <= sim (strip team_name) c)%Q).
    { apply Qle_trans with (sim (strip team_name) c0); auto. }
    replace (Qltb (sim (strip team_name) c) default_auto_add_threshold) with false.
    2:{ symmetry. apply Qltb_ge. exact Hge. }
    rewrite andb_false_r.
    exists (sim (strip team_name) c), c. repeat split; auto.
Qed.

Lemma sim_one_or_less (s1 s2 : string) :
  sim s1 s2 = 1%Q \/ (sim s1 s2 < 1)%Q.
Proof.
  unfold calculate_similarity.
  destruct (negb (truthy s1) || negb (truthy s2)); [right; reflexivity|].
  destruct (String.eqb s1 s2); [left; reflexivity|].
  destruct (String.eqb _ _); [left; reflexivity|].
  unfold py_min. destruct (Qltb _ 1) eqn:E; [|left; reflexivity].
  right. apply Qltb_lt in E. exact E.
Qed.

(** C10, as the code has it.  Two non-empty strings with the same normal
    form score exactly 1.0; hence, for every matching threshold at most 1,
    the selector run on a candidate list that contains the second string
    returns a candidate with score 1.0.  [standardize_team_name] answers
    [fuzzy_match] with score 1.0, leaving the standardizer as it was, when
    the first string is the trimmed name it is called with and no name
    stored in the category equals it up to case: the blank test and the
    exact-match test come before the scores are looked at. *)
Theorem same_normal_form_is_fuzzy_match (s1 s2 : string) :
  s1 <> "" -> s2 <> "" ->
  _normalize_text s1 = _normalize_text s2 ->
  sim s1 s2 = 1%Q
  /\ (forall thr l, (thr <= 1)%Q -> s2 ∈ l ->
        exists c, find_best_match difflib_ratio thr s1 l = Some (c, 1%Q)
                  /\ c ∈ l /\ sim s1 c = 1%Q)
  /\ (forall st team_name sp auto_add names,
        strip team_name = s1 ->
        (threshold st <= 1)%Q ->
        _sport_teams_cache st !! lower sp = Some names ->
        s2 ∈ names ->
        (forall c, c ∈ names -> lower c <> lower s1) ->
        exists c,
          standardize_team_name difflib_ratio st team_name sp auto_add
          = (c, FuzzyMatch 1 c, st)
          /\ status (FuzzyMatch 1 c) = "fuzzy_match"
          /\ c ∈ names /\ sim s1 c = 1%Q).
Proof.
  intros H1 H2 Hn.
  pose proof (sim_same_normal_form s1 s2 H1 H2 Hn) as Hone.
  assert (Hsel : forall thr l, (thr <= 1)%Q -> s2 ∈ l ->
            exists c, find_best_match difflib_ratio thr s1 l = Some (c, 1%Q)
                      /\ c ∈ l /\ sim s1 c = 1%Q).
  { intros thr l Hthr Hl.
    pose proof (find_best_match_cases thr s1 l) as Hc.
    destruct (find_best_match difflib_ratio thr s1 l) as [[c s]|].
    - destruct Hc as (-> & _ & _ & k & Hk & Hmax & _).
      pose proof (list_elem_of_lookup_2 _ _ _ Hk) as Hcl.
      specialize (Hmax s2 Hl). rewrite Hone in Hmax.
      destruct (sim_one_or_less s1 c) as [E|E].
      + exists c. rewrite E. auto.
      + exfalso. exact (Qlt_not_le _ _ E Hmax).
    - exfalso. apply (Hc s2 Hl). rewrite Hone. split; [reflexivity | exact Hthr]. }
  split; [exact Hone|]. split; [exact Hsel|].
  intros st team_name sp auto_add names Hs Hthr Hnames Hl Hexact.
  assert (Hq : strip team_name <> "") by (rewrite Hs; exact H1).
  rewrite (standardize_nonblank _ _ _ _ Hq). simpl. rewrite Hnames, Hs.
  replace (List.find _ names) with (@None string).
  2:{ symmetry. apply find_none_iff. intros y Hy.
      apply String.eqb_neq. auto. }
  destruct (Hsel (threshold st) names Hthr Hl) as (c & -> & Hc & Hsc).
  exists c. repeat split; auto.
Qed.

(** ** The uniqueness key over sequences of calls *)

Lemma lower_char_idem (c : ascii) : lower_char (lower_char c) = lower_char c.
Proof. destruct c as [[] [] [] [] [] [] [] []]; reflexivity. Qed.

Lemma lower_idem (s : string) : lower (lower s) = lower s.
Proof.
  induction s as [|c s IH]; simpl; [reflexivity|].
  rewrite lower_char_idem, IH. reflexivity.
Qed.

Lemma lower_eq_empty (s : string) : lower s = "" <-> s = "".
Proof. destruct s; simpl; split; congruence. Qed.

Lemma cache_append_same (m : gmap string (list string)) (k x : string) :
  default [] (cache_append m k x !! k) = default [] (m !! k) ++ [x].
Proof. unfold cache_append. rewrite lookup_insert_eq. reflexivity. Qed.

Lemma cache_append_other (m : gmap string (list string)) (k k' x : string) :
  k <> k' -> cache_append m k x !! k' = m !! k'.
Proof. intros H. unfold cache_append. rewrite lookup_insert_ne; auto. Qed.

Lemma cache_append_keeps (m : gmap string (list string)) (k k' x y : string) :
  y ∈ default [] (m !! k') -> y ∈ default [] (cache_append m k x !! k').
Proof.
  intros H. destruct (decide (k = k')) as [->|Hne].
  - rewrite cache_append_same. apply elem_of_app. left. exact H.
  - rewrite cache_append_other; auto.
Qed.

Lemma build_cache_fold (teams : list team) :
  _build_cache teams = fold_left cache_step teams ∅.
Proof. reflexivity. Qed.

Lemma cache_fold_keeps (teams : list team) :
  forall m k y, y ∈ default [] (m !! k) ->
    y ∈ default [] (fold_left cache_step teams m !! k).
Proof.
  induction teams as [|t teams IH]; intros m k y H; simpl; [exact H|].
  apply IH. unfold cache_step.
  destruct (truthy _ && truthy _); [apply cache_append_keeps|]; exact H.
Qed.

Lemma cache_fold_covers (teams : list team) :
  forall m t, t ∈ teams -> sport t <> "" -> canonical_team_name t <> "" ->
    canonical_team_name t
      ∈ default [] (fold_left cache_step teams m !! lower (sport t)).
Proof.
  induction teams as [|t0 teams IH]; intros m t Ht Hs Hn.
  - apply elem_of_nil in Ht. contradiction.
  - simpl. apply elem_of_cons in Ht as [->|Ht]; [|apply IH; assumption].
    apply cache_fold_keeps. unfold cache_step.
    assert (Hs' : lower (sport t0) <> "") by (rewrite lower_eq_empty; exact Hs).
    apply truthy_true in Hs'. apply truthy_true in Hn. rewrite Hs', Hn. simpl.
    rewrite cache_append_same. apply elem_of_app. right.
    apply list_elem_of_singleton. reflexivity.
Qed.

Lemma init_covered (teams_data : list team) (thr aat : Q) :
  (forall t, t ∈ teams_data -> canonical_team_name t <> "" -> sport t <> "") ->
  covered (init teams_data thr aat).
Proof.
  intros H t Ht Hn. simpl in *. rewrite build_cache_fold.
  apply cache_fold_covers; auto.
Qed.

(** A call leaves the standardizer as it was or adds one entry: the
    lowercased sport with the trimmed name, which is not blank and matches
    no name cached under that sport. *)
Lemma standardize_state (st : standardizer) (team_name sp : string) (aa : bool) :
  snd (standardize_team_name difflib_ratio st team_name sp aa) = st
  \/ (snd (standardize_team_name difflib_ratio st team_name sp aa)
      = add_team st (lower sp) (strip team_name)
      /\ strip team_name <> ""
      /\ forall c, c ∈ default [] (_sport_teams_cache st !! lower sp) ->
           lower c <> lower (strip team_name)).
Proof.
  destruct (string_dec (strip team_name) "") as [Hq|Hq].
  { left. rewrite standardize_blank; auto. }
  rewrite (standardize_nonblank _ _ _ _ Hq). simpl.
  destruct (match _sport_teams_cache st !! lower sp with
            | Some l => List.find _ l | None => None end) eqn:Ex;
    [left; reflexivity|].
  destruct (match _sport_teams_cache st !! lower sp with
            | Some l => find_best_match _ _ _ l | None => None end)
    as [[m sc]|]; [left; reflexivity|].
  destruct (match _sport_teams_cache st !! lower sp with
            | Some l => best_existing _ _ l _ _ | None => _ end) as [bs bc].
  destruct (aa && Qltb bs (auto_add_threshold st)); [|left; reflexivity].
  right. repeat split; auto.
  intros c Hc. destruct (_sport_teams_cache st !! lower sp) as [l|]; simpl in Hc.
  - rewrite find_none_iff in Ex. apply String.eqb_neq. auto.
  - apply elem_of_nil in Hc. contradiction.
Qed.

Lemma add_team_covered (st : standardizer) (sp name : string) :
  lower sp = sp -> covered st -> covered (add_team st sp name).
Proof.
  intros Hsp H t Ht Hn. unfold add_team in *. simpl in *.
  apply elem_of_app in Ht as [Ht|Ht].
  - apply cache_append_keeps. auto.
  - apply list_elem_of_singleton in Ht. subst t. simpl. rewrite Hsp.
    rewrite cache_append_same. apply elem_of_app. right.
    apply list_elem_of_singleton. reflexivity.
Qed.

Lemma add_team_unique (st : standardizer) (sp name : string) :
  covered st -> name <> "" ->
  (forall c, c ∈ default [] (_sport_teams_cache st !! lower sp) ->
     lower c <> lower name) ->
  NoDup (map key (teams_map st)) ->
  NoDup (map key (teams_map (add_team st (lower sp) name))).
Proof.
  intros Hcov Hname Hfresh Hnd. simpl. rewrite map_app. simpl.
  apply NoDup_app. split; [exact Hnd|]. split; [|apply NoDup_singleton].
  intros k Hk Hk'. apply list_elem_of_singleton in Hk'. subst k.
  apply list_elem_of_fmap in Hk as (t & Hkey & Ht).
  unfold key in Hkey. simpl in Hkey. rewrite lower_idem in Hkey.
  inversion Hkey as [[Hs Hn]].
  assert (Hnt : canonical_team_name t <> "").
  { intros E. rewrite E in Hn. simpl in Hn.
    apply (proj1 (lower_eq_empty _)) in Hn. contradiction. }
  specialize (Hcov t Ht Hnt). rewrite <- Hs in Hcov.
  apply (Hfresh _ Hcov). congruence.
Qed.

(** The two invariants of a call. *)
Lemma standardize_invariant (st : standardizer) (team_name sp : string) (aa : bool) :
  covered st -> NoDup (map key (teams_map st)) ->
  covered (snd (standardize_team_name difflib_ratio st team_name sp aa))
  /\ NoDup (map key
       (teams_map (snd (standardize_team_name difflib_ratio st team_name sp aa)))).
Proof.
  intros Hcov Hnd.
  destruct (standardize_state st team_name sp aa) as [->|(-> & Hq & Hfresh)];
    [split; assumption|].
  split.
  - apply add_team_covered; [apply lower_idem | exact Hcov].
  - apply add_team_unique; assumption.
Qed.

Lemma run_calls_invariant (calls : list call) :
  forall st, covered st -> NoDup (map key (teams_map st)) ->
    covered (run_calls difflib_ratio st calls)
    /\ NoDup (map key (teams_map (run_calls difflib_ratio st calls))).
Proof.
  induction calls as [|c calls IH]; intros st Hcov Hnd; simpl; [split; assumption|].
  destruct (standardize_invariant st (call_team_name c) (call_sport c)
              (call_auto_add c) Hcov Hnd) as [Hcov' Hnd'].
  apply IH; assumption.
Qed.

(** The uniqueness that the calls do keep.  Start from a teams list in
    which no two entries share the key [(sport.lower(), name.lower())] and
    in which every entry that has a name has a sport (the cache leaves out
    an entry with an empty sport or an empty name).  After any finite
    sequence of calls of [standardize_team_name], with any arguments, the
    teams list still has no two entries with the same key: the calls never
    rebuild the cache, so an entry they file under the empty sport stays
    listed.  And a name whose trimmed form is not blank and equals,
    case-insensitively, the name of an entry of the same category is
    answered [exact_match] with the standardizer unchanged. *)
Theorem unique_keys_preserved (teams_data : list team) (thr aat : Q)
    (calls : list call) :
  NoDup (map key teams_data) ->
  (forall t, t ∈ teams_data -> canonical_team_name t <> "" -> sport t <> "") ->
  NoDup (map key
    (teams_map (run_calls difflib_ratio (init teams_data thr aat) calls)))
  /\ forall t team_name sp auto_add,
       t ∈ teams_map (run_calls difflib_ratio (init teams_data thr aat) calls) ->
       strip team_name <> "" ->
       lower (canonical_team_name t) = lower (strip team_name) ->
       lower (sport t) = lower sp ->
       exists c,
         standardize_team_name difflib_ratio
           (run_calls difflib_ratio (init teams_data thr aat) calls)
           team_name sp auto_add
         = (c, ExactMatch 1,
            run_calls difflib_ratio (init teams_data thr aat) calls)
         /\ lower c = lower (strip team_name).
Proof.
  intros Hnd Hsport.
  destruct (run_calls_invariant calls (init teams_data thr aat)
              (init_covered teams_data thr aat Hsport) Hnd) as [Hcov Hnd'].
  split; [exact Hnd'|].
  intros t team_name sp auto_add Ht Hq Hname Hsp.
  assert (Hnt : canonical_team_name t <> "").
  { intros E. rewrite E in Hname. simpl in Hname. symmetry in Hname.
    apply (proj1 (lower_eq_empty _)) in Hname. contradiction. }
  specialize (Hcov t Ht Hnt). rewrite Hsp in Hcov.
  destruct (_sport_teams_cache _ !! lower sp) as [names|] eqn:E;
    [|apply elem_of_nil in Hcov; contradiction].
  simpl in Hcov.
  destruct (standardize_exact _ team_name sp auto_add names _ Hq E Hcov Hname)
    as (c & l1 & l2 & _ & Hc & _ & Hres).
  exists c. split; assumption.
Qed.

(** ** Thresholds in the wrong order *)

(** With a positive matching threshold that does not exceed the auto-add
    threshold there is no gray zone: a call with [auto_add=True] never
    answers [no_match_no_add]. *)
Lemma no_gray_zone_when_inverted (st : standardizer) (team_name sp : string) :
  (0 < threshold st)%Q -> (threshold st <= auto_add_threshold st)%Q ->
  status (snd (fst (standardize_team_name difflib_ratio st team_name sp true)))
  <> "no_match_no_add".
Proof.
  intros Hpos Hinv.
  destruct (string_dec (strip team_name) "") as [Hq|Hq].
  { rewrite standardize_blank by exact Hq. discriminate. }
  rewrite (standardize_nonblank _ _ _ _ Hq). simpl.
  destruct (_sport_teams_cache st !! lower sp) as [l|].
  - destruct (List.find _ l); [discriminate|].
    destruct (find_best_match _ _ _ l) as [[m sc]|] eqn:E; [discriminate|].
    pose proof (proj1 (find_best_match_none_positive _ _ _ Hpos) E) as Hall.
    destruct (best_existing _ _ l _ _) as [bs bc] eqn:Eb.
    assert (Hbs : (bs < auto_add_threshold st)%Q).
    { apply best_existing_spec in Eb
        as [(-> & _ & _) | (k & c & (Hk & _) & _ & -> & _)].
      - apply Qlt_le_trans with (threshold st); assumption.
      - apply Qlt_le_trans with (threshold st); [|exact Hinv].
        apply Hall. exact (list_elem_of_lookup_2 _ _ _ Hk). }
    apply Qltb_lt in Hbs. rewrite Hbs. discriminate.
  - assert (Hbs : (0 < auto_add_threshold st)%Q)
      by (apply Qlt_le_trans with (threshold st); assumption).
    apply Qltb_lt in Hbs. rewrite Hbs. discriminate.
Qed.

(** ** [__init__] *)

(** C7, as the code has it.  The constructor validates nothing: for every
    teams list and every pair of thresholds it returns a standardizer that
    holds both thresholds exactly as given, the teams list as given and an
    empty session log.  In particular a positive matching threshold that
    does not exceed the auto-add threshold is accepted, and with it no call
    with [auto_add=True] is ever answered [no_match_no_add]. *)
Theorem init_stores_thresholds_unchecked (teams_data : list team) (thr aat : Q) :
  threshold (init teams_data thr aat) = thr
  /\ auto_add_threshold (init teams_data thr aat) = aat
  /\ teams_map (init teams_data thr aat) = teams_data
  /\ _new_teams_added (init teams_data thr aat) = []
  /\ ((0 < thr)%Q -> (thr <= aat)%Q ->
      forall team_name sp,
        status (snd (fst (standardize_team_name difflib_ratio
                            (init teams_data thr aat) team_name sp true)))
        <> "no_match_no_add").
Proof.
  repeat split. intros Hpos Hinv team_name sp.
  apply no_gray_zone_when_inverted; assumption.
Qed.

End MatcherFacts.

(** * Concrete runs

    The runs below use the sequence ratio of [Difflib] for the sixth
    score. *)

Local Abbreviation run_standardize := (standardize_team_name Difflib.sequence_ratio).

(** C1 fails as stated: the raw name [" Ajax "] is equal to the second
    stored name of its category, yet the call compares the trimmed name
    ["Ajax"], finds no exact match, and answers [fuzzy_match] with the
    first stored name. *)
Lemma exact_match_counterexample_untrimmed_entry :
  " Ajax " ∈ default [] (_sport_teams_cache ajax_registry !! "soccer")
  /\ run_standardize ajax_registry " Ajax " "soccer" true
     = ("Ajax FC", FuzzyMatch 1 "Ajax FC", ajax_registry).
Proof.
  split.
  - vm_compute. apply elem_of_cons. right. apply elem_of_cons. left. reflexivity.
  - vm_compute. reflexivity.
Qed.

Lemma exact_match_on_trimmed_name_witness :
  exists c' l1 l2,
    ["Ajax"] = l1 ++ c' :: l2
    /\ lower c' = lower (strip " AJAX ")
    /\ (forall x, x ∈ l1 -> lower x <> lower (strip " AJAX "))
    /\ run_standardize one_team_registry " AJAX " "SOCCER" false
       = (c', ExactMatch 1, one_team_registry)
    /\ status (ExactMatch 1) = "exact_match".
Proof.
  apply (exact_match_on_trimmed_name Difflib.sequence_ratio one_team_registry
           " AJAX " "SOCCER" false ["Ajax"] "Ajax").
  - vm_compute. discriminate.
  - vm_compute. reflexivity.
  - apply elem_of_cons. left. reflexivity.
  - vm_compute. reflexivity.
Defined.

(** C2 fails as stated: the name returned and stored is the trimmed one,
    and the category stored is the lowercased one. *)
Lemma auto_add_counterexample_raw_name_changed :
  fst (fst (run_standardize empty_registry " Ajax " "Soccer" true)) = "Ajax"
  /\ snd (fst (run_standardize empty_registry " Ajax " "Soccer" true))
     = AutoAdded 0 None
  /\ teams_map (snd (run_standardize empty_registry " Ajax " "Soccer" true))
     = [Team "soccer" "Ajax"]
  /\ "Ajax" <> " Ajax ".
Proof. repeat split; try (vm_compute; reflexivity). discriminate. Qed.

Lemma auto_add_in_empty_category_witness :
  exists st',
    run_standardize empty_registry "Brand New FC" "basketball" true
    = (strip "Brand New FC", AutoAdded 0 None, st')
    /\ status (AutoAdded 0 None) = "auto_added"
    /\ teams_map st'
       = teams_map empty_registry
         ++ [Team (lower "basketball") (strip "Brand New FC")]
    /\ _new_teams_added st'
       = _new_teams_added empty_registry
         ++ [Team (lower "basketball") (strip "Brand New FC")]
    /\ _sport_teams_cache st' !! lower "basketball"
       = Some [strip "Brand New FC"]
    /\ threshold st' = threshold empty_registry
    /\ auto_add_threshold st' = auto_add_threshold empty_registry.
Proof.
  apply (auto_add_in_empty_category Difflib.sequence_ratio empty_registry
           "Brand New FC" "basketball").
  - vm_compute. discriminate.
  - vm_compute. reflexivity.
  - vm_compute. reflexivity.
Defined.

Lemma gray_zone_no_match_no_add_witness :
  exists bs bc,
    run_standardize ajax_only_registry "Ajx" "soccer" true
    = (strip "Ajx", NoMatchNoAdd bs (Some bc) 0.70%Q, ajax_only_registry)
    /\ status (NoMatchNoAdd bs (Some bc) 0.70%Q) = "no_match_no_add"
    /\ bc ∈ ["Ajax"]
    /\ bs = calculate_similarity Difflib.sequence_ratio (strip "Ajx") bc
    /\ (0.70 <= bs)%Q /\ (bs < 0.75)%Q
    /\ forall c, c ∈ ["Ajax"] ->
         (calculate_similarity Difflib.sequence_ratio (strip "Ajx") c <= bs)%Q.
Proof.
  apply (gray_zone_no_match_no_add Difflib.sequence_ratio ajax_only_registry
           "Ajx" "soccer" true ["Ajax"]).
  - reflexivity.
  - reflexivity.
  - vm_compute. discriminate.
  - vm_compute. reflexivity.
  - intros c Hc. apply list_elem_of_singleton in Hc. subst c.
    vm_compute. discriminate.
  - intros c Hc. apply list_elem_of_singleton in Hc. subst c.
    vm_compute. reflexivity.
  - exists "Ajax". split; [apply list_elem_of_singleton; reflexivity|].
    vm_compute. discriminate.
Defined.

(** C6 fails as stated for a threshold that is not positive: the only
    candidate scores 0, which reaches the threshold 0, and nothing is
    returned. *)
Lemma find_best_match_counterexample_zero_threshold :
  find_best_match Difflib.sequence_ratio 0 "abc" ["xyz"] = None
  /\ calculate_similarity Difflib.sequence_ratio "abc" "xyz" = 0%Q
  /\ Qle_bool 0 (calculate_similarity Difflib.sequence_ratio "abc" "xyz") = true.
Proof. repeat split; vm_compute; reflexivity. Qed.

(** C7 fails as stated: an auto-add threshold above the matching threshold,
    and thresholds outside [0,1], are accepted and stored; with 0.75 and
    0.9 the near-duplicate "Ajx" of "Ajax" is added as a new team. *)
Lemma init_counterexample_inverted_thresholds :
  threshold (init [] 0.5 0.9) = 0.5%Q
  /\ auto_add_threshold (init [] 0.5 0.9) = 0.9%Q
  /\ Qltb (threshold (init [] 0.5 0.9)) (auto_add_threshold (init [] 0.5 0.9))
     = true
  /\ threshold (init [] 1.5 (-0.2)) = 1.5%Q
  /\ auto_add_threshold (init [] 1.5 (-0.2)) = (-0.2)%Q
  /\ status (snd (fst (run_standardize (init [Team "soccer" "Ajax"] 0.75 0.9)
                         "Ajx" "soccer" true)))
     = "auto_added".
Proof. repeat split; vm_compute; reflexivity. Qed.

Lemma same_normal_form_is_fuzzy_match_witness :
  run_standardize sc_registry "FC" "soccer" true
  = ("SC", FuzzyMatch 1 "SC", sc_registry)
  /\ calculate_similarity Difflib.sequence_ratio "FC" "SC" = 1%Q.
Proof.
  destruct (same_normal_form_is_fuzzy_match Difflib.sequence_ratio "FC" "SC")
    as (Hone & _ & Hstd).
  - discriminate.
  - discriminate.
  - vm_compute. reflexivity.
  - split; [|exact Hone].
    destruct (Hstd sc_registry "FC" "soccer" true ["SC"]) as (c & Hc & _ & Hin & _).
    + reflexivity.
    + vm_compute. discriminate.
    + vm_compute. reflexivity.
    + apply list_elem_of_singleton. reflexivity.
    + intros c Hc. apply list_elem_of_singleton in Hc. subst c.
      vm_compute. discriminate.
    + apply list_elem_of_singleton in Hin. subst c. exact Hc.
Defined.

(** C10 fails as stated: not every pair with the same normal form resolves
    as a fuzzy match.  ["AJAX"] and ["Ajax"] are distinct, have the same
    normal form and score 1.0, and the call is answered [exact_match], by
    the test that comes first; ["  "] and ["SC"] are distinct and not empty,
    both have the empty normal form and score 1.0, and the call with the
    blank name is answered [empty]. *)
Lemma same_normal_form_counterexample_exact_and_empty :
  _normalize_text "AJAX" = _normalize_text "Ajax"
  /\ calculate_similarity Difflib.sequence_ratio "AJAX" "Ajax" = 1%Q
  /\ run_standardize one_team_registry "AJAX" "soccer" true
     = ("Ajax", ExactMatch 1, one_team_registry)
  /\ status (ExactMatch 1) = "exact_match"
  /\ _normalize_text "  " = _normalize_text "SC"
  /\ calculate_similarity Difflib.sequence_ratio "  " "SC" = 1%Q
  /\ run_standardize sc_registry "  " "soccer" true = ("", Empty, sc_registry)
  /\ status Empty = "empty".
Proof. repeat split; vm_compute; reflexivity. Qed.

(** ** [_normalize_text] on a name with [&] *)

(** C8 fails on the code.  [&] stands between two [\b] in the second
    removal pattern, so it is removed only where it is glued to word
    characters on both sides, and removing it there joins two words into
    one: ["f&c"] becomes ["fc"], which a second normalization removes. *)
Theorem normalize_not_idempotent_on_ampersand :
  _normalize_text "f&c" = "fc"
  /\ _normalize_text (_normalize_text "f&c") = ""
  /\ _normalize_text "l&a" = "la"
  /\ _normalize_text (_normalize_text "l&a") = "los angeles".
Proof. repeat split; vm_compute; reflexivity. Qed.

(** ** Uniqueness of keys: concrete runs *)

(** C4 fails on the code.  The automatic addition files a name under the
    empty sport, and [_build_cache] leaves the empty sport out.  From the
    empty registry the call [('Ajax', '')] adds the entry; as long as the
    cache lives the name is found again, but once the cache has been
    rebuilt, by [clean_empty_teams] or by a new standardizer made from the
    same teams list, the same call adds the entry a second time, and
    [add_team_manually] without [force] accepts the name as well.  The
    teams list then has two entries with the key [("", "ajax")]. *)
Theorem unique_keys_broken_by_empty_sport :
  NoDup (map key (teams_map empty_registry))
  /\ run_standardize empty_registry "Ajax" "" true
     = ("Ajax", AutoAdded 0 None, empty_sport_added)
  /\ teams_map empty_sport_added = [Team "" "Ajax"]
  /\ run_standardize empty_sport_added "Ajax" "" true
     = ("Ajax", ExactMatch 1, empty_sport_added)
  /\ clean_empty_teams empty_sport_added = (0, empty_sport_rebuilt)
  /\ teams_map empty_sport_rebuilt = [Team "" "Ajax"]
  /\ _sport_teams_cache empty_sport_rebuilt = ∅
  /\ init (teams_map empty_sport_added) default_threshold
       default_auto_add_threshold
     = unindexed_registry
  /\ (exists st',
        run_standardize empty_sport_rebuilt "Ajax" "" true
        = ("Ajax", AutoAdded 0 None, st')
        /\ teams_map st' = [Team "" "Ajax"; Team "" "Ajax"])
  /\ (exists st',
        run_standardize unindexed_registry "Ajax" "" true
        = ("Ajax", AutoAdded 0 None, st')
        /\ teams_map st' = [Team "" "Ajax"; Team "" "Ajax"])
  /\ (exists st',
        add_team_manually Difflib.sequence_ratio empty_sport_rebuilt "Ajax" ""
          false
        = (true, st')
        /\ teams_map st' = [Team "" "Ajax"; Team "" "Ajax"])
  /\ map key [Team "" "Ajax"; Team "" "Ajax"] = [("", "ajax"); ("", "ajax")]
  /\ ~ NoDup (map key [Team "" "Ajax"; Team "" "Ajax"]).
Proof.
  split; [apply NoDup_nil; exact I|].
  split; [vm_compute; reflexivity|]. split; [vm_compute; reflexivity|].
  split; [vm_compute; reflexivity|]. split; [vm_compute; reflexivity|].
  split; [vm_compute; reflexivity|]. split; [vm_compute; reflexivity|].
  split; [vm_compute; reflexivity|].
  split; [eexists; split; vm_compute; reflexivity|].
  split; [eexists; split; vm_compute; reflexivity|].
  split; [eexists; split; vm_compute; reflexivity|].
  split; [reflexivity|].
  intros H. apply NoDup_cons in H. destruct H as [H _]. apply H.
  apply elem_of_cons. left. reflexivity.
Qed.

Lemma unique_keys_preserved_witness :
  NoDup (map key
    (teams_map
       (run_calls Difflib.sequence_ratio
          (init [Team "Soccer" "Ajax"] default_threshold
             default_auto_add_threshold) sample_calls)))
  /\ forall t team_name sp auto_add,
       t ∈ teams_map
             (run_calls Difflib.sequence_ratio
                (init [Team "Soccer" "Ajax"] default_threshold
                   default_auto_add_threshold) sample_calls) ->
       strip team_name <> "" ->
       lower (canonical_team_name t) = lower (strip team_name) ->
       lower (sport t) = lower sp ->
       exists c,
         standardize_team_name Difflib.sequence_ratio
           (run_calls Difflib.sequence_ratio
              (init [Team "Soccer" "Ajax"] default_threshold
                 default_auto_add_threshold) sample_calls)
           team_name sp auto_add
         = (c, ExactMatch 1,
            run_calls Difflib.sequence_ratio
              (init [Team "Soccer" "Ajax"] default_threshold
                 default_auto_add_threshold) sample_calls)
         /\ lower c = lower (strip team_name).
Proof.
  apply (unique_keys_preserved Difflib.sequence_ratio [Team "Soccer" "Ajax"]
           default_threshold default_auto_add_threshold sample_calls).
  - simpl. apply NoDup_singleton.
  - intros t Ht _. apply list_elem_of_singleton in Ht. subst t. discriminate.
Defined.

(** ** The bulk scenario *)

Lemma py_min_lt_r (a b c : Q) : (b < c)%Q -> (py_min a b < c)%Q.
Proof.
  intros H. unfold py_min. destruct (Qltb b a) eqn:E; [exact H|].
  apply Qltb_ge in E. apply Qle_lt_trans with b; assumption.
Qed.

Lemma py_max_lt (a b c : Q) : (a < c)%Q -> (b < c)%Q -> (py_max a b < c)%Q.
Proof. intros Ha Hb. unfold py_max. destruct (Qltb a b); assumption. Qed.

(** The score that decides the scenario stays below both thresholds
    whatever the sequence ratio is, as long as it is at most 1: the other
    five metrics contribute 160999/248472, about 0.648, and the sixth has
    weight 0.05. *)
Lemma scenario_home_score_any_ratio (ratio : string -> string -> Q) :
  (ratio "zalgiris kaunas" "kauno zalgiris" <= 1)%Q ->
  (calculate_similarity ratio "Zalgiris Kaunas" "Kauno Zalgiris" < 0.70)%Q.
Proof.
  intros Hr. unfold calculate_similarity.
  replace (_normalize_text "Zalgiris Kaunas") with "zalgiris kaunas"
    by (vm_compute; reflexivity).
  replace (_normalize_text "Kauno Zalgiris") with "kauno zalgiris"
    by (vm_compute; reflexivity).
  change (negb (truthy "Zalgiris Kaunas") || negb (truthy "Kauno Zalgiris"))
    with false.
  change ("Zalgiris Kaunas" =? "Kauno Zalgiris")%string with false.
  change ("zalgiris kaunas" =? "kauno zalgiris")%string with false.
  cbv iota. apply py_min_lt_r, py_max_lt; [reflexivity|].
  unfold weighted_sum, weights. cbn [combine map fold_left fst snd].
  assert (Hl : (_levenshtein_ratio "zalgiris kaunas" "kauno zalgiris" == 2 # 15)%Q)
    by (vm_compute; reflexivity).
  assert (Hj : (_jaro_similarity "zalgiris kaunas" "kauno zalgiris" == 811 # 1260)%Q)
    by (vm_compute; reflexivity).
  assert (Hc : (_jaccard_similarity "zalgiris kaunas" "kauno zalgiris" 2 == 10 # 17)%Q)
    by (vm_compute; reflexivity).
  assert (Hs : (_token_sort_ratio "zalgiris kaunas" "kauno zalgiris" == 13 # 15)%Q)
    by (vm_compute; reflexivity).
  assert (Ht : (_token_set_ratio "zalgiris kaunas" "kauno zalgiris" == 13 # 15)%Q)
    by (vm_compute; reflexivity).
  rewrite Hl, Hj, Hc, Hs, Ht. lra.
Qed.

(** C5 fails on the code.  With the registry holding only the basketball
    entry "Kauno Zalgiris", the score of "Zalgiris Kaunas" against it is
    4063189/6211800 (about 0.654), below the matching threshold 0.75 and
    below the auto-add threshold 0.70: [home_team] is not rewritten but
    added as a new team, "Brand New FC" is added as well, and the summary
    reports two teams processed, no change made and two new teams. *)
Theorem bulk_scenario_adds_both_names :
  exists fields st',
    process_api_response Difflib.sequence_ratio scenario_registry
      scenario_doc None = Returns (JObj fields, st')
    /\ dict_get fields "home_team" = Some (JStr "Zalgiris Kaunas")
    /\ dict_get fields "away_team" = Some (JStr "Brand New FC")
    /\ dict_get fields "_processing_summary"
       = Some (JObj [("teams_processed", JNum (Qnat 2));
                     ("changes_made", JBool false);
                     ("new_teams_added", JNum (Qnat 2));
                     ("auto_save_performed", JBool false)])
    /\ teams_map st'
       = [Team "basketball" "Kauno Zalgiris";
          Team "basketball" "Zalgiris Kaunas";
          Team "basketball" "Brand New FC"]
    /\ Qred (calculate_similarity Difflib.sequence_ratio
               "Zalgiris Kaunas" "Kauno Zalgiris")
       = (4063189 # 6211800)%Q.
Proof.
  eexists. eexists. split; [vm_compute; reflexivity|].
  repeat split; vm_compute; reflexivity.
Qed.

(** * The metrics: symmetry, range, value on equal arguments *)

(** ** Ratios of natural numbers *)

Lemma Qnat_nonneg (n : nat) : (0 <= Qnat n)%Q.
Proof. unfold Qnat, Qle. simpl. lia. Qed.

Lemma Qnat_pos (n : nat) : 0 < n -> (0 < Qnat n)%Q.
Proof. intros H. unfold Qnat, Qlt. simpl. lia. Qed.

Lemma Qnat_le (n m : nat) : n <= m -> (Qnat n <= Qnat m)%Q.
Proof. intros H. unfold Qnat, Qle. simpl. lia. Qed.

Lemma Qnat_ratio_bounds (n m : nat) :
  n <= m -> 0 < m -> (0 <= Qnat n / Qnat m <= 1)%Q.
Proof.
  intros Hle Hpos. pose proof (Qnat_pos m Hpos) as Hm. split.
  - apply Qle_shift_div_l; [exact Hm|]. rewrite Qmult_0_l. apply Qnat_nonneg.
  - apply Qle_shift_div_r; [exact Hm|]. rewrite Qmult_1_l. apply Qnat_le, Hle.
Qed.

Lemma Qnat_ratio_same (n : nat) : 0 < n -> (Qnat n / Qnat n == 1)%Q.
Proof.
  intros H. apply Qmult_inv_r. intros E.
  pose proof (Qnat_pos n H) as Hn. rewrite E in Hn. discriminate.
Qed.

(** ** Edit distance *)

Lemma lev_rec_nil_r (a : list ascii) : lev_rec a [] = List.length a.
Proof. destruct a; reflexivity. Qed.

Lemma lev_rec_nil_l (b : list ascii) : lev_rec [] b = List.length b.
Proof. destruct b; reflexivity. Qed.

Lemma lev_rec_cons (x y : ascii) (a b : list ascii) :
  lev_rec (x :: a) (y :: b)
  = Nat.min (Nat.min (lev_rec a (y :: b) + 1) (lev_rec (x :: a) b + 1))
      (lev_rec a b + cost x y).
Proof. reflexivity. Qed.

Lemma cost_sym (x y : ascii) : cost x y = cost y x.
Proof. unfold cost. rewrite Ascii.eqb_sym. reflexivity. Qed.

Lemma cost_refl (x : ascii) : cost x x = 0.
Proof. unfold cost. rewrite Ascii.eqb_refl. reflexivity. Qed.

Lemma cost_le_1 (x y : ascii) : cost x y <= 1.
Proof. unfold cost. destruct (Ascii.eqb x y); lia. Qed.

Lemma lev_rec_sym (a : list ascii) : forall b, lev_rec a b = lev_rec b a.
Proof.
  induction a as [|x a IHa]; intros b.
  - rewrite lev_rec_nil_r, lev_rec_nil_l. reflexivity.
  - induction b as [|y b IHb].
    + rewrite lev_rec_nil_r, lev_rec_nil_l. reflexivity.
    + rewrite !lev_rec_cons. rewrite IHb, (IHa (y :: b)), (IHa b), (cost_sym x y).
      lia.
Qed.

Lemma lev_rec_bound (a : list ascii) :
  forall b, lev_rec a b <= Nat.max (List.length a) (List.length b).
Proof.
  induction a as [|x a IHa]; intros b.
  - simpl. destruct b; simpl; lia.
  - destruct b as [|y b].
    + simpl. lia.
    + rewrite lev_rec_cons. specialize (IHa b). pose proof (cost_le_1 x y).
      simpl List.length. lia.
Qed.

Lemma lev_rec_refl (a : list ascii) : lev_rec a a = 0.
Proof.
  induction a as [|x a IH]; [reflexivity|].
  rewrite lev_rec_cons, IH, cost_refl. lia.
Qed.

Lemma rprefixes_lengths (s : list ascii) :
  forall acc,
    map (@List.length ascii) (rprefixes acc s)
    = seq (List.length acc) (S (List.length s)).
Proof.
  induction s as [|d s IH]; intros acc; [reflexivity|].
  simpl. f_equal. rewrite IH. reflexivity.
Qed.

Lemma rprefixes_last (s : list ascii) :
  forall acc d, List.last (rprefixes acc s) d = rev s ++ acc.
Proof.
  induction s as [|x s IH]; intros acc d; [reflexivity|].
  change (rprefixes acc (x :: s)) with (acc :: rprefixes (x :: acc) s).
  assert (E : forall l, List.last (acc :: rprefixes (x :: acc) s) l
                        = List.last (rprefixes (x :: acc) s) l).
  { intros l. destruct s; reflexivity. }
  rewrite E, IH. simpl. rewrite <- app_assoc. reflexivity.
Qed.

Lemma rprefixes_unfold (acc s : list ascii) :
  rprefixes acc s
  = acc :: match s with
           | [] => []
           | d :: s' => rprefixes (d :: acc) s'
           end.
Proof. destruct s; reflexivity. Qed.

Lemma fill_row_cons (c d : ascii) (s2 : list ascii) (diag up left : nat)
    (prev : list nat) :
  fill_row c (d :: s2) (diag :: up :: prev) left
  = Nat.min (Nat.min (up + 1) (left + 1)) (diag + cost c d)
    :: fill_row c s2 (up :: prev)
         (Nat.min (Nat.min (up + 1) (left + 1)) (diag + cost c d)).
Proof. reflexivity. Qed.

(** One row of the matrix from the row above. *)
Lemma fill_row_spec (c : ascii) (ra : list ascii) (s2 : list ascii) :
  forall acc,
    fill_row c s2 (map (lev_rec ra) (rprefixes acc s2)) (lev_rec (c :: ra) acc)
    = match s2 with
      | [] => []
      | d :: s2' => map (lev_rec (c :: ra)) (rprefixes (d :: acc) s2')
      end.
Proof.
  induction s2 as [|d s2 IH]; intros acc; [reflexivity|].
  rewrite (rprefixes_unfold acc (d :: s2)).
  rewrite (rprefixes_unfold (d :: acc) s2) at 1.
  rewrite !map_cons, fill_row_cons, <- lev_rec_cons.
  rewrite <- map_cons, <- (rprefixes_unfold (d :: acc) s2), (IH (d :: acc)).
  rewrite (rprefixes_unfold (d :: acc) s2), map_cons.
  destruct s2; reflexivity.
Qed.

Lemma fill_matrix_spec (s2 : list ascii) (s1 : list ascii) :
  forall ra,
    fill_matrix s1 (S (List.length ra)) s2 (map (lev_rec ra) (rprefixes [] s2))
    = map (lev_rec (rev s1 ++ ra)) (rprefixes [] s2).
Proof.
  induction s1 as [|c s1 IH]; intros ra; [reflexivity|].
  simpl fill_matrix.
  replace (S (List.length ra) :: fill_row c s2 (map (lev_rec ra) (rprefixes [] s2))
             (S (List.length ra)))
    with (map (lev_rec (c :: ra)) (rprefixes [] s2)).
  - change (S (S (List.length ra))) with (S (List.length (c :: ra))).
    rewrite (IH (c :: ra)). simpl. rewrite <- app_assoc. reflexivity.
  - pose proof (fill_row_spec c ra s2 []) as H.
    rewrite lev_rec_nil_r in H. simpl List.length in H. rewrite H.
    destruct s2; reflexivity.
Qed.

Lemma length_chars (s : string) : List.length (chars s) = String.length s.
Proof. induction s as [|c s IH]; simpl; [reflexivity | f_equal; exact IH]. Qed.

Lemma chars_inj (s t : string) : chars s = chars t -> s = t.
Proof.
  intros H. rewrite <- (string_of_list_ascii_of_string s),
    <- (string_of_list_ascii_of_string t). unfold chars in H. rewrite H.
  reflexivity.
Qed.

Lemma last_map_nonempty {A B : Type} (f : A -> B) (l : list A) (d : A) (d' : B) :
  l <> [] -> List.last (map f l) d' = f (List.last l d).
Proof.
  induction l as [|x l IH]; [congruence|]. intros _.
  destruct l as [|y l]; [reflexivity|].
  change (List.last (map f (x :: y :: l)) d') with (List.last (map f (y :: l)) d').
  change (List.last (x :: y :: l) d) with (List.last (y :: l) d).
  apply IH. discriminate.
Qed.

(** The matrix computes the recurrence. *)
Lemma levenshtein_distance_rec (s1 s2 : string) :
  _levenshtein_distance s1 s2 = lev_rec (rev (chars s1)) (rev (chars s2)).
Proof.
  unfold _levenshtein_distance.
  destruct s1 as [|c1 s1].
  { cbn [truthy negb]. change (rev (chars "")) with (@nil ascii).
    rewrite lev_rec_nil_l, length_rev, length_chars. reflexivity. }
  destruct s2 as [|c2 s2].
  { cbn [truthy negb]. change (rev (chars "")) with (@nil ascii).
    rewrite lev_rec_nil_r, length_rev, length_chars. reflexivity. }
  cbn [truthy negb].
  replace (seq 0 (String.length (String c2 s2) + 1))
    with (map (lev_rec []) (rprefixes [] (chars (String c2 s2)))).
  - rewrite (fill_matrix_spec _ _ []). rewrite app_nil_r.
    rewrite (last_map_nonempty _ _ [] 0);
      [|rewrite rprefixes_unfold; discriminate].
    rewrite rprefixes_last, app_nil_r. reflexivity.
  - rewrite <- length_chars, Nat.add_1_r, <- (rprefixes_lengths _ []).
    apply map_ext. intros a. apply lev_rec_nil_l.
Qed.

Lemma levenshtein_distance_sym (s1 s2 : string) :
  _levenshtein_distance s1 s2 = _levenshtein_distance s2 s1.
Proof. rewrite !levenshtein_distance_rec. apply lev_rec_sym. Qed.

Lemma levenshtein_distance_bound (s1 s2 : string) :
  _levenshtein_distance s1 s2 <= Nat.max (String.length s1) (String.length s2).
Proof.
  rewrite levenshtein_distance_rec, <- !length_chars, <- !(length_rev (chars _)).
  apply lev_rec_bound.
Qed.

Lemma levenshtein_distance_refl (s : string) : _levenshtein_distance s s = 0.
Proof. rewrite levenshtein_distance_rec. apply lev_rec_refl. Qed.

Lemma levenshtein_ratio_sym (s1 s2 : string) :
  _levenshtein_ratio s1 s2 = _levenshtein_ratio s2 s1.
Proof.
  unfold _levenshtein_ratio.
  rewrite (Nat.max_comm (String.length s2)), (levenshtein_distance_sym s2 s1).
  reflexivity.
Qed.

Lemma levenshtein_ratio_bounds (s1 s2 : string) :
  (0 <= _levenshtein_ratio s1 s2 <= 1)%Q.
Proof.
  unfold _levenshtein_ratio.
  destruct (Nat.max (String.length s1) (String.length s2) =? 0) eqn:E.
  - split; discriminate.
  - apply Nat.eqb_neq in E.
    destruct (Qnat_ratio_bounds _ _ (levenshtein_distance_bound s1 s2)) as [H0 H1];
      [lia|].
    split; lra.
Qed.

Lemma levenshtein_ratio_same (s : string) : (_levenshtein_ratio s s == 1)%Q.
Proof.
  unfold _levenshtein_ratio.
  destruct (Nat.max (String.length s) (String.length s) =? 0); [reflexivity|].
  rewrite levenshtein_distance_refl. unfold Qnat at 1. simpl inject_Z.
  unfold Qdiv. rewrite Qmult_0_l. reflexivity.
Qed.

(** ** py_max up to equality of rationals *)

Lemma py_max_comm (a b : Q) : (py_max a b == py_max b a)%Q.
Proof.
  unfold py_max. destruct (Qltb a b) eqn:E1, (Qltb b a) eqn:E2;
    try reflexivity.
  - apply Qltb_lt in E1. apply Qltb_lt in E2. lra.
  - apply Qltb_ge in E1. apply Qltb_ge in E2. lra.
Qed.

Lemma py_max_compat (a a' b b' : Q) :
  (a == a')%Q -> (b == b')%Q -> (py_max a b == py_max a' b')%Q.
Proof.
  intros Ha Hb. unfold py_max.
  destruct (Qltb a b) eqn:E1, (Qltb a' b') eqn:E2; try assumption.
  - apply Qltb_lt in E1. apply Qltb_ge in E2. lra.
  - apply Qltb_ge in E1. apply Qltb_lt in E2. lra.
Qed.

Lemma py_max_assoc_swap (a b c : Q) :
  (py_max (py_max a b) c == py_max (py_max b a) c)%Q.
Proof. apply py_max_compat; [apply py_max_comm | reflexivity]. Qed.

Lemma py_max_bounds (a b : Q) :
  (0 <= a <= 1)%Q -> (0 <= b <= 1)%Q -> (0 <= py_max a b <= 1)%Q.
Proof. intros Ha Hb. unfold py_max. destruct (Qltb a b); assumption. Qed.

Lemma py_max_one_r (a b : Q) : (a <= 1)%Q -> (b == 1)%Q -> (py_max a b == 1)%Q.
Proof.
  intros Ha Hb. unfold py_max. destruct (Qltb a b) eqn:E; [exact Hb|].
  apply Qltb_ge in E. lra.
Qed.

(** ** Token metrics *)

Lemma token_sort_ratio_sym (s1 s2 : string) :
  _token_sort_ratio s1 s2 = _token_sort_ratio s2 s1.
Proof. unfold _token_sort_ratio. apply levenshtein_ratio_sym. Qed.

Lemma token_sort_ratio_bounds (s1 s2 : string) :
  (0 <= _token_sort_ratio s1 s2 <= 1)%Q.
Proof. unfold _token_sort_ratio. apply levenshtein_ratio_bounds. Qed.

Lemma token_sort_ratio_same (s : string) : (_token_sort_ratio s s == 1)%Q.
Proof. unfold _token_sort_ratio. apply levenshtein_ratio_same. Qed.

Lemma token_set_ratio_sym (s1 s2 : string) :
  (_token_set_ratio s1 s2 == _token_set_ratio s2 s1)%Q.
Proof.
  unfold _token_set_ratio.
  rewrite (andb_comm (negb (set_truthy (tokens s2)))).
  destruct (negb (set_truthy (tokens s1)) && negb (set_truthy (tokens s2)));
    [reflexivity|].
  rewrite (intersection_comm_L (tokens s2) (tokens s1)).
  rewrite (levenshtein_ratio_sym (join " " (sorted (elements (tokens s2))))).
  apply py_max_assoc_swap.
Qed.

Lemma token_set_ratio_bounds (s1 s2 : string) :
  (0 <= _token_set_ratio s1 s2 <= 1)%Q.
Proof.
  unfold _token_set_ratio.
  destruct (negb (set_truthy (tokens s1)) && negb (set_truthy (tokens s2)));
    [split; discriminate|].
  repeat apply py_max_bounds; apply levenshtein_ratio_bounds.
Qed.

Lemma token_set_ratio_same (s : string) : (_token_set_ratio s s == 1)%Q.
Proof.
  unfold _token_set_ratio.
  destruct (negb (set_truthy (tokens s)) && negb (set_truthy (tokens s)));
    [reflexivity|].
  apply py_max_one_r; [|apply levenshtein_ratio_same].
  apply py_max_bounds; apply levenshtein_ratio_bounds.
Qed.

(** ** n-gram Jaccard *)

Lemma jaccard_similarity_sym (s1 s2 : string) (n : nat) :
  _jaccard_similarity s1 s2 n = _jaccard_similarity s2 s1 n.
Proof.
  unfold _jaccard_similarity.
  rewrite (andb_comm (negb (set_truthy (_get_ngrams s2 n)))).
  rewrite (orb_comm (negb (set_truthy (_get_ngrams s2 n)))).
  assert (Ei : _get_ngrams s2 n ∩ _get_ngrams s1 n
               = _get_ngrams s1 n ∩ _get_ngrams s2 n) by set_solver.
  assert (Eu : _get_ngrams s2 n ∪ _get_ngrams s1 n
               = _get_ngrams s1 n ∪ _get_ngrams s2 n) by set_solver.
  rewrite Ei, Eu.
  reflexivity.
Qed.

Lemma jaccard_similarity_bounds (s1 s2 : string) (n : nat) :
  (0 <= _jaccard_similarity s1 s2 n <= 1)%Q.
Proof.
  unfold _jaccard_similarity.
  destruct (_ && _); [split; discriminate|].
  destruct (_ || _); [split; discriminate|].
  destruct (0 <? size (_get_ngrams s1 n ∪ _get_ngrams s2 n)) eqn:E;
    [|split; discriminate].
  apply Nat.ltb_lt in E. apply Qnat_ratio_bounds; [|exact E].
  apply subseteq_size. set_solver.
Qed.

Lemma jaccard_similarity_same (s : string) (n : nat) :
  (_jaccard_similarity s s n == 1)%Q.
Proof.
  unfold _jaccard_similarity.
  destruct (set_truthy (_get_ngrams s n)) eqn:E; simpl; [|reflexivity].
  assert (Ei : _get_ngrams s n ∩ _get_ngrams s n = _get_ngrams s n)
    by set_solver.
  assert (Eu : _get_ngrams s n ∪ _get_ngrams s n = _get_ngrams s n)
    by set_solver.
  rewrite Ei, Eu.
  assert (Hpos : 0 < size (_get_ngrams s n)).
  { unfold set_truthy in E. apply negb_true_iff, bool_decide_eq_false in E.
    destruct (size (_get_ngrams s n)) eqn:Es; [|lia].
    apply size_empty_inv in Es. exfalso. apply E.
    apply leibniz_equiv. exact Es. }
  apply Nat.ltb_lt in Hpos as Hb. rewrite Hb. apply Qnat_ratio_same, Hpos.
Qed.

(** ** Jaro: the greedy matching *)

Lemma find_seq_Some (f : nat -> bool) (n : nat) :
  forall a j, List.find f (seq a n) = Some j ->
    a <= j < a + n /\ f j = true /\ forall j', a <= j' < j -> f j' = false.
Proof.
  induction n as [|n IH]; intros a j H; simpl in H; [discriminate|].
  destruct (f a) eqn:E.
  - inversion H; subst. repeat split; auto; lia.
  - apply IH in H as (Hr & Hf & Hmin). repeat split; auto; try lia.
    intros j' Hj'. destruct (decide (j' = a)) as [->|Hne]; [exact E|].
    apply Hmin. lia.
Qed.

Lemma find_seq_None (f : nat -> bool) (n : nat) :
  forall a, List.find f (seq a n) = None ->
    forall j', a <= j' < a + n -> f j' = false.
Proof.
  induction n as [|n IH]; intros a H j' Hj'; [lia|]. simpl in H.
  destruct (f a) eqn:E; [discriminate|].
  destruct (decide (j' = a)) as [->|Hne]; [exact E|].
  apply (IH (S a) H). lia.
Qed.

(** Flags are read with [nth] in the model; on a list of the right length
    this is the lookup. *)
Lemma nth_flag (m : list bool) (j : nat) :
  j < List.length m ->
  (nth j m false = false <-> m !! j = Some false)
  /\ (nth j m false = true <-> m !! j = Some true).
Proof.
  intros Hj. rewrite nth_lookup.
  destruct (lookup_lt_is_Some_2 m j Hj) as [b Hb]. rewrite Hb. simpl.
  split; split; congruence.
Qed.

Lemma nth_char (s : list ascii) (j : nat) (c : ascii) :
  j < List.length s -> (Ascii.eqb c (nth j s c) = true <-> s !! j = Some c).
Proof.
  intros Hj. rewrite nth_lookup.
  destruct (lookup_lt_is_Some_2 s j Hj) as [d Hd]. rewrite Hd. simpl.
  rewrite Ascii.eqb_eq. split; congruence.
Qed.

Lemma insert_true_false (m : list bool) (j b : nat) :
  <[j:=true]> m !! b = Some false -> b <> j /\ m !! b = Some false.
Proof.
  intros H. destruct (decide (b = j)) as [->|Hne].
  - destruct (decide (j < List.length m)) as [Hlt|Hge].
    + rewrite list_lookup_insert_eq in H by exact Hlt. discriminate.
    + rewrite list_insert_ge in H by lia.
      apply lookup_lt_Some in H. lia.
  - rewrite list_lookup_insert_ne in H by congruence. auto.
Qed.

Lemma insert_true_true (m : list bool) (j b : nat) :
  <[j:=true]> m !! b = Some true -> b = j \/ m !! b = Some true.
Proof.
  intros H. destruct (decide (b = j)) as [->|Hne]; [left; reflexivity|].
  rewrite list_lookup_insert_ne in H by congruence. auto.
Qed.

Lemma insert_true_keeps_false (m : list bool) (j b : nat) :
  b <> j -> m !! b = Some false -> <[j:=true]> m !! b = Some false.
Proof. intros Hne H. rewrite list_lookup_insert_ne by congruence. exact H. Qed.

Lemma greedy_nil (s1 s2 : list ascii) (w : nat) (lo : nat) (m2 : list bool) :
  List.length s1 <= lo -> greedy s1 s2 w lo m2 [].
Proof.
  intros Hlo.
  assert (Hno : forall a b, lo <= a -> compat s1 s2 w a b -> False).
  { intros a b Ha (c & Hc & _). apply lookup_lt_Some in Hc. lia. }
  split; try (intros; exfalso; eapply not_elem_of_nil; eassumption).
  - intros a b Ha _ Hc. exfalso. eauto.
  - intros a b _ _ Hc Ha. exfalso. eauto.
Qed.

(** The step that matches position [a0] with [j]. *)
Lemma greedy_match (s1 s2 : list ascii) (w : nat) (a0 j : nat)
    (m2 : list bool) (P : list (nat * nat)) :
  compat s1 s2 w a0 j -> m2 !! j = Some false ->
  (forall j', j' < j -> compat s1 s2 w a0 j' -> m2 !! j' = Some true) ->
  greedy s1 s2 w (S a0) (<[j:=true]> m2) P ->
  greedy s1 s2 w a0 m2 ((a0, j) :: P).
Proof.
  intros Hc Hfree Hmin G.
  assert (Htail : forall a b, (a, b) ∈ P ->
            S a0 <= a /\ compat s1 s2 w a b /\ b <> j /\ m2 !! b = Some false).
  { intros a b H. destruct (g_sound G a b H) as (Ha & Hcab & Hb).
    apply insert_true_false in Hb as [Hne Hb]. auto. }
  assert (Hlater : forall b, b <> j -> compat s1 s2 w a0 b -> m2 !! b = Some false ->
            j < b).
  { intros b Hne Hcb Hb. destruct (decide (b < j)) as [Hlt|Hge]; [|lia].
    rewrite (Hmin b Hlt Hcb) in Hb. discriminate. }
  split.
  - intros a b H. apply elem_of_cons in H as [E|H].
    + inversion E; subst. auto.
    + destruct (Htail a b H) as (Ha & Hcab & _ & Hb). split; [lia|auto].
  - intros a b b' H H'.
    apply elem_of_cons in H as [E|H]; apply elem_of_cons in H' as [E'|H'].
    + congruence.
    + inversion E; subst. destruct (Htail _ _ H'). lia.
    + inversion E'; subst. destruct (Htail _ _ H). lia.
    + exact (g_fun G a b b' H H').
  - intros a a' b H H'.
    apply elem_of_cons in H as [E|H]; apply elem_of_cons in H' as [E'|H'].
    + congruence.
    + inversion E; subst. destruct (Htail _ _ H') as (_ & _ & Hne & _).
      congruence.
    + inversion E'; subst. destruct (Htail _ _ H) as (_ & _ & Hne & _).
      congruence.
    + exact (g_inj G a a' b H H').
  - intros a b b' H Hcb' Hlt. apply elem_of_cons in H as [E|H].
    + inversion E; subst. left. auto.
    + destruct (Htail _ _ H) as (Ha & _).
      destruct (g_L1 G a b b' H Hcb' Hlt) as [Ht|(a' & Ha' & Hin)].
      * apply insert_true_true in Ht as [->|Ht]; [|left; exact Ht].
        right. exists a0. split; [lia|]. apply elem_of_cons. left. reflexivity.
      * right. exists a'. split; [exact Ha'|]. apply elem_of_cons. right. exact Hin.
  - intros a b Ha Hun Hcab.
    assert (Hne : a <> a0).
    { intros ->. apply (Hun j). apply elem_of_cons. left. reflexivity. }
    assert (Hun' : forall b', (a, b') ∉ P).
    { intros b' Hin. apply (Hun b'). apply elem_of_cons. right. exact Hin. }
    destruct (g_X1 G a b ltac:(lia) Hun' Hcab) as [Ht|(a' & Ha' & Hin)].
    + apply insert_true_true in Ht as [->|Ht]; [|left; exact Ht].
      right. exists a0. split; [lia|]. apply elem_of_cons. left. reflexivity.
    + right. exists a'. split; [exact Ha'|]. apply elem_of_cons. right. exact Hin.
  - intros a b a' H Hcb Hlo Hlt. apply elem_of_cons in H as [E|H].
    + inversion E; subst. lia.
    + destruct (Htail _ _ H) as (Ha & _ & Hne & Hb).
      destruct (decide (a' = a0)) as [->|Hne'].
      * exists j. split; [apply Hlater; assumption|].
        apply elem_of_cons. left. reflexivity.
      * destruct (g_L2 G a b a' H Hcb ltac:(lia) Hlt) as (b' & Hb' & Hin).
        exists b'. split; [exact Hb'|]. apply elem_of_cons. right. exact Hin.
  - intros a b Hb Hun Hcab Hlo.
    assert (Hne : b <> j).
    { intros ->. apply (Hun a0). apply elem_of_cons. left. reflexivity. }
    destruct (decide (a = a0)) as [->|Hne'].
    + exists j. split; [apply Hlater; assumption|].
      apply elem_of_cons. left. reflexivity.
    + assert (Hun' : forall a', (a', b) ∉ P).
      { intros a' Hin. apply (Hun a'). apply elem_of_cons. right. exact Hin. }
      destruct (g_X2 G a b (insert_true_keeps_false _ _ _ Hne Hb) Hun' Hcab
                  ltac:(lia)) as (b' & Hb' & Hin).
      exists b'. split; [exact Hb'|]. apply elem_of_cons. right. exact Hin.
Qed.

(** The step that leaves position [a0] unmatched. *)
Lemma greedy_skip (s1 s2 : list ascii) (w : nat) (a0 : nat)
    (m2 : list bool) (P : list (nat * nat)) :
  (forall j, compat s1 s2 w a0 j -> m2 !! j = Some true) ->
  greedy s1 s2 w (S a0) m2 P ->
  greedy s1 s2 w a0 m2 P.
Proof.
  intros Hnone G. split.
  - intros a b H. destruct (g_sound G a b H) as (Ha & Hc & Hb).
    split; [lia|auto].
  - exact (g_fun G).
  - exact (g_inj G).
  - exact (g_L1 G).
  - intros a b Ha Hun Hcab. destruct (decide (a = a0)) as [->|Hne].
    + left. auto.
    + apply (g_X1 G); auto. lia.
  - intros a b a' H Hcb Hlo Hlt. destruct (decide (a' = a0)) as [->|Hne].
    + destruct (g_sound G a b H) as (_ & _ & Hb).
      rewrite (Hnone b Hcb) in Hb. discriminate.
    + apply (g_L2 G a b a'); auto. lia.
  - intros a b Hb Hun Hcab Hlo. destruct (decide (a = a0)) as [->|Hne].
    + rewrite (Hnone b Hcab) in Hb. discriminate.
    + apply (g_X2 G a b); auto. lia.
Qed.

(** *** The loop satisfies the guarantees *)

Lemma find_partner_Some (c : ascii) (s2 : list ascii) (m2 : list bool)
    (a e j : nat) :
  List.length m2 = List.length s2 ->
  find_partner c s2 m2 a (Nat.min e (List.length s2)) = Some j ->
  j < List.length s2 /\ a <= j < e
  /\ m2 !! j = Some false /\ s2 !! j = Some c
  /\ forall j', a <= j' < j -> s2 !! j' = Some c -> m2 !! j' = Some true.
Proof.
  intros Hlen H. unfold find_partner in H.
  apply find_seq_Some in H as (Hr & Hf & Hmin).
  assert (Hj : j < List.length s2) by lia.
  apply andb_true_iff in Hf as [Hf1 Hf2]. apply negb_true_iff in Hf1.
  split; [exact Hj|]. split; [lia|]. split; [|split].
  - apply nth_flag; [lia | exact Hf1].
  - apply nth_char; assumption.
  - intros j' Hj' Hc. specialize (Hmin j' Hj').
    apply andb_false_iff in Hmin as [Hm|Hm].
    + apply negb_false_iff in Hm. apply nth_flag; [lia | exact Hm].
    + assert (Ht : Ascii.eqb c (nth j' s2 c) = true)
        by (apply nth_char; [lia | exact Hc]).
      congruence.
Qed.

Lemma find_partner_None (c : ascii) (s2 : list ascii) (m2 : list bool)
    (a e : nat) :
  List.length m2 = List.length s2 ->
  find_partner c s2 m2 a (Nat.min e (List.length s2)) = None ->
  forall j, a <= j < e -> s2 !! j = Some c -> m2 !! j = Some true.
Proof.
  intros Hlen H j Hj Hc. unfold find_partner in H.
  pose proof (lookup_lt_Some _ _ _ Hc) as Hlt.
  pose proof (find_seq_None _ _ _ H j ltac:(lia)) as Hf.
  apply andb_false_iff in Hf as [Hm|Hm].
  - apply negb_false_iff in Hm. apply nth_flag; [lia | exact Hm].
  - assert (Ht : Ascii.eqb c (nth j s2 c) = true)
      by (apply nth_char; [lia | exact Hc]).
    congruence.
Qed.

Lemma identify_pairs_greedy (s1 s2 : list ascii) (w : nat) (rest : list ascii) :
  forall pre m2,
    s1 = pre ++ rest -> List.length m2 = List.length s2 ->
    greedy s1 s2 w (List.length pre) m2
      (identify_pairs w s2 (List.length pre) rest m2).
Proof.
  induction rest as [|c rest IH]; intros pre m2 Hs Hlen.
  - apply greedy_nil. subst s1. rewrite length_app. simpl. lia.
  - assert (Hc : s1 !! List.length pre = Some c).
    { subst s1. rewrite lookup_app_r by lia. rewrite Nat.sub_diag. reflexivity. }
    assert (Hs' : s1 = (pre ++ [c]) ++ rest)
      by (rewrite <- app_assoc; exact Hs).
    assert (Hl : List.length (pre ++ [c]) = S (List.length pre))
      by (rewrite length_app; simpl; lia).
    simpl identify_pairs.
    destruct (find_partner c s2 m2 _ _) as [j|] eqn:E.
    + apply find_partner_Some in E as (Hj & Hr & Hfree & Hcj & Hmin); [|exact Hlen].
      apply greedy_match.
      * exists c. repeat split; auto; lia.
      * exact Hfree.
      * intros j' Hlt (c' & Hc' & Hcj' & Hw1 & Hw2).
        rewrite Hc in Hc'. inversion Hc'; subst c'.
        apply Hmin; [lia | exact Hcj'].
      * rewrite <- Hl. apply IH; [exact Hs'|]. rewrite length_insert. exact Hlen.
    + apply greedy_skip.
      * intros j (c' & Hc' & Hcj & Hw1 & Hw2).
        rewrite Hc in Hc'. inversion Hc'; subst c'.
        apply (find_partner_None _ _ _ _ _ Hlen E); [lia | exact Hcj].
      * rewrite <- Hl. apply IH; assumption.
Qed.

(** *** The flags and the counter, read off the pairs *)

Lemma ntrue_cons (b : bool) (m : list bool) :
  ntrue (b :: m) = (if b then 1 else 0) + ntrue m.
Proof. destruct b; reflexivity. Qed.

Lemma ntrue_insert (m : list bool) (j : nat) :
  m !! j = Some false -> ntrue (<[j:=true]> m) = S (ntrue m).
Proof.
  revert j. induction m as [|b m IH]; intros j H; [discriminate|].
  destruct j as [|j]; simpl in H.
  - inversion H; subst. reflexivity.
  - change (<[S j:=true]> (b :: m)) with (b :: <[j:=true]> m).
    rewrite !ntrue_cons, (IH j H). lia.
Qed.

Lemma ntrue_le_length (m : list bool) : ntrue m <= List.length m.
Proof.
  induction m as [|b m IH]; [reflexivity|].
  rewrite ntrue_cons. simpl List.length. destruct b; lia.
Qed.

Lemma ntrue_repeat_false (n : nat) : ntrue (repeat false n) = 0.
Proof. induction n; [reflexivity | exact IHn]. Qed.

Lemma identify_pairs_lower (w : nat) (s2 rest : list ascii) :
  forall i m2 a b, (a, b) ∈ identify_pairs w s2 i rest m2 -> i <= a.
Proof.
  induction rest as [|c rest IH]; intros i m2 a b H; simpl in H.
  - apply elem_of_nil in H. contradiction.
  - destruct (find_partner c s2 m2 _ _) as [j|].
    + apply elem_of_cons in H as [E|H].
      * inversion E; subst. lia.
      * apply IH in H. lia.
    + apply IH in H. lia.
Qed.

Lemma identify_matches_pairs (w : nat) (s2 rest : list ascii) :
  forall i m2, List.length m2 = List.length s2 ->
    exists m1 m2f,
      identify_matches w s2 i rest m2
      = (m1, m2f, List.length (identify_pairs w s2 i rest m2))
      /\ List.length m1 = List.length rest
      /\ List.length m2f = List.length m2
      /\ (forall k, m1 !! k = Some true
            <-> exists b, (i + k, b) ∈ identify_pairs w s2 i rest m2)
      /\ (forall b, m2f !! b = Some true
            <-> m2 !! b = Some true
                \/ exists a, (a, b) ∈ identify_pairs w s2 i rest m2)
      /\ ntrue m1 = List.length (identify_pairs w s2 i rest m2)
      /\ ntrue m2f = ntrue m2 + List.length (identify_pairs w s2 i rest m2).
Proof.
  induction rest as [|c rest IH]; intros i m2 Hlen.
  - exists [], m2. simpl. repeat split; auto.
    + intros H. discriminate.
    + intros (b & H). apply elem_of_nil in H. contradiction.
    + intros [H|(a & H)]; [exact H|]. apply elem_of_nil in H. contradiction.
  - simpl identify_matches. simpl identify_pairs.
    destruct (find_partner c s2 m2 _ _) as [j|] eqn:E.
    + apply find_partner_Some in E as (Hj & Hr & Hfree & Hcj & Hmin); [|exact Hlen].
      destruct (IH (S i) (<[j:=true]> m2)) as
        (m1 & m2f & -> & Hl1 & Hl2 & Hm1 & Hm2 & Hn1 & Hn2).
      { rewrite length_insert. exact Hlen. }
      exists (true :: m1), m2f.
      rewrite length_insert in Hl2. rewrite (ntrue_insert _ _ Hfree) in Hn2.
      simpl List.length. rewrite ntrue_cons.
      split; [reflexivity|]. split; [lia|]. split; [exact Hl2|].
      split; [|split; [|split; lia]].
      * intros [|k]; simpl.
        -- split; [|reflexivity]. intros _. exists j. rewrite Nat.add_0_r.
           apply elem_of_cons. left. reflexivity.
        -- rewrite Hm1. replace (S i + k) with (i + S k) by lia.
           split; intros (b & H); exists b.
           ++ apply elem_of_cons. right. exact H.
           ++ apply elem_of_cons in H as [Eq|H]; [|exact H].
              inversion Eq. lia.
      * intros b. rewrite Hm2. split.
        -- intros [H|(a & H)].
           ++ apply insert_true_true in H as [->|H]; [|left; exact H].
              right. exists i. apply elem_of_cons. left. reflexivity.
           ++ right. exists a. apply elem_of_cons. right. exact H.
        -- intros [H|(a & H)].
           ++ left. destruct (decide (b = j)) as [->|Hne].
              ** rewrite Hfree in H. discriminate.
              ** rewrite list_lookup_insert_ne by congruence. exact H.
           ++ apply elem_of_cons in H as [Eq|H].
              ** inversion Eq; subst. left.
                 apply list_lookup_insert_eq. lia.
              ** right. exists a. exact H.
    + destruct (IH (S i) m2 Hlen) as
        (m1 & m2f & -> & Hl1 & Hl2 & Hm1 & Hm2 & Hn1 & Hn2).
      exists (false :: m1), m2f. simpl List.length. rewrite ntrue_cons.
      split; [reflexivity|]. split; [lia|]. split; [exact Hl2|].
      split; [|split; [exact Hm2|split; [exact Hn1 | exact Hn2]]].
      intros [|k]; simpl.
      * split; [discriminate|]. intros (b & H). rewrite Nat.add_0_r in H.
        apply identify_pairs_lower in H. lia.
      * rewrite Hm1. replace (S i + k) with (i + S k) by lia. reflexivity.
Qed.

(** *** The matching does not depend on the direction *)

Lemma repeat_false_not_true (n b : nat) : repeat false n !! b <> Some true.
Proof.
  intros H. apply list_elem_of_lookup_2 in H.
  apply list_elem_of_In, repeat_spec in H. discriminate.
Qed.

Lemma repeat_false_lookup (n b : nat) : b < n -> repeat false n !! b = Some false.
Proof.
  intros H. destruct (lookup_lt_is_Some_2 (repeat false n) b) as [x Hx].
  { rewrite repeat_length. exact H. }
  rewrite Hx. f_equal.
  apply list_elem_of_lookup_2, list_elem_of_In, repeat_spec in Hx. exact Hx.
Qed.

Lemma compat_swap (s1 s2 : list ascii) (w a b : nat) :
  compat s1 s2 w a b -> compat s2 s1 w b a.
Proof. intros (c & H1 & H2 & H3 & H4). exists c. auto. Qed.

Lemma greedy_canonical (s1 s2 : list ascii) (w : nat) (P : list (nat * nat)) :
  greedy s1 s2 w 0 (repeat false (List.length s2)) P -> canonical s1 s2 w P.
Proof.
  intros G. split.
  - intros a b H. apply (g_sound G a b H).
  - exact (g_inj G).
  - intros a b b' H Hc Hlt.
    destruct (g_L1 G a b b' H Hc Hlt) as [Ht|Hex]; [|exact Hex].
    exfalso. exact (repeat_false_not_true _ _ Ht).
  - intros a b Hun Hc.
    destruct (g_X1 G a b ltac:(lia) Hun Hc) as [Ht|Hex]; [|exact Hex].
    exfalso. exact (repeat_false_not_true _ _ Ht).
Qed.

Lemma elem_of_swap (R : list (nat * nat)) (a b : nat) :
  (a, b) ∈ map swap_pair R <-> (b, a) ∈ R.
Proof.
  rewrite list_elem_of_fmap. split.
  - intros ([x y] & E & H). inversion E; subst. exact H.
  - intros H. exists (b, a). split; [reflexivity | exact H].
Qed.

(** The run in the other direction, read with its pairs turned round, has
    the same guarantees. *)
Lemma greedy_swap_canonical (s1 s2 : list ascii) (w : nat)
    (R : list (nat * nat)) :
  greedy s2 s1 w 0 (repeat false (List.length s1)) R ->
  canonical s1 s2 w (map swap_pair R).
Proof.
  intros G. split.
  - intros a b H. apply (proj1 (elem_of_swap _ _ _)) in H.
    apply compat_swap. apply (g_sound G b a H).
  - intros a a' b H H'. apply (proj1 (elem_of_swap _ _ _)) in H.
    apply (proj1 (elem_of_swap _ _ _)) in H'.
    exact (g_fun G b a a' H H').
  - intros a b b' H Hc Hlt. apply (proj1 (elem_of_swap _ _ _)) in H.
    destruct (g_L2 G b a b' H (compat_swap _ _ _ _ _ Hc)
                ltac:(lia) Hlt) as (a' & Ha' & Hin).
    exists a'. split; [exact Ha'|]. apply (proj2 (elem_of_swap _ _ _)). exact Hin.
  - intros a b Hun Hc.
    assert (Ha : a < List.length s1).
    { destruct Hc as (c & H1 & _). exact (lookup_lt_Some _ _ _ H1). }
    destruct (g_X2 G b a (repeat_false_lookup _ _ Ha)) as (a' & Ha' & Hin).
    + intros b' Hin. apply (Hun b'). apply (proj2 (elem_of_swap _ _ _)). exact Hin.
    + apply compat_swap. exact Hc.
    + lia.
    + exists a'. split; [exact Ha'|]. apply (proj2 (elem_of_swap _ _ _)). exact Hin.
Qed.

Lemma mate_dec (Q : list (nat * nat)) (a : nat) :
  (exists b, (a, b) ∈ Q) \/ (forall b, (a, b) ∉ Q).
Proof.
  induction Q as [|[x y] Q IH].
  - right. intros b H. apply elem_of_nil in H. contradiction.
  - destruct (decide (x = a)) as [->|Hne].
    + left. exists y. apply elem_of_cons. left. reflexivity.
    + destruct IH as [(b & H)|H].
      * left. exists b. apply elem_of_cons. right. exact H.
      * right. intros b Hin. apply elem_of_cons in Hin as [E|Hin].
        -- inversion E. congruence.
        -- exact (H b Hin).
Qed.

Lemma canonical_step (s1 s2 : list ascii) (w : nat) (P Q : list (nat * nat)) :
  canonical s1 s2 w P -> canonical s1 s2 w Q ->
  forall a,
    (forall a', a' < a -> forall b, (a', b) ∈ P <-> (a', b) ∈ Q) ->
    forall b, (a, b) ∈ P -> (a, b) ∈ Q.
Proof.
  intros CP CQ a IH b H.
  pose proof (c_sound CP a b H) as Hc.
  destruct (mate_dec Q a) as [(b' & H')|Hun].
  - destruct (lt_eq_lt_dec b' b) as [[Hlt | ->] | Hlt]; [| exact H' |].
    + exfalso.
      destruct (c_L1 CP a b b' H (c_sound CQ a b' H') Hlt)
        as (a' & Ha' & Hin).
      apply (IH a' Ha') in Hin.
      pose proof (c_inj CQ a a' b' H' Hin). lia.
    + exfalso.
      destruct (c_L1 CQ a b' b H' Hc Hlt) as (a' & Ha' & Hin).
      apply (IH a' Ha') in Hin.
      pose proof (c_inj CP a a' b H Hin). lia.
  - exfalso. destruct (c_X1 CQ a b Hun Hc) as (a' & Ha' & Hin).
    apply (IH a' Ha') in Hin.
    pose proof (c_inj CP a a' b H Hin). lia.
Qed.

Lemma canonical_unique (s1 s2 : list ascii) (w : nat) (P Q : list (nat * nat)) :
  canonical s1 s2 w P -> canonical s1 s2 w Q ->
  forall a b, (a, b) ∈ P <-> (a, b) ∈ Q.
Proof.
  intros CP CQ a. induction a as [a IH] using lt_wf_ind.
  intros b. split.
  - apply (canonical_step s1 s2 w P Q CP CQ a IH).
  - apply (canonical_step s1 s2 w Q P CQ CP a).
    intros a' Ha' b'. symmetry. apply IH. exact Ha'.
Qed.

(** The two directions form the same pairs. *)
Lemma identify_pairs_sym (s1 s2 : list ascii) (w : nat) :
  forall a b,
    (a, b) ∈ identify_pairs w s2 0 s1 (repeat false (List.length s2))
    <-> (b, a) ∈ identify_pairs w s1 0 s2 (repeat false (List.length s1)).
Proof.
  intros a b.
  rewrite <- (elem_of_swap
                (identify_pairs w s1 0 s2 (repeat false (List.length s1))) a b).
  apply (canonical_unique s1 s2 w).
  - apply greedy_canonical.
    apply (identify_pairs_greedy s1 s2 w s1 []); [reflexivity|].
    apply repeat_length.
  - apply greedy_swap_canonical.
    apply (identify_pairs_greedy s2 s1 w s2 []); [reflexivity|].
    apply repeat_length.
Qed.

Lemma flags_eq (l l' : list bool) :
  List.length l = List.length l' ->
  (forall k, l !! k = Some true <-> l' !! k = Some true) ->
  l = l'.
Proof.
  intros Hlen H. apply list_eq. intros k.
  destruct (l !! k) as [x|] eqn:E, (l' !! k) as [y|] eqn:E'.
  - specialize (H k). rewrite E, E' in H.
    destruct x, y; try reflexivity.
    + destruct H as [H _]. specialize (H eq_refl). discriminate.
    + destruct H as [_ H]. specialize (H eq_refl). discriminate.
  - apply lookup_lt_Some in E. apply lookup_ge_None in E'. lia.
  - apply lookup_ge_None in E. apply lookup_lt_Some in E'. lia.
  - reflexivity.
Qed.

(** The flags and the number of matches of the two directions. *)
Lemma identify_matches_sym (s1 s2 : list ascii) (w : nat) :
  exists m1 m2 n,
    identify_matches w s2 0 s1 (repeat false (List.length s2)) = (m1, m2, n)
    /\ identify_matches w s1 0 s2 (repeat false (List.length s1)) = (m2, m1, n)
    /\ List.length m1 = List.length s1
    /\ List.length m2 = List.length s2
    /\ ntrue m1 = n /\ ntrue m2 = n.
Proof.
  destruct (identify_matches_pairs w s2 s1 0 (repeat false (List.length s2)))
    as (m1 & m2 & E & Hl1 & Hl2 & Hm1 & Hm2 & Hn1 & Hn2);
    [apply repeat_length|].
  destruct (identify_matches_pairs w s1 s2 0 (repeat false (List.length s1)))
    as (m1' & m2' & E' & Hl1' & Hl2' & Hm1' & Hm2' & Hn1' & Hn2');
    [apply repeat_length|].
  rewrite repeat_length in Hl2, Hl2'.
  rewrite ntrue_repeat_false in Hn2, Hn2'. simpl in Hn2, Hn2'.
  assert (E1 : m1 = m2').
  { apply flags_eq; [lia|]. intros k. rewrite Hm1, Hm2'. simpl. split.
    - intros (b & H). right. exists b.
      apply (proj1 (identify_pairs_sym s1 s2 w _ _)). exact H.
    - intros [H|(b & H)]; [exfalso; exact (repeat_false_not_true _ _ H)|].
      exists b. apply (proj2 (identify_pairs_sym s1 s2 w _ _)). exact H. }
  assert (E2 : m2 = m1').
  { apply flags_eq; [lia|]. intros k. rewrite Hm2, Hm1'. simpl. split.
    - intros [H|(a & H)]; [exfalso; exact (repeat_false_not_true _ _ H)|].
      exists a. apply (proj1 (identify_pairs_sym s1 s2 w _ _)). exact H.
    - intros (a & H). right. exists a.
      apply (proj2 (identify_pairs_sym s1 s2 w _ _)). exact H. }
  subst m2' m1'.
  exists m1, m2, (List.length (identify_pairs w s2 0 s1 (repeat false (List.length s2)))).
  split; [exact E|]. split.
  - rewrite E'. f_equal. lia.
  - repeat split; auto.
Qed.

(** *** Transpositions *)

Lemma mism_sym (l1 : list ascii) : forall l2, mism l1 l2 = mism l2 l1.
Proof.
  induction l1 as [|x l1 IH]; intros [|y l2]; simpl; auto.
  rewrite IH, cost_sym. reflexivity.
Qed.

Lemma mism_le (l1 : list ascii) : forall l2, mism l1 l2 <= List.length l1.
Proof.
  induction l1 as [|x l1 IH]; intros [|y l2]; simpl; try lia.
  specialize (IH l2). pose proof (cost_le_1 x y). lia.
Qed.

Lemma sel_length (s : list ascii) : forall m, List.length (sel s m) <= ntrue m.
Proof.
  induction s as [|c s IH]; intros [|b m]; simpl; try lia.
  rewrite ntrue_cons. specialize (IH m). destruct b; simpl; lia.
Qed.

(** The [while] loop stops at the next flag, if one is left. *)
Lemma next_matched_spec (s2 : list ascii) (m2 : list bool) (n : nat) :
  forall k, n = List.length m2 - k ->
    List.length m2 = List.length s2 ->
    1 <= ntrue (drop k m2) ->
    exists k',
      next_matched m2 k = Some k'
      /\ (forall d, sel (drop k s2) (drop k m2)
                    = nth k' s2 d :: sel (drop (S k') s2) (drop (S k') m2))
      /\ ntrue (drop k m2) = S (ntrue (drop (S k') m2)).
Proof.
  unfold next_matched.
  induction n as [|n IH]; intros k Hn Hlen Hpos.
  - rewrite drop_ge in Hpos by lia. unfold ntrue in Hpos. simpl in Hpos. lia.
  - assert (Hk : k < List.length m2) by lia.
    destruct (lookup_lt_is_Some_2 m2 k Hk) as [b Hb].
    destruct (lookup_lt_is_Some_2 s2 k ltac:(lia)) as [c Hc].
    rewrite (drop_S _ _ _ Hb) in *. rewrite (drop_S _ _ _ Hc).
    rewrite <- Hn. simpl seq. simpl List.find.
    rewrite (nth_lookup m2 k), Hb. simpl.
    destruct b.
    + exists k. split; [reflexivity|]. split.
      * intros d. rewrite (nth_lookup s2 k), Hc. reflexivity.
      * rewrite ntrue_cons. reflexivity.
    + rewrite ntrue_cons in Hpos. simpl in Hpos.
      destruct (IH (S k) ltac:(lia) Hlen Hpos) as (k' & Hf & Hsel & Hnt).
      replace (List.length m2 - S k) with n in Hf by lia.
      exists k'. split; [exact Hf|]. split; [exact Hsel|].
      rewrite ntrue_cons. exact Hnt.
Qed.

(** The loop counts the places at which the matched characters of the two
    strings, taken in order, differ; it never runs off the flags. *)
Lemma count_transpositions_spec (s2 : list ascii) (m2 : list bool)
    (s1 : list ascii) :
  forall m1 k,
    List.length m1 = List.length s1 ->
    List.length m2 = List.length s2 ->
    ntrue m1 <= ntrue (drop k m2) ->
    count_transpositions (combine s1 m1) s2 m2 k
    = Some (mism (sel s1 m1) (sel (drop k s2) (drop k m2))).
Proof.
  induction s1 as [|c s1 IH]; intros [|b m1] k Hl1 Hl2 Hn; try discriminate.
  - reflexivity.
  - simpl in Hl1. rewrite ntrue_cons in Hn. simpl combine.
    destruct b; simpl count_transpositions; simpl sel.
    + destruct (next_matched_spec s2 m2 _ k eq_refl Hl2 ltac:(simpl in Hn; lia))
        as (k' & -> & Hsel & Hnt).
      rewrite (IH m1 (S k')) by (simpl in Hn; lia).
      rewrite (Hsel c). reflexivity.
    + apply IH; [lia | exact Hl2 | exact Hn].
Qed.

(** *** The value of [_jaro_similarity] *)

Lemma match_window_sym (len1 len2 : nat) :
  match_window len1 len2 = match_window len2 len1.
Proof. unfold match_window. rewrite Nat.max_comm. reflexivity. Qed.

(** Both directions of a run on two different non-empty strings: the same
    number of matches and the same number of transpositions. *)
Lemma jaro_run_both (s1 s2 : string) :
  s1 <> "" -> s2 <> "" -> s1 <> s2 ->
  exists n t,
    n <= String.length s1 /\ n <= String.length s2 /\ t <= n
    /\ jaro_run s1 s2
       = Some (if n =? 0 then 0%Q
               else jaro_value n t (String.length s1) (String.length s2))
    /\ jaro_run s2 s1
       = Some (if n =? 0 then 0%Q
               else jaro_value n t (String.length s2) (String.length s1)).
Proof.
  intros H1 H2 Hne.
  destruct (identify_matches_sym (chars s1) (chars s2)
              (match_window (String.length s1) (String.length s2)))
    as (m1 & m2 & n & E & E' & Hl1 & Hl2 & Hn1 & Hn2).
  rewrite !length_chars in E, E'.
  exists n, (mism (sel (chars s1) m1) (sel (chars s2) m2)).
  assert (Hb1 : n <= String.length s1).
  { rewrite <- Hn1, <- length_chars, <- Hl1. apply ntrue_le_length. }
  assert (Hb2 : n <= String.length s2).
  { rewrite <- Hn2, <- length_chars, <- Hl2. apply ntrue_le_length. }
  assert (Ht : mism (sel (chars s1) m1) (sel (chars s2) m2) <= n).
  { rewrite <- Hn1. etransitivity; [apply mism_le | apply sel_length]. }
  split; [exact Hb1|]. split; [exact Hb2|]. split; [exact Ht|].
  apply truthy_true in H1 as T1. apply truthy_true in H2 as T2.
  split.
  - unfold jaro_run. rewrite T1, T2. simpl.
    replace (String.eqb s1 s2) with false
      by (symmetry; apply String.eqb_neq; exact Hne).
    rewrite E. destruct (n =? 0); [reflexivity|].
    rewrite (count_transpositions_spec (chars s2) m2 (chars s1) m1 0 Hl1 Hl2)
      by (rewrite drop_0; lia).
    rewrite !drop_0. reflexivity.
  - unfold jaro_run. rewrite T1, T2. simpl.
    replace (String.eqb s2 s1) with false
      by (symmetry; apply String.eqb_neq; congruence).
    rewrite (match_window_sym (String.length s2)), E'.
    destruct (n =? 0); [reflexivity|].
    rewrite (count_transpositions_spec (chars s1) m1 (chars s2) m2 0 Hl2 Hl1)
      by (rewrite drop_0; lia).
    rewrite !drop_0, (mism_sym (sel (chars s2) m2)). reflexivity.
Qed.

Lemma jaro_value_sym (n t len1 len2 : nat) :
  (jaro_value n t len1 len2 == jaro_value n t len2 len1)%Q.
Proof.
  unfold jaro_value.
  rewrite (Qplus_comm (Qnat n / Qnat len1) (Qnat n / Qnat len2)).
  reflexivity.
Qed.

Lemma jaro_value_bounds (n t len1 len2 : nat) :
  0 < n -> n <= len1 -> n <= len2 -> t <= n ->
  (0 <= jaro_value n t len1 len2 <= 1)%Q.
Proof.
  intros Hn H1 H2 Ht. unfold jaro_value.
  destruct (Qnat_ratio_bounds n len1 H1 ltac:(lia)) as [Ha0 Ha1].
  destruct (Qnat_ratio_bounds n len2 H2 ltac:(lia)) as [Hb0 Hb1].
  pose proof (Qnat_pos n Hn) as Hpos.
  pose proof (Qnat_nonneg t) as Ht0.
  pose proof (Qnat_le t n Ht) as Htn.
  assert (Hc : (0 <= (Qnat n - Qnat t / 2) / Qnat n <= 1)%Q).
  { revert Hpos Ht0 Htn. generalize (Qnat n) (Qnat t). intros x y Hx Hy Hyx.
    split.
    - apply Qle_shift_div_l; [exact Hx|].
      unfold Qdiv. change (/ 2)%Q with (1 # 2)%Q. lra.
    - apply Qle_shift_div_r; [exact Hx|].
      unfold Qdiv. change (/ 2)%Q with (1 # 2)%Q. lra. }
  destruct Hc as [Hc0 Hc1].
  set (a := (Qnat n / Qnat len1)%Q) in *.
  set (b := (Qnat n / Qnat len2)%Q) in *.
  set (c := ((Qnat n - Qnat t / 2) / Qnat n)%Q) in *.
  unfold Qdiv at 1 2. change (/ 3)%Q with (1 # 3)%Q.
  split; lra.
Qed.

Lemma jaro_similarity_empty_l (s : string) : _jaro_similarity "" s = 0%Q.
Proof. reflexivity. Qed.

Lemma jaro_similarity_empty_r (s : string) : _jaro_similarity s "" = 0%Q.
Proof. unfold _jaro_similarity, jaro_run. destruct s; reflexivity. Qed.

Lemma jaro_similarity_same (s : string) : s <> "" -> _jaro_similarity s s = 1%Q.
Proof.
  intros H. apply truthy_true in H. unfold _jaro_similarity, jaro_run.
  rewrite H, String.eqb_refl. reflexivity.
Qed.

(** The transposition loop never raises. *)
Lemma jaro_never_raises (s1 s2 : string) : jaro_run s1 s2 <> None.
Proof.
  destruct (string_dec s1 "") as [->|H1]; [discriminate|].
  destruct (string_dec s2 "") as [->|H2].
  { unfold jaro_run. destruct s1; discriminate. }
  destruct (string_dec s1 s2) as [->|Hne].
  { unfold jaro_run. apply truthy_true in H2. rewrite H2, String.eqb_refl.
    discriminate. }
  destruct (jaro_run_both s1 s2 H1 H2 Hne) as (n & t & _ & _ & _ & -> & _).
  discriminate.
Qed.

Lemma jaro_similarity_sym (s1 s2 : string) :
  (_jaro_similarity s1 s2 == _jaro_similarity s2 s1)%Q.
Proof.
  destruct (string_dec s1 "") as [->|H1].
  { rewrite jaro_similarity_empty_l, jaro_similarity_empty_r. reflexivity. }
  destruct (string_dec s2 "") as [->|H2].
  { rewrite jaro_similarity_empty_l, jaro_similarity_empty_r. reflexivity. }
  destruct (string_dec s1 s2) as [->|Hne]; [reflexivity|].
  destruct (jaro_run_both s1 s2 H1 H2 Hne) as (n & t & _ & _ & _ & E & E').
  unfold _jaro_similarity. rewrite E, E'.
  destruct (n =? 0); [reflexivity | apply jaro_value_sym].
Qed.

Lemma jaro_similarity_bounds (s1 s2 : string) :
  (0 <= _jaro_similarity s1 s2 <= 1)%Q.
Proof.
  destruct (string_dec s1 "") as [->|H1].
  { rewrite jaro_similarity_empty_l. split; discriminate. }
  destruct (string_dec s2 "") as [->|H2].
  { rewrite jaro_similarity_empty_r. split; discriminate. }
  destruct (string_dec s1 s2) as [->|Hne].
  { rewrite (jaro_similarity_same _ H2). split; discriminate. }
  destruct (jaro_run_both s1 s2 H1 H2 Hne) as (n & t & Hn1 & Hn2 & Ht & E & _).
  unfold _jaro_similarity. rewrite E.
  destruct (n =? 0) eqn:En; [split; discriminate|].
  apply Nat.eqb_neq in En. apply jaro_value_bounds; lia.
Qed.

(** ** The five metrics together *)

(** C9.  Each of the five metrics (edit-distance ratio, Jaro, bigram
    Jaccard, token-sort ratio, token-set ratio) gives the same value when
    its arguments are exchanged, gives a value between 0 and 1 on all
    strings, and gives 1 when both arguments are the same non-empty
    string.  Equality is equality of rational numbers. *)
Theorem metrics_symmetric_bounded_one_on_equal (a b : string) :
  ((_levenshtein_ratio a b == _levenshtein_ratio b a)%Q
   /\ (_jaro_similarity a b == _jaro_similarity b a)%Q
   /\ (_jaccard_similarity a b 2 == _jaccard_similarity b a 2)%Q
   /\ (_token_sort_ratio a b == _token_sort_ratio b a)%Q
   /\ (_token_set_ratio a b == _token_set_ratio b a)%Q)
  /\ ((0 <= _levenshtein_ratio a b <= 1)%Q
      /\ (0 <= _jaro_similarity a b <= 1)%Q
      /\ (0 <= _jaccard_similarity a b 2 <= 1)%Q
      /\ (0 <= _token_sort_ratio a b <= 1)%Q
      /\ (0 <= _token_set_ratio a b <= 1)%Q)
  /\ (a <> "" ->
      (_levenshtein_ratio a a == 1)%Q
      /\ (_jaro_similarity a a == 1)%Q
      /\ (_jaccard_similarity a a 2 == 1)%Q
      /\ (_token_sort_ratio a a == 1)%Q
      /\ (_token_set_ratio a a == 1)%Q).
Proof.
  split; [|split].
  - split; [rewrite levenshtein_ratio_sym; reflexivity|].
    split; [apply jaro_similarity_sym|].
    split; [rewrite jaccard_similarity_sym; reflexivity|].
    split; [rewrite token_sort_ratio_sym; reflexivity|].
    apply token_set_ratio_sym.
  - split; [apply levenshtein_ratio_bounds|].
    split; [apply jaro_similarity_bounds|].
    split; [apply jaccard_similarity_bounds|].
    split; [apply token_sort_ratio_bounds|].
    apply token_set_ratio_bounds.
  - intros Ha.
    split; [apply levenshtein_ratio_same|].
    split; [rewrite (jaro_similarity_same a Ha); reflexivity|].
    split; [apply jaccard_similarity_same|].
    split; [apply token_sort_ratio_same|].
    apply token_set_ratio_same.
Qed.

(** * The normalizer: what it ignores and what it returns *)

(** ** [strip] *)

Lemma lstrip_head (s : string) :
  lstrip s = "" \/ exists c r, lstrip s = String c r /\ isspace c = false.
Proof.
  induction s as [|c s IH]; simpl; [left; reflexivity|].
  destruct (isspace c) eqn:E; [exact IH|].
  right. exists c, s. split; [reflexivity | exact E].
Qed.

Lemma rstrip_idem (s : string) : rstrip (rstrip s) = rstrip s.
Proof.
  induction s as [|c s IH]; simpl; [reflexivity|].
  destruct (rstrip s) as [|d r'] eqn:E.
  - destruct (isspace c) eqn:Ec; simpl; [reflexivity|]. rewrite Ec. reflexivity.
  - simpl. simpl in IH. rewrite IH. reflexivity.
Qed.

Lemma rstrip_head (c : ascii) (r : string) :
  isspace c = false -> exists r', rstrip (String c r) = String c r'.
Proof.
  intros E. simpl. destruct (rstrip r) as [|d r'].
  - rewrite E. eexists; reflexivity.
  - eexists; reflexivity.
Qed.

Lemma lstrip_fixed (c : ascii) (r : string) :
  isspace c = false -> lstrip (String c r) = String c r.
Proof. intros E. simpl. rewrite E. reflexivity. Qed.

Lemma strip_idem (s : string) : strip (strip s) = strip s.
Proof.
  unfold strip.
  destruct (lstrip_head s) as [E | (c & r & E & Hc)]; rewrite E.
  - reflexivity.
  - destruct (rstrip_head c r Hc) as [r' E'].
    rewrite E', (lstrip_fixed c r' Hc), <- E'. apply rstrip_idem.
Qed.

Lemma isspace_lower_char (c : ascii) : isspace (lower_char c) = isspace c.
Proof. destruct c as [[] [] [] [] [] [] [] []]; reflexivity. Qed.

Lemma lstrip_lower (s : string) : lstrip (lower s) = lower (lstrip s).
Proof.
  induction s as [|c s IH]; simpl; [reflexivity|].
  rewrite isspace_lower_char. destruct (isspace c); [exact IH | reflexivity].
Qed.

Lemma rstrip_lower (s : string) : rstrip (lower s) = lower (rstrip s).
Proof.
  induction s as [|c s IH]; simpl; [reflexivity|].
  rewrite IH, isspace_lower_char.
  destruct (rstrip s); simpl; [destruct (isspace c)|]; reflexivity.
Qed.

Lemma strip_lower (s : string) : strip (lower s) = lower (strip s).
Proof. unfold strip. rewrite lstrip_lower. apply rstrip_lower. Qed.

(** The normalizer only reads the lowercased, trimmed text. *)
Lemma normalize_text_steps (t : string) :
  _normalize_text t
  = strip (sub_spaces (sub_special (remove_patterns (expand_abbrev
      (strip (lower t)))))).
Proof.
  unfold _normalize_text. destruct t; reflexivity.
Qed.

(** X1.  [_normalize_text] reads its argument only through
    [text.lower().strip()]: lowercasing the argument first, or trimming it
    first, gives the same normal form. *)
Theorem normalize_text_ignores_case_and_margins (t : string) :
  _normalize_text (lower t) = _normalize_text t
  /\ _normalize_text (strip t) = _normalize_text t.
Proof.
  rewrite !normalize_text_steps. split.
  - rewrite lower_idem. reflexivity.
  - rewrite <- strip_lower, strip_idem. reflexivity.
Qed.

(** ** Where the characters of each step come from *)

Lemma lstrip_suffix (s : string) : exists p, chars s = p ++ chars (lstrip s).
Proof.
  induction s as [|c s [p IH]]; simpl; [exists []; reflexivity|].
  destruct (isspace c).
  - exists (c :: p). unfold chars in *. simpl. rewrite IH. reflexivity.
  - exists []. reflexivity.
Qed.

Lemma rstrip_prefix (s : string) : exists q, chars s = chars (rstrip s) ++ q.
Proof.
  induction s as [|c s [q IH]]; simpl; [exists []; reflexivity|].
  unfold chars in *. simpl. destruct (rstrip s) as [|d r'].
  - destruct (isspace c).
    + exists (c :: list_ascii_of_string s). reflexivity.
    + exists (list_ascii_of_string s). reflexivity.
  - exists q. simpl. rewrite IH. reflexivity.
Qed.

Lemma strip_infix (s : string) : exists p q, chars s = p ++ chars (strip s) ++ q.
Proof.
  unfold strip. destruct (lstrip_suffix s) as [p Hp].
  destruct (rstrip_prefix (lstrip s)) as [q Hq].
  exists p, q. rewrite Hp, Hq at 1. reflexivity.
Qed.

Lemma strip_chars (s : string) (c : ascii) : c ∈ chars (strip s) -> c ∈ chars s.
Proof.
  intros H. destruct (strip_infix s) as (p & q & E). rewrite E.
  rewrite !elem_of_app. auto.
Qed.

Lemma sub_special_chars (s : string) (c : ascii) :
  c ∈ chars (sub_special s) -> isword c = true \/ isspace c = true.
Proof.
  unfold chars. induction s as [|x s IH]; simpl; intros H.
  - apply elem_of_nil in H. destruct H.
  - apply elem_of_cons in H. destruct H as [->|H]; [|exact (IH H)].
    destruct (isword x) eqn:Ew; simpl; [left; exact Ew|].
    destruct (isspace x) eqn:Es; [right; exact Es | right; reflexivity].
Qed.

Lemma sub_spaces_go_chars (s : string) :
  forall b c, c ∈ chars (sub_spaces_go b s) ->
    c = " "%char \/ (c ∈ chars s /\ isspace c = false).
Proof.
  unfold chars. induction s as [|x s IH]; simpl; intros b c H.
  - apply elem_of_nil in H. destruct H.
  - assert (Hr : forall b', c ∈ list_ascii_of_string (sub_spaces_go b' s) ->
                 c = " "%char \/ (c ∈ x :: list_ascii_of_string s /\ isspace c = false)).
    { intros b' H'. destruct (IH b' c H') as [->|[H1 H2]]; [left; reflexivity|].
      right. split; [apply elem_of_cons; right; exact H1 | exact H2]. }
    destruct (isspace x) eqn:Ex.
    + destruct b; [exact (Hr _ H)|].
      simpl in H. apply elem_of_cons in H. destruct H as [->|H]; [left; reflexivity|].
      exact (Hr _ H).
    + simpl in H. apply elem_of_cons in H. destruct H as [->|H].
      * right. split; [apply elem_of_cons; left; reflexivity | exact Ex].
      * exact (Hr _ H).
Qed.

(** ** No run of blanks survives [\s+] *)

Lemma sub_spaces_go_no_run (s : string) :
  forall b,
    (b = true -> forall c r, chars (sub_spaces_go b s) = c :: r -> isspace c = false)
    /\ (forall l c d r, chars (sub_spaces_go b s) = l ++ c :: d :: r ->
          isspace c = true -> isspace d = false).
Proof.
  unfold chars. induction s as [|x s IH]; intros b; simpl.
  - split; [intros _ c r H; discriminate H|].
    intros l c d r H. destruct l; discriminate H.
  - destruct (isspace x) eqn:Ex.
    + destruct b.
      * apply IH.
      * split; [intros Hb; discriminate Hb|].
        intros l c d r H Hc. simpl in H. destruct l as [|y l]; simpl in H.
        -- injection H as <- H. exact (proj1 (IH true) eq_refl d r H).
        -- injection H as _ H. exact (proj2 (IH true) l c d r H Hc).
    + split.
      * intros _ c r H. simpl in H. injection H as <- _. exact Ex.
      * intros l c d r H Hc. simpl in H. destruct l as [|y l]; simpl in H.
        -- injection H as <- _. congruence.
        -- injection H as _ H. exact (proj2 (IH false) l c d r H Hc).
Qed.

Lemma strip_head (s : string) (c : ascii) (r : list ascii) :
  chars (strip s) = c :: r -> isspace c = false.
Proof.
  unfold strip. intros H.
  destruct (lstrip_head s) as [E | (c' & r' & E & Hc)]; rewrite E in H.
  - discriminate H.
  - destruct (rstrip_head c' r' Hc) as [r'' E']. rewrite E' in H.
    unfold chars in H. simpl in H. injection H as <- _. exact Hc.
Qed.

Lemma rstrip_last (s : string) :
  forall l c, chars (rstrip s) = l ++ [c] -> isspace c = false.
Proof.
  unfold chars. induction s as [|x s IH]; simpl; intros l c H.
  - destruct l; discriminate H.
  - destruct (rstrip s) as [|d r'] eqn:E.
    + destruct (isspace x) eqn:Ex; simpl in H.
      * destruct l; discriminate H.
      * destruct l as [|y l]; simpl in H.
        -- injection H as <-. exact Ex.
        -- injection H as _ H. destruct l; discriminate H.
    + simpl in H. destruct l as [|y l]; simpl in H.
      * injection H as _ H. discriminate H.
      * injection H as _ H. exact (IH l c H).
Qed.

(** X2.  Every normal form is made of word characters and single blanks:
    each character is in [\w] or is the space character, the first and the
    last character are not whitespace, and no whitespace character follows
    another. *)
Theorem normalize_text_shape (t : string) :
  (forall c, c ∈ chars (_normalize_text t) ->
     isword c = true \/ c = " "%char)
  /\ (forall c r, chars (_normalize_text t) = c :: r -> isspace c = false)
  /\ (forall l c, chars (_normalize_text t) = l ++ [c] -> isspace c = false)
  /\ (forall l c d r, chars (_normalize_text t) = l ++ c :: d :: r ->
        isspace c = true -> isspace d = false).
Proof.
  rewrite normalize_text_steps.
  set (x := remove_patterns (expand_abbrev (strip (lower t)))).
  split; [|split; [|split]].
  - intros c H. apply strip_chars in H. apply sub_spaces_go_chars in H.
    destruct H as [->|[H Hs]]; [right; reflexivity|].
    apply sub_special_chars in H. destruct H as [H|H]; [left; exact H | congruence].
  - intros c r. apply strip_head.
  - intros l c. unfold strip. apply rstrip_last.
  - intros l c d r H Hc.
    destruct (strip_infix (sub_spaces (sub_special x))) as (p & q & E).
    rewrite H in E.
    apply (proj2 (sub_spaces_go_no_run (sub_special x) false) (p ++ l) c d (r ++ q));
      [|exact Hc].
    unfold sub_spaces in E. rewrite E, <- !app_assoc. reflexivity.
Qed.

(** * The edit distance as a metric *)

Lemma cost_triangle (x y z : ascii) : cost x z <= cost x y + cost y z.
Proof.
  unfold cost.
  destruct (Ascii.eqb x y) eqn:Exy, (Ascii.eqb y z) eqn:Eyz; try lia.
  - apply Ascii.eqb_eq in Exy, Eyz. subst. rewrite Ascii.eqb_refl. lia.
  - destruct (Ascii.eqb x z); lia.
  - destruct (Ascii.eqb x z); lia.
  - destruct (Ascii.eqb x z); lia.
Qed.

Lemma lev_rec_zero (a : list ascii) : forall b, lev_rec a b = 0 -> a = b.
Proof.
  induction a as [|x a IHa]; intros b H.
  - rewrite lev_rec_nil_l in H. destruct b; [reflexivity | discriminate H].
  - destruct b as [|y b].
    + rewrite lev_rec_nil_r in H. discriminate H.
    + rewrite lev_rec_cons in H.
      assert (Hc : lev_rec a b = 0 /\ cost x y = 0) by lia.
      destruct Hc as [Hc Hxy]. rewrite (IHa b Hc).
      unfold cost in Hxy. destruct (Ascii.eqb x y) eqn:E; [|discriminate Hxy].
      apply Ascii.eqb_eq in E. rewrite E. reflexivity.
Qed.

Lemma lev_rec_lengths (a : list ascii) :
  forall b, List.length a <= List.length b + lev_rec a b
            /\ List.length b <= List.length a + lev_rec a b.
Proof.
  induction a as [|x a IHa]; intros b.
  - rewrite lev_rec_nil_l. simpl. lia.
  - induction b as [|y b IHb].
    + rewrite lev_rec_nil_r. simpl. lia.
    + rewrite lev_rec_cons.
      pose proof (IHa (y :: b)) as H1. pose proof (IHa b) as H2.
      simpl List.length in *. lia.
Qed.

Lemma lev_rec_triangle (n : nat) :
  forall a b c, List.length a + List.length b + List.length c <= n ->
    lev_rec a c <= lev_rec a b + lev_rec b c.
Proof.
  induction n as [|n IH]; intros a b c Hn.
  - destruct a, b, c; simpl in Hn; try lia.
  - destruct a as [|x a].
    { rewrite !lev_rec_nil_l. pose proof (lev_rec_lengths b c). lia. }
    destruct c as [|z c].
    { rewrite !lev_rec_nil_r. pose proof (lev_rec_lengths (x :: a) b). lia. }
    destruct b as [|y b].
    { rewrite lev_rec_nil_r, lev_rec_nil_l.
      pose proof (lev_rec_bound (x :: a) (z :: c)). lia. }
    simpl List.length in Hn.
    pose proof (IH a (y :: b) (z :: c)) as I1.
    pose proof (IH (x :: a) (y :: b) c) as I2.
    pose proof (IH (x :: a) b (z :: c)) as I3.
    pose proof (IH (x :: a) b c) as I4.
    pose proof (IH a b (z :: c)) as I5.
    pose proof (IH a b c) as I6.
    simpl List.length in *.
    pose proof (cost_triangle x y z) as Hc.
    rewrite (lev_rec_cons x z a c).
    rewrite (lev_rec_cons x y a b) in *.
    rewrite (lev_rec_cons y z b c) in *.
    rewrite (lev_rec_cons x z a c) in *.
    lia.
Qed.

Lemma chars_snoc (s : string) (c : ascii) :
  rev (chars (String.append s (String c ""))) = c :: rev (chars s).
Proof.
  unfold chars. induction s as [|x s IH]; simpl; [reflexivity|].
  rewrite IH. reflexivity.
Qed.

(** X3.  [_levenshtein_distance] is the edit distance: it is the length of
    the other string when one string is empty, and for strings that end in
    [c] and [d] it is the least of the distance after a deletion plus one,
    after an insertion plus one, and of the two strings without their last
    characters plus the cost of replacing [c] by [d] (0 when they are equal,
    1 otherwise). *)
Theorem levenshtein_distance_recurrence (s1 s2 : string) (c d : ascii) :
  _levenshtein_distance "" s2 = String.length s2
  /\ _levenshtein_distance s1 "" = String.length s1
  /\ _levenshtein_distance (String.append s1 (String c ""))
       (String.append s2 (String d ""))
     = Nat.min
         (Nat.min
            (_levenshtein_distance s1 (String.append s2 (String d "")) + 1)
            (_levenshtein_distance (String.append s1 (String c "")) s2 + 1))
         (_levenshtein_distance s1 s2 + cost c d).
Proof.
  split; [reflexivity|]. split; [destruct s1; reflexivity|].
  rewrite !levenshtein_distance_rec, !chars_snoc. apply lev_rec_cons.
Qed.

Lemma levenshtein_distance_zero (s1 s2 : string) :
  _levenshtein_distance s1 s2 = 0 <-> s1 = s2.
Proof.
  split.
  - rewrite levenshtein_distance_rec. intros H. apply lev_rec_zero in H.
    apply chars_inj. rewrite <- (rev_involutive (chars s1)), H.
    apply rev_involutive.
  - intros ->. apply levenshtein_distance_refl.
Qed.

(** X4.  [_levenshtein_distance] is a metric on strings: it is 0 exactly
    for equal strings, it is symmetric and it satisfies the triangle
    inequality.  It differs from no string length by more than the other
    length allows: the lengths differ by at most the distance, and the
    distance is at most the greater length. *)
Theorem levenshtein_distance_metric (s1 s2 s3 : string) :
  (_levenshtein_distance s1 s2 = 0 <-> s1 = s2)
  /\ _levenshtein_distance s1 s2 = _levenshtein_distance s2 s1
  /\ _levenshtein_distance s1 s3
     <= _levenshtein_distance s1 s2 + _levenshtein_distance s2 s3
  /\ String.length s1 <= String.length s2 + _levenshtein_distance s1 s2
  /\ String.length s2 <= String.length s1 + _levenshtein_distance s1 s2
  /\ _levenshtein_distance s1 s2 <= Nat.max (String.length s1) (String.length s2).
Proof.
  split; [apply levenshtein_distance_zero|].
  split; [apply levenshtein_distance_sym|]. split.
  { rewrite !levenshtein_distance_rec. eapply lev_rec_triangle. reflexivity. }
  pose proof (lev_rec_lengths (rev (chars s1)) (rev (chars s2))) as H.
  rewrite !length_rev, !length_chars, <- levenshtein_distance_rec in H.
  split; [apply H|]. split; [apply H|]. apply levenshtein_distance_bound.
Qed.

(** X5.  [_levenshtein_ratio] is 1 for equal strings only. *)
Theorem levenshtein_ratio_one_iff_equal (s1 s2 : string) :
  (_levenshtein_ratio s1 s2 == 1)%Q <-> s1 = s2.
Proof.
  split; [|intros ->; apply levenshtein_ratio_same].
  unfold _levenshtein_ratio.
  destruct (Nat.max (String.length s1) (String.length s2) =? 0) eqn:E.
  - intros _. apply Nat.eqb_eq in E.
    destruct s1, s2; simpl in E; try lia. reflexivity.
  - apply Nat.eqb_neq in E. intros H.
    apply levenshtein_distance_zero.
    set (d := _levenshtein_distance s1 s2) in *.
    set (m := Nat.max (String.length s1) (String.length s2)) in *.
    assert (Hm : (0 < Qnat m)%Q) by (apply Qnat_pos; lia).
    assert (Hd : (Qnat d / Qnat m == 0)%Q) by lra.
    apply (Qmult_inj_r _ _ (Qnat m)) in Hd; [|lra].
    unfold Qdiv in Hd.
    rewrite <- Qmult_assoc, (Qmult_comm (/ Qnat m)), Qmult_inv_r, Qmult_1_r,
      Qmult_0_l in Hd by lra.
    unfold Qnat, Qeq in Hd. simpl in Hd. lia.
Qed.

(** * Jaro: no index error, and when the value is 0 *)

Lemma jaro_value_pos (n t len1 len2 : nat) :
  0 < n -> n <= len1 -> n <= len2 -> t <= n ->
  (0 < jaro_value n t len1 len2)%Q.
Proof.
  intros Hn H1 H2 Ht. unfold jaro_value.
  assert (Ha : (0 < Qnat n / Qnat len1)%Q).
  { apply Qlt_shift_div_l; [apply Qnat_pos; lia|].
    rewrite Qmult_0_l. apply Qnat_pos. exact Hn. }
  destruct (Qnat_ratio_bounds n len2 H2 ltac:(lia)) as [Hb0 _].
  pose proof (Qnat_pos n Hn) as Hpos.
  pose proof (Qnat_nonneg t) as Ht0.
  pose proof (Qnat_le t n Ht) as Htn.
  assert (Hc : (0 <= (Qnat n - Qnat t / 2) / Qnat n)%Q).
  { revert Hpos Ht0 Htn. generalize (Qnat n) (Qnat t). intros x y Hx Hy Hyx.
    apply Qle_shift_div_l; [exact Hx|].
    unfold Qdiv. change (/ 2)%Q with (1 # 2)%Q. lra. }
  set (a := (Qnat n / Qnat len1)%Q) in *.
  set (b := (Qnat n / Qnat len2)%Q) in *.
  set (c := ((Qnat n - Qnat t / 2) / Qnat n)%Q) in *.
  unfold Qdiv. change (/ 3)%Q with (1 # 3)%Q. lra.
Qed.

(** X6.  [_jaro_similarity] never raises: the loop
    [while not s2_matches[k]: k += 1] of the transposition count always stops
    at a flagged position before the end of [s2_matches], for all strings. *)
Theorem jaro_similarity_no_index_error (s1 s2 : string) :
  exists q, jaro_run s1 s2 = Some q /\ _jaro_similarity s1 s2 = q.
Proof.
  unfold _jaro_similarity. pose proof (jaro_never_raises s1 s2) as H.
  destruct (jaro_run s1 s2) as [q|]; [|congruence].
  exists q. split; reflexivity.
Qed.

(** X7.  [_jaro_similarity] is 0 exactly when no position of [s1] and
    position of [s2] at most the match window apart hold the same
    character; this covers an empty argument. *)
Theorem jaro_similarity_zero_iff (s1 s2 : string) :
  (_jaro_similarity s1 s2 == 0)%Q
  <-> forall a b,
        ~ compat (chars s1) (chars s2)
            (match_window (String.length s1) (String.length s2)) a b.
Proof.
  destruct (string_dec s1 "") as [->|H1].
  { rewrite jaro_similarity_empty_l. split; [|reflexivity].
    intros _ a b (c & Hc & _).
    change (chars "") with (@nil ascii) in Hc. rewrite lookup_nil in Hc.
    discriminate Hc. }
  destruct (string_dec s2 "") as [->|H2].
  { rewrite jaro_similarity_empty_r. split; [|reflexivity].
    intros _ a b (c & _ & Hc & _).
    change (chars "") with (@nil ascii) in Hc. rewrite lookup_nil in Hc.
    discriminate Hc. }
  destruct (string_dec s1 s2) as [->|Hne].
  { rewrite (jaro_similarity_same _ H2). split; [discriminate|].
    intros H. exfalso. destruct s2 as [|c s2]; [congruence|].
    apply (H 0 0). exists c. unfold chars. simpl. repeat split; lia. }
  set (w := match_window (String.length s1) (String.length s2)).
  set (P := identify_pairs w (chars s2) 0 (chars s1)
              (repeat false (List.length (chars s2)))).
  assert (Hcan : canonical (chars s1) (chars s2) w P).
  { apply greedy_canonical.
    apply (identify_pairs_greedy (chars s1) (chars s2) w (chars s1) []);
      [reflexivity | apply repeat_length]. }
  destruct (identify_matches_pairs w (chars s2) (chars s1) 0
              (repeat false (List.length (chars s2))) (repeat_length _ _))
    as (m1 & m2 & E & Hl1 & Hl2 & _ & _ & Hn1 & Hn2).
  fold P in E, Hn1, Hn2. rewrite ntrue_repeat_false in Hn2. simpl in Hn2.
  rewrite repeat_length in Hl2.
  assert (Hrun : jaro_run s1 s2
                 = if List.length P =? 0 then Some 0%Q
                   else Some (jaro_value (List.length P)
                                (mism (sel (chars s1) m1) (sel (chars s2) m2))
                                (String.length s1) (String.length s2))).
  { apply truthy_true in H1 as T1. apply truthy_true in H2 as T2.
    unfold jaro_run. rewrite T1, T2. simpl.
    replace (String.eqb s1 s2) with false
      by (symmetry; apply String.eqb_neq; exact Hne).
    fold w. rewrite <- (length_chars s2) at 1. rewrite E.
    destruct (List.length P =? 0); [reflexivity|].
    rewrite (count_transpositions_spec (chars s2) m2 (chars s1) m1 0 Hl1 Hl2)
      by (rewrite drop_0; lia).
    rewrite !drop_0. reflexivity. }
  unfold _jaro_similarity. rewrite Hrun.
  destruct (List.length P =? 0) eqn:En.
  - apply Nat.eqb_eq in En. split; [|reflexivity].
    intros _ a b Hab.
    destruct (c_X1 Hcan a b) as (a' & _ & Hin); [|exact Hab|].
    + intros b' Hb'. destruct P; [apply elem_of_nil in Hb'; exact Hb' | discriminate En].
    + destruct P; [apply elem_of_nil in Hin; exact Hin | discriminate En].
  - apply Nat.eqb_neq in En. split.
    + intros H0. exfalso.
      assert (Hpos : (0 < jaro_value (List.length P)
                        (mism (sel (chars s1) m1) (sel (chars s2) m2))
                        (String.length s1) (String.length s2))%Q).
      { apply jaro_value_pos.
        - lia.
        - rewrite <- Hn1, <- length_chars, <- Hl1. apply ntrue_le_length.
        - rewrite <- Hn2, <- length_chars, <- Hl2. apply ntrue_le_length.
        - rewrite <- Hn1. etransitivity; [apply mism_le | apply sel_length]. }
      rewrite H0 in Hpos. exact (Qlt_irrefl _ Hpos).
    + intros Hno. exfalso. destruct P as [|[a b] P'] eqn:EP; [simpl in En; lia|].
      apply (Hno a b). apply (c_sound Hcan). apply elem_of_cons. left. reflexivity.
Qed.

(** * n-gram sets and token lists *)

Lemma get_ngrams_inhabited (text : string) (n : nat) :
  exists g, g ∈ _get_ngrams text n.
Proof.
  unfold _get_ngrams. destruct (String.length text <? n).
  - exists text. set_solver.
  - exists (substring 0 n text). rewrite Nat.add_1_r. simpl. set_solver.
Qed.

Lemma get_ngrams_truthy (text : string) (n : nat) :
  set_truthy (_get_ngrams text n) = true.
Proof.
  unfold set_truthy. apply negb_true_iff, bool_decide_eq_false.
  destruct (get_ngrams_inhabited text n) as [g Hg]. set_solver.
Qed.

Lemma Qnat_ratio_one (i u : nat) :
  0 < u -> ((Qnat i / Qnat u == 1)%Q <-> i = u).
Proof.
  intros Hu. split.
  - intros H. apply (Qmult_inj_r _ _ (Qnat u)) in H.
    + rewrite Qmult_1_l in H. unfold Qdiv in H.
      rewrite <- Qmult_assoc, (Qmult_comm (/ Qnat u)), Qmult_inv_r, Qmult_1_r in H.
      * unfold Qnat, Qeq in H. simpl in H. lia.
      * unfold Qnat, Qeq. simpl. lia.
    + unfold Qnat, Qeq. simpl. lia.
  - intros ->. apply Qnat_ratio_same. exact Hu.
Qed.

(** X8.  [_get_ngrams] never returns the empty set, so the two tests of
    [_jaccard_similarity] for an empty set never succeed and the value is
    always the size of the intersection over the size of the union; it is 1
    exactly when the two strings have the same set of n-grams. *)
Theorem jaccard_similarity_ratio_of_sizes (s1 s2 : string) (n : nat) :
  (exists g, g ∈ _get_ngrams s1 n)
  /\ _jaccard_similarity s1 s2 n
     = (Qnat (size (_get_ngrams s1 n ∩ _get_ngrams s2 n))
        / Qnat (size (_get_ngrams s1 n ∪ _get_ngrams s2 n)))%Q
  /\ ((_jaccard_similarity s1 s2 n == 1)%Q
      <-> _get_ngrams s1 n = _get_ngrams s2 n).
Proof.
  split; [apply get_ngrams_inhabited|].
  assert (Hpos : 0 < size (_get_ngrams s1 n ∪ _get_ngrams s2 n)).
  { destruct (get_ngrams_inhabited s1 n) as [g Hg].
    destruct (size (_get_ngrams s1 n ∪ _get_ngrams s2 n)) eqn:E; [|lia].
    apply size_empty_inv in E. set_solver. }
  assert (Hval : _jaccard_similarity s1 s2 n
     = (Qnat (size (_get_ngrams s1 n ∩ _get_ngrams s2 n))
        / Qnat (size (_get_ngrams s1 n ∪ _get_ngrams s2 n)))%Q).
  { unfold _jaccard_similarity. rewrite !get_ngrams_truthy. simpl.
    apply Nat.ltb_lt in Hpos. rewrite Hpos. reflexivity. }
  split; [exact Hval|].
  rewrite Hval, (Qnat_ratio_one _ _ Hpos). split.
  - intros E.
    assert (Hiu : _get_ngrams s1 n ∩ _get_ngrams s2 n
                  = _get_ngrams s1 n ∪ _get_ngrams s2 n).
    { apply set_subseteq_size_eq; [set_solver | lia]. }
    set_solver.
  - intros E. rewrite E. f_equal. set_solver.
Qed.

(** ** [sorted] does not depend on the order of its argument *)

Lemma ascii_compare_refl (x : ascii) : Ascii.compare x x = Eq.
Proof. unfold Ascii.compare. apply N.compare_refl. Qed.

Lemma str_leb_trans (a : string) :
  forall b c, str_leb a b = true -> str_leb b c = true -> str_leb a c = true.
Proof.
  unfold str_leb, String.leb.
  induction a as [|x a IH]; intros [|y b] [|z c]; simpl; try congruence.
  intros Hab Hbc. specialize (IH b c).
  unfold Ascii.compare in *.
  destruct (N.compare_spec (N_of_ascii x) (N_of_ascii y)) as [Exy|Lxy|Gxy];
    [| |discriminate Hab];
  destruct (N.compare_spec (N_of_ascii y) (N_of_ascii z)) as [Eyz|Lyz|Gyz];
    try discriminate Hbc.
  - rewrite Exy, Eyz, N.compare_refl. auto.
  - rewrite Exy. apply N.compare_lt_iff in Lyz. rewrite Lyz. reflexivity.
  - rewrite <- Eyz. apply N.compare_lt_iff in Lxy. rewrite Lxy. reflexivity.
  - assert (L : (N_of_ascii x < N_of_ascii z)%N) by lia.
    apply N.compare_lt_iff in L. rewrite L. reflexivity.
Qed.

Lemma str_le_trans : Transitive str_le.
Proof. intros a b c. apply str_leb_trans. Qed.

Lemma str_le_antisym : AntiSymm (=) str_le.
Proof. intros a b. apply String.leb_antisym. Qed.

Lemma insert_sorted_Sorted (x : string) (l : list string) :
  Sorted str_le l -> Sorted str_le (insert_sorted x l).
Proof.
  induction l as [|y r IH]; intros Hs; simpl.
  - repeat constructor.
  - destruct (str_leb x y) eqn:E.
    + constructor; [exact Hs | constructor; exact E].
    + apply Sorted_inv in Hs. destruct Hs as [Hr Hy].
      constructor; [exact (IH Hr)|].
      destruct r as [|z r]; simpl.
      * constructor. destruct (String.leb_total x y) as [H|H]; [|exact H].
        unfold str_leb in E. congruence.
      * destruct (str_leb x z).
        -- constructor. destruct (String.leb_total x y) as [H|H]; [|exact H].
           unfold str_leb in E. congruence.
        -- constructor. inversion Hy. assumption.
Qed.

Lemma insert_sorted_perm (x : string) (l : list string) :
  insert_sorted x l ≡ₚ x :: l.
Proof.
  induction l as [|y r IH]; simpl; [reflexivity|].
  destruct (str_leb x y); [reflexivity|].
  rewrite IH. apply Permutation_swap.
Qed.

Lemma sorted_Sorted (l : list string) : Sorted str_le (sorted l).
Proof.
  induction l as [|x l IH]; simpl; [constructor|].
  apply insert_sorted_Sorted, IH.
Qed.

Lemma sorted_perm (l : list string) : sorted l ≡ₚ l.
Proof.
  induction l as [|x l IH]; simpl; [reflexivity|].
  rewrite insert_sorted_perm, IH. reflexivity.
Qed.

Lemma sorted_of_perm (l1 l2 : list string) : l1 ≡ₚ l2 -> sorted l1 = sorted l2.
Proof.
  intros H.
  apply (@Sorted_unique _ str_le str_le_trans str_le_antisym);
    try apply sorted_Sorted.
  rewrite !sorted_perm. exact H.
Qed.

(** X9.  [_token_sort_ratio] does not see the order of the words: two
    strings whose token lists are permutations of each other score 1. *)
Theorem token_sort_ratio_ignores_word_order (s1 s2 : string) :
  split s1 ≡ₚ split s2 -> (_token_sort_ratio s1 s2 == 1)%Q.
Proof.
  intros H. unfold _token_sort_ratio. rewrite (sorted_of_perm _ _ H).
  apply levenshtein_ratio_same.
Qed.

Lemma token_sort_ratio_ignores_word_order_witness :
  split "Kaunas  Zalgiris" ≡ₚ split "Zalgiris Kaunas"
  /\ (_token_sort_ratio "Kaunas  Zalgiris" "Zalgiris Kaunas" == 1)%Q.
Proof.
  assert (H : split "Kaunas  Zalgiris" ≡ₚ split "Zalgiris Kaunas")
    by apply Permutation_swap.
  split; [exact H | exact (token_sort_ratio_ignores_word_order _ _ H)].
Defined.

Lemma py_max_one_l (a b : Q) : (a == 1)%Q -> (b <= 1)%Q -> (py_max a b == 1)%Q.
Proof.
  intros Ha Hb. rewrite py_max_comm. apply py_max_one_r; assumption.
Qed.

(** X10.  [_token_set_ratio] is 1 as soon as every token of one string is a
    token of the other; a string without tokens is such a string, so the
    ratio of the empty string and any string is 1. *)
Theorem token_set_ratio_one_on_subset (s1 s2 : string) :
  tokens s1 ⊆ tokens s2 \/ tokens s2 ⊆ tokens s1 ->
  (_token_set_ratio s1 s2 == 1)%Q.
Proof.
  assert (Hsub : forall a b, tokens a ⊆ tokens b -> (_token_set_ratio a b == 1)%Q).
  { intros a b H. unfold _token_set_ratio.
    destruct (negb (set_truthy (tokens a)) && negb (set_truthy (tokens b)));
      [reflexivity|].
    assert (E : tokens a ∩ tokens b = tokens a) by set_solver.
    rewrite E. apply py_max_one_l; [|apply levenshtein_ratio_bounds].
    apply py_max_one_l; [apply levenshtein_ratio_same|].
    apply levenshtein_ratio_bounds. }
  intros [H|H]; [exact (Hsub _ _ H)|].
  rewrite token_set_ratio_sym. exact (Hsub _ _ H).
Qed.

Lemma token_set_ratio_one_on_subset_witness :
  (tokens "" ⊆ tokens "ajax" \/ tokens "ajax" ⊆ tokens "")
  /\ (_token_set_ratio "" "ajax" == 1)%Q.
Proof.
  assert (H : tokens "" ⊆ tokens "ajax" \/ tokens "ajax" ⊆ tokens "").
  { left. apply empty_subseteq. }
  split; [exact H | exact (token_set_ratio_one_on_subset _ _ H)].
Defined.

(** * The composite score *)

Section ScoreFacts.

Variable difflib_ratio : string -> string -> Q.

Local Abbreviation sim := (calculate_similarity difflib_ratio).

Lemma py_min_compat (a a' b b' : Q) :
  (a == a')%Q -> (b == b')%Q -> (py_min a b == py_min a' b')%Q.
Proof.
  intros Ha Hb. unfold py_min.
  destruct (Qltb b a) eqn:E, (Qltb b' a') eqn:E'; try assumption.
  - apply Qltb_lt in E. apply Qltb_ge in E'. rewrite Ha, Hb in E. lra.
  - apply Qltb_ge in E. apply Qltb_lt in E'. rewrite Ha, Hb in E. lra.
Qed.

(** X11.  [calculate_similarity] lies between 0 and 1 whatever the library
    ratio returns, and is 0 as soon as one argument is empty. *)
Theorem calculate_similarity_range (s1 s2 : string) :
  (0 <= calculate_similarity difflib_ratio s1 s2 <= 1)%Q
  /\ calculate_similarity difflib_ratio "" s2 = 0%Q
  /\ calculate_similarity difflib_ratio s1 "" = 0%Q.
Proof.
  split; [apply sim_bounds|]. split; [apply sim_empty_l | apply sim_empty_r].
Qed.

(** X12.  [calculate_similarity] gives the same score for [(s1, s2)] and
    [(s2, s1)] whenever the library ratio does so on the two normal forms:
    the five metrics of the module and the shortcuts are symmetric. *)
Theorem calculate_similarity_symmetric (s1 s2 : string) :
  (difflib_ratio (_normalize_text s1) (_normalize_text s2)
   == difflib_ratio (_normalize_text s2) (_normalize_text s1))%Q ->
  (sim s1 s2 == sim s2 s1)%Q.
Proof.
  intros Hd. unfold calculate_similarity.
  rewrite (orb_comm (negb (truthy s2))).
  destruct (negb (truthy s1) || negb (truthy s2)); [reflexivity|].
  rewrite (String.eqb_sym s2 s1).
  destruct (String.eqb s1 s2); [reflexivity|].
  rewrite (String.eqb_sym (_normalize_text s2)).
  destruct (String.eqb (_normalize_text s1) (_normalize_text s2)); [reflexivity|].
  apply py_min_compat; [reflexivity|]. apply py_max_compat; [reflexivity|].
  unfold weighted_sum, weights. cbn [combine map fold_left fst snd].
  rewrite (levenshtein_ratio_sym (_normalize_text s2)).
  rewrite (jaro_similarity_sym (_normalize_text s2)).
  rewrite (jaccard_similarity_sym (_normalize_text s2)).
  rewrite (token_sort_ratio_sym (_normalize_text s2)).
  rewrite (token_set_ratio_sym (_normalize_text s2)).
  rewrite Hd. reflexivity.
Qed.

Lemma py_max_zero_l (x : Q) : (0 <= x)%Q -> (py_max 0 x == x)%Q.
Proof.
  intros H. unfold py_max. destruct (Qltb 0 x) eqn:E; [reflexivity|].
  apply Qltb_ge in E. lra.
Qed.

Lemma py_min_one_l (x : Q) : (x <= 1)%Q -> (py_min 1 x == x)%Q.
Proof.
  intros H. unfold py_min. destruct (Qltb x 1) eqn:E; [reflexivity|].
  apply Qltb_ge in E. lra.
Qed.

(** X13.  For two non-empty strings with different normal forms and a
    library ratio between 0 and 1, [calculate_similarity] is the weighted
    mean of the six scores with the weights 0.20, 0.10, 0.10, 0.30, 0.25 and
    0.05: the clamp to the interval from 0 to 1 changes nothing. *)
Theorem calculate_similarity_weighted_mean (s1 s2 : string) :
  s1 <> "" -> s2 <> "" ->
  _normalize_text s1 <> _normalize_text s2 ->
  (0 <= difflib_ratio (_normalize_text s1) (_normalize_text s2) <= 1)%Q ->
  (sim s1 s2
   == 0.20 * _levenshtein_ratio (_normalize_text s1) (_normalize_text s2)
      + 0.10 * _jaro_similarity (_normalize_text s1) (_normalize_text s2)
      + 0.10 * _jaccard_similarity (_normalize_text s1) (_normalize_text s2) 2
      + 0.30 * _token_sort_ratio (_normalize_text s1) (_normalize_text s2)
      + 0.25 * _token_set_ratio (_normalize_text s1) (_normalize_text s2)
      + 0.05 * difflib_ratio (_normalize_text s1) (_normalize_text s2))%Q.
Proof.
  intros H1 H2 Hn Hd. unfold calculate_similarity.
  apply truthy_true in H1, H2. rewrite H1, H2. simpl.
  assert (Hne : s1 <> s2) by congruence.
  apply String.eqb_neq in Hne, Hn. rewrite Hne, Hn.
  unfold weighted_sum, weights. cbn [combine map fold_left fst snd].
  pose proof (levenshtein_ratio_bounds (_normalize_text s1) (_normalize_text s2)).
  pose proof (jaro_similarity_bounds (_normalize_text s1) (_normalize_text s2)).
  pose proof (jaccard_similarity_bounds (_normalize_text s1) (_normalize_text s2) 2).
  pose proof (token_sort_ratio_bounds (_normalize_text s1) (_normalize_text s2)).
  pose proof (token_set_ratio_bounds (_normalize_text s1) (_normalize_text s2)).
  set (a := _levenshtein_ratio _ _) in *.
  set (b := _jaro_similarity _ _) in *.
  set (c := _jaccard_similarity _ _ _) in *.
  set (d := _token_sort_ratio _ _) in *.
  set (e := _token_set_ratio _ _) in *.
  set (f := difflib_ratio _ _) in *.
  rewrite py_min_one_l.
  - rewrite py_max_zero_l; lra.
  - rewrite py_max_zero_l; lra.
Qed.

End ScoreFacts.

Lemma calculate_similarity_symmetric_witness :
  (Difflib.sequence_ratio (_normalize_text "Ajax Amsterdam")
     (_normalize_text "Ajax")
   == Difflib.sequence_ratio (_normalize_text "Ajax")
        (_normalize_text "Ajax Amsterdam"))%Q
  /\ (calculate_similarity Difflib.sequence_ratio "Ajax Amsterdam" "Ajax"
      == calculate_similarity Difflib.sequence_ratio "Ajax" "Ajax Amsterdam")%Q.
Proof.
  assert (H : (Difflib.sequence_ratio (_normalize_text "Ajax Amsterdam")
                 (_normalize_text "Ajax")
               == Difflib.sequence_ratio (_normalize_text "Ajax")
                    (_normalize_text "Ajax Amsterdam"))%Q)
    by (vm_compute; reflexivity).
  split; [exact H|].
  exact (calculate_similarity_symmetric Difflib.sequence_ratio _ _ H).
Defined.

Lemma calculate_similarity_weighted_mean_witness :
  "Ajax Amsterdam" <> "" /\ "Ajax" <> ""
  /\ _normalize_text "Ajax Amsterdam" <> _normalize_text "Ajax"
  /\ (0 <= Difflib.sequence_ratio (_normalize_text "Ajax Amsterdam")
             (_normalize_text "Ajax") <= 1)%Q
  /\ (calculate_similarity Difflib.sequence_ratio "Ajax Amsterdam" "Ajax"
      == 0.20 * _levenshtein_ratio (_normalize_text "Ajax Amsterdam")
                  (_normalize_text "Ajax")
         + 0.10 * _jaro_similarity (_normalize_text "Ajax Amsterdam")
                    (_normalize_text "Ajax")
         + 0.10 * _jaccard_similarity (_normalize_text "Ajax Amsterdam")
                    (_normalize_text "Ajax") 2
         + 0.30 * _token_sort_ratio (_normalize_text "Ajax Amsterdam")
                    (_normalize_text "Ajax")
         + 0.25 * _token_set_ratio (_normalize_text "Ajax Amsterdam")
                    (_normalize_text "Ajax")
         + 0.05 * Difflib.sequence_ratio (_normalize_text "Ajax Amsterdam")
                    (_normalize_text "Ajax"))%Q.
Proof.
  assert (H1 : "Ajax Amsterdam" <> "") by discriminate.
  assert (H2 : "Ajax" <> "") by discriminate.
  assert (H3 : _normalize_text "Ajax Amsterdam" <> _normalize_text "Ajax")
    by (vm_compute; discriminate).
  assert (H4 : (0 <= Difflib.sequence_ratio (_normalize_text "Ajax Amsterdam")
                       (_normalize_text "Ajax") <= 1)%Q)
    by (split; vm_compute; discriminate).
  split; [exact H1|]. split; [exact H2|]. split; [exact H3|]. split; [exact H4|].
  exact (calculate_similarity_weighted_mean Difflib.sequence_ratio _ _ H1 H2 H3 H4).
Defined.


(** * The cache *)

Lemma cache_fold_lookup (teams : list team) :
  forall m k,
    (forall k', m !! k' <> Some []) ->
    fold_left cache_step teams m !! k
    = match default [] (m !! k) ++ names_under teams k with
      | [] => None
      | l => Some l
      end.
Proof.
  induction teams as [|t teams IH]; intros m k Hm.
  - simpl. unfold names_under. simpl. rewrite app_nil_r.
    destruct (m !! k) as [[|x l]|] eqn:E; try reflexivity.
    exfalso. exact (Hm k E).
  - simpl. rewrite IH.
    + unfold names_under, cache_step. simpl.
      destruct (String.eqb (lower (sport t)) k) eqn:Ek.
      * apply String.eqb_eq in Ek. subst k. simpl.
        destruct (truthy (lower (sport t)) && truthy (canonical_team_name t)); simpl.
        -- rewrite cache_append_same, <- app_assoc. reflexivity.
        -- reflexivity.
      * apply String.eqb_neq in Ek. simpl.
        destruct (truthy (lower (sport t)) && truthy (canonical_team_name t)).
        -- rewrite cache_append_other by exact Ek. reflexivity.
        -- reflexivity.
    + intros k'. unfold cache_step.
      destruct (truthy (lower (sport t)) && truthy (canonical_team_name t));
        [|apply Hm].
      unfold cache_append.
      destruct (string_dec (lower (sport t)) k') as [<-|Hne].
      * rewrite lookup_insert_eq. intros E. injection E as E.
        destruct (default [] (m !! lower (sport t))); discriminate E.
      * rewrite lookup_insert_ne by exact Hne. apply Hm.
Qed.

(** X14.  [_build_cache] lists under each key the names of the entries with
    that lowercased sport, in the order of the teams list, leaving out the
    entries with an empty sport or an empty name; a key with no such entry
    is absent. *)
Theorem build_cache_lists_each_category (teams : list team) (k : string) :
  _build_cache teams !! k
  = match names_under teams k with
    | [] => None
    | l => Some l
    end.
Proof.
  rewrite build_cache_fold, cache_fold_lookup.
  - rewrite lookup_empty. reflexivity.
  - intros k'. rewrite lookup_empty. discriminate.
Qed.

Lemma build_cache_snoc (teams : list team) (t : team) :
  _build_cache (teams ++ [t]) = cache_step (_build_cache teams) t.
Proof. rewrite !build_cache_fold, fold_left_app. reflexivity. Qed.

Lemma add_team_in_sync (st : standardizer) (sp name : string) :
  sp <> "" -> name <> "" -> in_sync st -> in_sync (add_team st (lower sp) name).
Proof.
  unfold in_sync. intros Hsp Hname H. simpl.
  rewrite build_cache_snoc, <- H. unfold cache_step. simpl.
  rewrite lower_idem.
  assert (Hl : lower sp <> "") by (rewrite lower_eq_empty; exact Hsp).
  apply truthy_true in Hl. apply truthy_true in Hname.
  rewrite Hl, Hname. reflexivity.
Qed.

Section RegistryFacts.

Variable difflib_ratio : string -> string -> Q.

Lemma standardize_in_sync (st : standardizer) (team_name sp : string) (aa : bool) :
  sp <> "" -> in_sync st ->
  in_sync (snd (standardize_team_name difflib_ratio st team_name sp aa)).
Proof.
  intros Hsp H.
  destruct (standardize_state difflib_ratio st team_name sp aa)
    as [->|(-> & Hq & _)]; [exact H|].
  apply add_team_in_sync; assumption.
Qed.

(** X15.  When the cache is the one [_build_cache] builds from the teams
    list, it is still so after any sequence of calls of
    [standardize_team_name] whose sport is not empty: the update made with
    an automatic addition agrees with a rebuild. *)
Theorem cache_stays_in_sync (st : standardizer) (calls : list call) :
  in_sync st ->
  Forall (fun c => call_sport c <> "") calls ->
  in_sync (run_calls difflib_ratio st calls).
Proof.
  revert st. induction calls as [|c calls IH]; intros st H Hc; simpl; [exact H|].
  apply Forall_cons in Hc. destruct Hc as [Hc Hcs].
  apply IH; [|exact Hcs]. apply standardize_in_sync; assumption.
Qed.

End RegistryFacts.

Lemma cache_stays_in_sync_witness :
  in_sync ajax_only_registry
  /\ Forall (fun c => call_sport c <> "") sample_calls
  /\ in_sync (run_calls Difflib.sequence_ratio ajax_only_registry sample_calls).
Proof.
  assert (H1 : in_sync ajax_only_registry) by reflexivity.
  assert (H2 : Forall (fun c => call_sport c <> "") sample_calls)
    by (repeat constructor; discriminate).
  split; [exact H1|]. split; [exact H2|].
  exact (cache_stays_in_sync Difflib.sequence_ratio _ _ H1 H2).
Defined.

(** * What a call returns and what it changes *)

Section CallFacts.

Variable difflib_ratio : string -> string -> Q.

Local Abbreviation sim := (calculate_similarity difflib_ratio).

Lemma best_existing_bound (q : string) (l : list string) (bs : Q)
    (bc : option string) :
  best_existing difflib_ratio q l 0%Q None = (bs, bc) ->
  (0 <= bs)%Q /\ forall c, c ∈ l -> (sim q c <= bs)%Q.
Proof.
  intros E. apply best_existing_spec in E
    as [(-> & _ & H) | (k & c & (Hk & Hmax & _) & _ & -> & Hlt)].
  - split; [discriminate | exact H].
  - split; [apply Qlt_le_weak; exact Hlt | exact Hmax].
Qed.

(** X16.  What each status of [standardize_team_name] guarantees.  [empty]:
    the trimmed name is empty, [""] is returned.  [exact_match]: the name
    returned is stored under the lowercased sport and equals the trimmed
    name up to case; the score is 1.  [fuzzy_match]: no stored name of the
    sport equals the trimmed name up to case, the name returned is stored
    under the sport, and its score is positive and at least the matching
    threshold.  [auto_added]: [auto_add] was set, the trimmed name is
    returned and appended under the lowercased sport, and the best score,
    which bounds the score of every stored name of the sport, is below the
    auto-add threshold.  [no_match_no_add]: the trimmed name is returned,
    and [auto_add] was not set or the best score reaches the auto-add
    threshold.  Only [auto_added] changes the standardizer. *)
Theorem standardize_outcome_by_status (st : standardizer) (team_name sp : string)
    (aa : bool) :
  let '(name, d, st') := standardize_team_name difflib_ratio st team_name sp aa in
  let q := strip team_name in
  let names := default [] (_sport_teams_cache st !! lower sp) in
  match d with
  | Empty => q = "" /\ name = "" /\ st' = st
  | ExactMatch score =>
      q <> "" /\ score = 1%Q /\ name ∈ names /\ lower name = lower q /\ st' = st
  | FuzzyMatch score matched_name =>
      q <> "" /\ matched_name = name /\ name ∈ names
      /\ (forall c, c ∈ names -> lower c <> lower q)
      /\ score = sim q name /\ (threshold st <= score)%Q /\ (0 < score)%Q
      /\ st' = st
  | AutoAdded best_score _ =>
      q <> "" /\ aa = true /\ name = q
      /\ (forall c, c ∈ names -> lower c <> lower q)
      /\ (forall c, c ∈ names -> (sim q c <= best_score)%Q)
      /\ (0 <= best_score)%Q /\ (best_score < auto_add_threshold st)%Q
      /\ st' = add_team st (lower sp) q
  | NoMatchNoAdd best_score _ aat =>
      q <> "" /\ name = q /\ aat = auto_add_threshold st
      /\ (forall c, c ∈ names -> lower c <> lower q)
      /\ (forall c, c ∈ names -> (sim q c <= best_score)%Q)
      /\ (0 <= best_score)%Q
      /\ (aa = false \/ (auto_add_threshold st <= best_score)%Q)
      /\ st' = st
  end.
Proof.
  destruct (string_dec (strip team_name) "") as [Hq|Hq].
  { rewrite standardize_blank by exact Hq. simpl. auto. }
  rewrite (standardize_nonblank _ _ _ _ _ Hq). cbv zeta.
  destruct (_sport_teams_cache st !! lower sp) as [l|] eqn:El; simpl.
  - destruct (List.find _ l) as [c|] eqn:Ex.
    + apply find_first_split in Ex as (l1 & l2 & -> & Hc & _).
      apply String.eqb_eq in Hc.
      repeat split; auto. apply elem_of_app. right. apply elem_of_cons. auto.
    + assert (Hne : forall c, c ∈ l -> lower c <> lower (strip team_name)).
      { intros c Hc. rewrite find_none_iff in Ex. apply String.eqb_neq. auto. }
      pose proof (find_best_match_cases difflib_ratio (threshold st)
                    (strip team_name) l) as Hf.
      destruct (find_best_match difflib_ratio (threshold st) (strip team_name) l)
        as [[m sc]|].
      * destruct Hf as (Hs & Hpos & Hthr & k & Hk & _).
        repeat split; auto. eapply list_elem_of_lookup_2. exact Hk.
      * destruct (best_existing difflib_ratio (strip team_name) l 0%Q None)
          as [bs bc] eqn:Eb.
        apply best_existing_bound in Eb as [Hb0 Hb].
        destruct aa; simpl.
        -- destruct (Qltb bs (auto_add_threshold st)) eqn:Elt.
           ++ apply Qltb_lt in Elt. repeat split; auto.
           ++ apply Qltb_ge in Elt. repeat split; auto.
        -- repeat split; auto.
  - assert (Hnil : forall c : string, c ∈ @nil string -> lower c <> lower (strip team_name)).
    { intros c Hc. apply elem_of_nil in Hc. contradiction. }
    assert (Hnil' : forall c : string, c ∈ @nil string -> (sim (strip team_name) c <= 0)%Q).
    { intros c Hc. apply elem_of_nil in Hc. contradiction. }
    destruct aa; simpl.
    + destruct (Qltb 0 (auto_add_threshold st)) eqn:Elt.
      * apply Qltb_lt in Elt. repeat split; auto. discriminate.
      * apply Qltb_ge in Elt. repeat split; auto. discriminate.
    + repeat split; auto. discriminate.
Qed.

Lemma standardize_step (st : standardizer) (team_name sp : string) (aa : bool) :
  snd (standardize_team_name difflib_ratio st team_name sp aa) = st
  \/ (aa = true
      /\ snd (standardize_team_name difflib_ratio st team_name sp aa)
         = add_team st (lower sp) (strip team_name)
      /\ strip team_name <> "").
Proof.
  destruct (string_dec (strip team_name) "") as [Hq|Hq].
  { left. rewrite standardize_blank; auto. }
  rewrite (standardize_nonblank _ _ _ _ _ Hq). simpl.
  destruct (match _sport_teams_cache st !! lower sp with
            | Some l => List.find _ l | None => None end);
    [left; reflexivity|].
  destruct (match _sport_teams_cache st !! lower sp with
            | Some l => find_best_match _ _ _ l | None => None end)
    as [[m sc]|]; [left; reflexivity|].
  destruct (match _sport_teams_cache st !! lower sp with
            | Some l => best_existing _ _ l _ _ | None => _ end) as [bs bc].
  destruct aa; simpl; [|left; reflexivity].
  destruct (Qltb bs (auto_add_threshold st)); [|left; reflexivity].
  right. repeat split; auto.
Qed.

(** X17.  A sequence of calls of [standardize_team_name] only appends: the
    teams list and the session log grow by the same entries, at most one
    for each call made with [auto_add], each with a trimmed name that is not
    empty and a lowercased sport; the thresholds stay as they were. *)
Theorem run_calls_only_append (st : standardizer) (calls : list call) :
  exists new,
    teams_map (run_calls difflib_ratio st calls) = teams_map st ++ new
    /\ _new_teams_added (run_calls difflib_ratio st calls)
       = _new_teams_added st ++ new
    /\ threshold (run_calls difflib_ratio st calls) = threshold st
    /\ auto_add_threshold (run_calls difflib_ratio st calls)
       = auto_add_threshold st
    /\ List.length new <= List.length (List.filter call_auto_add calls)
    /\ Forall (fun t => canonical_team_name t <> ""
                        /\ strip (canonical_team_name t) = canonical_team_name t
                        /\ lower (sport t) = sport t) new.
Proof.
  revert st. induction calls as [|c calls IH]; intros st; simpl.
  - exists []. rewrite !app_nil_r. repeat split; auto.
  - destruct (standardize_step st (call_team_name c) (call_sport c)
                (call_auto_add c)) as [->|(Haa & -> & Hq)].
    + destruct (IH st) as (new & H1 & H2 & H3 & H4 & H5 & H6).
      exists new. repeat split; auto.
      destruct (call_auto_add c); simpl; lia.
    + destruct (IH (add_team st (lower (call_sport c)) (strip (call_team_name c))))
        as (new & H1 & H2 & H3 & H4 & H5 & H6).
      exists (Team (lower (call_sport c)) (strip (call_team_name c)) :: new).
      simpl in H1, H2, H3, H4. rewrite <- !app_assoc in H1, H2.
      rewrite Haa. simpl. repeat split; auto; [lia|].
      apply Forall_cons. split; [|exact H6].
      simpl. repeat split; auto using strip_idem, lower_idem.
Qed.

(** X18.  [reset_new_teams_tracker] empties the session log and nothing
    else: the teams list and the cache are kept, and a call of
    [standardize_team_name] returns the same name and details, and leaves
    the same teams list and cache, as without the reset. *)
Theorem reset_new_teams_tracker_only_clears_log (st : standardizer)
    (team_name sp : string) (aa : bool) :
  get_newly_added_teams (reset_new_teams_tracker st) = []
  /\ teams_map (reset_new_teams_tracker st) = teams_map st
  /\ _sport_teams_cache (reset_new_teams_tracker st) = _sport_teams_cache st
  /\ fst (standardize_team_name difflib_ratio (reset_new_teams_tracker st)
            team_name sp aa)
     = fst (standardize_team_name difflib_ratio st team_name sp aa)
  /\ teams_map (snd (standardize_team_name difflib_ratio
                       (reset_new_teams_tracker st) team_name sp aa))
     = teams_map (snd (standardize_team_name difflib_ratio st team_name sp aa))
  /\ _sport_teams_cache (snd (standardize_team_name difflib_ratio
                       (reset_new_teams_tracker st) team_name sp aa))
     = _sport_teams_cache
         (snd (standardize_team_name difflib_ratio st team_name sp aa)).
Proof.
  split; [reflexivity|]. split; [reflexivity|]. split; [reflexivity|].
  destruct (string_dec (strip team_name) "") as [Hq|Hq].
  { rewrite !standardize_blank by exact Hq. repeat split; reflexivity. }
  rewrite !(standardize_nonblank _ _ _ _ _ Hq). cbv zeta.
  cbn [reset_new_teams_tracker _sport_teams_cache threshold auto_add_threshold].
  destruct (match _sport_teams_cache st !! lower sp with
            | Some l => List.find _ l | None => None end);
    [repeat split; reflexivity|].
  destruct (match _sport_teams_cache st !! lower sp with
            | Some l => find_best_match _ _ _ l | None => None end)
    as [[m sc]|]; [repeat split; reflexivity|].
  destruct (match _sport_teams_cache st !! lower sp with
            | Some l => best_existing _ _ l _ _ | None => _ end) as [bs bc].
  destruct (aa && Qltb bs (auto_add_threshold st)); repeat split; reflexivity.
Qed.

End CallFacts.

(** * Manual additions *)

Lemma existsb_and_find {A : Type} (f : A -> bool) (b : bool) (l : list A) :
  existsb (fun x => f x && b) l
  = match List.find f l with Some _ => b | None => false end.
Proof.
  induction l as [|x l IH]; simpl; [reflexivity|].
  destruct (f x); simpl; [|exact IH].
  destruct b; simpl; [reflexivity|]. rewrite IH.
  destruct (List.find f l); reflexivity.
Qed.

Lemma find_app_last {A : Type} (f : A -> bool) (l : list A) (x : A) :
  (forall y, y ∈ l -> f y = false) -> f x = true ->
  List.find f (l ++ [x]) = Some x.
Proof.
  intros Hl Hx. induction l as [|y l IH]; simpl.
  - rewrite Hx. reflexivity.
  - rewrite (Hl y) by (apply elem_of_cons; left; reflexivity).
    apply IH. intros z Hz. apply Hl. apply elem_of_cons. right. exact Hz.
Qed.

Section ManualFacts.

Variable difflib_ratio : string -> string -> Q.

Local Abbreviation sim := (calculate_similarity difflib_ratio).

Lemma add_team_manually_blank (st : standardizer) (team_name sp : string)
    (force : bool) :
  strip team_name = "" ->
  add_team_manually difflib_ratio st team_name sp force = (false, st).
Proof.
  intros H. unfold add_team_manually. rewrite H. simpl.
  rewrite orb_true_r. reflexivity.
Qed.

(** The body of the function once the blank test has been passed. *)
Lemma add_team_manually_nonblank (st : standardizer) (team_name sp : string)
    (force : bool) :
  strip team_name <> "" ->
  add_team_manually difflib_ratio st team_name sp force =
  let q := strip team_name in
  let names := _sport_teams_cache st !! lower sp in
  if force then (true, add_team st (lower sp) q)
  else
    match
      match names with
      | Some l => List.find (fun c => String.eqb (lower c) (lower q)) l
      | None => None
      end
    with
    | Some _ => (false, st)
    | None =>
        match
          match names with
          | Some l => find_best_match difflib_ratio (threshold st) q l
          | None => None
          end
        with
        | Some _ => (false, st)
        | None => (true, add_team st (lower sp) q)
        end
    end.
Proof.
  intros H. unfold add_team_manually.
  rewrite (strip_nonempty_truthy _ H), (proj2 (truthy_true _) H). simpl.
  destruct (_sport_teams_cache st !! lower sp) as [l|].
  - rewrite existsb_and_find. destruct force; simpl.
    + destruct (List.find _ l); reflexivity.
    + destruct (List.find _ l); reflexivity.
  - destruct force; reflexivity.
Qed.

(** X19.  What [add_team_manually] decides.  With [force] it adds every
    name that is not blank, trimmed and under the lowercased sport, and
    refuses a blank one.  Without [force] it adds exactly the names that
    [standardize_team_name] would answer with [auto_added] or
    [no_match_no_add], that is the names with neither an exact nor a fuzzy
    match in the sport, whatever the auto-add threshold. *)
Theorem add_team_manually_decision (st : standardizer) (team_name sp : string)
    (aa : bool) :
  add_team_manually difflib_ratio st team_name sp true
  = (if truthy (strip team_name)
     then (true, add_team st (lower sp) (strip team_name))
     else (false, st))
  /\ add_team_manually difflib_ratio st team_name sp false
     = match snd (fst (standardize_team_name difflib_ratio st team_name sp aa)) with
       | AutoAdded _ _ | NoMatchNoAdd _ _ _ =>
           (true, add_team st (lower sp) (strip team_name))
       | _ => (false, st)
       end.
Proof.
  split.
  { destruct (string_dec (strip team_name) "") as [Hq|Hq].
    - rewrite add_team_manually_blank by exact Hq. rewrite Hq. reflexivity.
    - rewrite (add_team_manually_nonblank _ _ _ _ Hq).
      apply truthy_true in Hq. rewrite Hq. reflexivity. }
  destruct (string_dec (strip team_name) "") as [Hq|Hq].
  { rewrite add_team_manually_blank, standardize_blank by exact Hq. reflexivity. }
  rewrite (add_team_manually_nonblank _ _ _ _ Hq),
    (standardize_nonblank _ _ _ _ _ Hq). cbv zeta.
  destruct (match _sport_teams_cache st !! lower sp with
            | Some l => List.find _ l | None => None end); [reflexivity|].
  destruct (match _sport_teams_cache st !! lower sp with
            | Some l => find_best_match _ _ _ l | None => None end)
    as [[m sc]|]; [reflexivity|].
  destruct (match _sport_teams_cache st !! lower sp with
            | Some l => best_existing _ _ l _ _ | None => _ end) as [bs bc].
  destruct (aa && Qltb bs (auto_add_threshold st)); reflexivity.
Qed.

Lemma add_team_manually_step (st : standardizer) (team_name sp : string) :
  add_team_manually difflib_ratio st team_name sp false = (false, st)
  \/ (add_team_manually difflib_ratio st team_name sp false
      = (true, add_team st (lower sp) (strip team_name))
      /\ strip team_name <> ""
      /\ forall c, c ∈ default [] (_sport_teams_cache st !! lower sp) ->
           lower c <> lower (strip team_name)).
Proof.
  destruct (string_dec (strip team_name) "") as [Hq|Hq].
  { left. apply add_team_manually_blank. exact Hq. }
  rewrite (add_team_manually_nonblank _ _ _ _ Hq). cbv zeta.
  destruct (match _sport_teams_cache st !! lower sp with
            | Some l => List.find _ l | None => None end) eqn:Ex;
    [left; reflexivity|].
  destruct (match _sport_teams_cache st !! lower sp with
            | Some l => find_best_match _ _ _ l | None => None end)
    as [[m sc]|]; [left; reflexivity|].
  right. repeat split; auto.
  intros c Hc. destruct (_sport_teams_cache st !! lower sp) as [l|]; simpl in Hc.
  - rewrite find_none_iff in Ex. apply String.eqb_neq. auto.
  - apply elem_of_nil in Hc. contradiction.
Qed.

(** X20.  [add_team_manually] without [force] keeps the two invariants of
    the registry: every named entry is listed by the cache, and no two
    entries share the key [(sport.lower(), name.lower())]. *)
Theorem add_team_manually_keeps_keys_unique (st : standardizer)
    (team_name sp : string) :
  covered st -> NoDup (map key (teams_map st)) ->
  covered (snd (add_team_manually difflib_ratio st team_name sp false))
  /\ NoDup (map key
       (teams_map (snd (add_team_manually difflib_ratio st team_name sp false)))).
Proof.
  intros Hcov Hnd.
  destruct (add_team_manually_step st team_name sp) as [->|(-> & Hq & Hfresh)];
    [split; assumption|].
  simpl. split.
  - apply add_team_covered; [apply lower_idem | exact Hcov].
  - apply add_team_unique; assumption.
Qed.

(** X21.  A name added by [add_team_manually] without [force] is found
    again: any later name equal to it up to case and surrounding whitespace,
    under a sport equal up to case, is answered [exact_match] with the name
    as it was added, and the standardizer is left unchanged. *)
Theorem add_team_manually_then_exact_match (st st' : standardizer)
    (team_name sp : string) :
  add_team_manually difflib_ratio st team_name sp false = (true, st') ->
  forall team_name' sp' aa,
    lower (strip team_name') = lower (strip team_name) ->
    lower sp' = lower sp ->
    standardize_team_name difflib_ratio st' team_name' sp' aa
    = (strip team_name, ExactMatch 1, st').
Proof.
  intros Hadd n' sp' aa Hn Hsp.
  destruct (add_team_manually_step st team_name sp) as [E|(E & Hq & Hfresh)];
    rewrite E in Hadd; [discriminate Hadd|].
  injection Hadd as <-.
  assert (Hq' : strip n' <> "").
  { intros E'. rewrite E' in Hn. symmetry in Hn.
    apply (proj1 (lower_eq_empty _)) in Hn. contradiction. }
  rewrite (standardize_nonblank _ _ _ _ _ Hq'). cbv zeta.
  rewrite Hsp. simpl. unfold cache_append. rewrite lookup_insert_eq.
  rewrite find_app_last; [reflexivity| |].
  - intros y Hy. apply String.eqb_neq. rewrite Hn. apply Hfresh. exact Hy.
  - apply String.eqb_eq. symmetry. exact Hn.
Qed.

End ManualFacts.

Lemma add_team_manually_keeps_keys_unique_witness :
  covered ajax_only_registry
  /\ NoDup (map key (teams_map ajax_only_registry))
  /\ covered (snd (add_team_manually Difflib.sequence_ratio ajax_only_registry
                     "Feyenoord" "Soccer" false))
  /\ NoDup (map key
       (teams_map (snd (add_team_manually Difflib.sequence_ratio
                          ajax_only_registry "Feyenoord" "Soccer" false)))).
Proof.
  assert (H1 : covered ajax_only_registry).
  { apply init_covered. intros t Ht _. apply list_elem_of_singleton in Ht.
    subst t. discriminate. }
  assert (H2 : NoDup (map key (teams_map ajax_only_registry))).
  { apply NoDup_singleton. }
  split; [exact H1|]. split; [exact H2|].
  exact (add_team_manually_keeps_keys_unique Difflib.sequence_ratio _ _ _ H1 H2).
Defined.

Lemma add_team_manually_then_exact_match_witness :
  add_team_manually Difflib.sequence_ratio ajax_only_registry " Feyenoord " "Soccer"
    false
  = (true, add_team ajax_only_registry "soccer" "Feyenoord")
  /\ lower (strip "FEYENOORD  ") = lower (strip " Feyenoord ")
  /\ lower "SOCCER" = lower "Soccer"
  /\ standardize_team_name Difflib.sequence_ratio
       (add_team ajax_only_registry "soccer" "Feyenoord") "FEYENOORD  " "SOCCER" true
     = (strip " Feyenoord ", ExactMatch 1,
        add_team ajax_only_registry "soccer" "Feyenoord").
Proof.
  assert (H1 : add_team_manually Difflib.sequence_ratio ajax_only_registry
                 " Feyenoord " "Soccer" false
               = (true, add_team ajax_only_registry "soccer" "Feyenoord"))
    by (vm_compute; reflexivity).
  split; [exact H1|]. split; [reflexivity|]. split; [reflexivity|].
  exact (add_team_manually_then_exact_match Difflib.sequence_ratio _ _ _ _ H1
           "FEYENOORD  " "SOCCER" true eq_refl eq_refl).
Defined.


(** * Cleaning and counting *)

Lemma filter_length_le {A : Type} (f : A -> bool) (l : list A) :
  List.length (List.filter f l) <= List.length l.
Proof. induction l as [|x l IH]; simpl; [lia|]. destruct (f x); simpl; lia. Qed.

Lemma filter_idem {A : Type} (f : A -> bool) (l : list A) :
  List.filter f (List.filter f l) = List.filter f l.
Proof.
  induction l as [|x l IH]; simpl; [reflexivity|].
  destruct (f x) eqn:E; simpl; [rewrite E, IH; reflexivity | exact IH].
Qed.

(** X22.  [clean_empty_teams] keeps exactly the entries whose name is not
    blank, returns the number of entries it removed, leaves the cache as
    [_build_cache] builds it from the entries kept, and removes nothing
    when called again. *)
Theorem clean_empty_teams_removes_blank_names (st : standardizer) :
  fst (clean_empty_teams st)
  + List.length (teams_map (snd (clean_empty_teams st)))
  = List.length (teams_map st)
  /\ (forall t, t ∈ teams_map (snd (clean_empty_teams st))
        <-> t ∈ teams_map st /\ strip (canonical_team_name t) <> "")
  /\ _sport_teams_cache (snd (clean_empty_teams st))
     = _build_cache (teams_map (snd (clean_empty_teams st)))
  /\ clean_empty_teams (snd (clean_empty_teams st))
     = (0, snd (clean_empty_teams st)).
Proof.
  unfold clean_empty_teams. simpl.
  pose proof (filter_length_le named (teams_map st)) as Hle. unfold named in Hle.
  split; [lia|]. split; [|split; [reflexivity|]].
  - intros t. rewrite !list_elem_of_In, filter_In, truthy_true. reflexivity.
  - rewrite filter_idem, Nat.sub_diag. reflexivity.
Qed.

Lemma count_team_blanks (l : list team) :
  forall acc,
    snd (fold_left count_team l acc) + List.length (List.filter named l)
    = snd acc + List.length l.
Proof.
  induction l as [|t l IH]; intros acc; simpl; [lia|].
  specialize (IH (count_team acc t)).
  assert (Hs : snd (count_team acc t)
               = snd acc + (if named t then 0 else 1)).
  { unfold count_team, named.
    destruct (truthy (strip (canonical_team_name t))); simpl; lia. }
  destruct (named t); simpl; lia.
Qed.

Lemma count_team_fst (l : list team) :
  forall m e1 e2,
    fst (fold_left count_team l (m, e1)) = fst (fold_left count_team l (m, e2)).
Proof.
  induction l as [|t l IH]; intros m e1 e2; simpl; [reflexivity|].
  unfold count_team. simpl.
  destruct (negb (truthy (strip (canonical_team_name t)))); apply IH.
Qed.

Lemma count_team_named (l : list team) :
  forall acc,
    fold_left count_team (List.filter named l) acc
    = (fst (fold_left count_team l acc), snd acc).
Proof.
  induction l as [|t l IH]; intros acc.
  - destruct acc; reflexivity.
  - cbn [List.filter fold_left].
    assert (Hc : count_team acc t
                 = if named t
                   then (<[ lower (sport t)
                            := default 0 (fst acc !! lower (sport t)) + 1 ]>
                           (fst acc), snd acc)
                   else (fst acc, S (snd acc))).
    { unfold count_team, named.
      destruct (truthy (strip (canonical_team_name t))); reflexivity. }
    destruct (named t) eqn:E.
    + cbn [fold_left]. rewrite IH, Hc. reflexivity.
    + rewrite IH, Hc. destruct acc as [m e]. simpl.
      rewrite (count_team_fst l m e (S e)). reflexivity.
Qed.

(** X23.  The number [clean_empty_teams] returns is the [empty_names] of
    [get_statistics] taken before the call; after the call [empty_names] is
    0, the count of each sport is unchanged and [total_teams] has dropped
    by the number returned. *)
Theorem clean_empty_teams_matches_statistics (st : standardizer) :
  fst (clean_empty_teams st) = empty_names (get_statistics st)
  /\ empty_names (get_statistics (snd (clean_empty_teams st))) = 0
  /\ sports (get_statistics (snd (clean_empty_teams st)))
     = sports (get_statistics st)
  /\ total_teams (get_statistics (snd (clean_empty_teams st)))
     + fst (clean_empty_teams st)
     = total_teams (get_statistics st).
Proof.
  unfold clean_empty_teams, get_statistics. simpl.
  pose proof (filter_length_le named (teams_map st)) as Hle.
  pose proof (count_team_blanks (teams_map st) (∅, 0)) as Hb.
  pose proof (count_team_named (teams_map st) (∅, 0)) as Hn.
  unfold named in *. simpl in Hb. rewrite Hn. simpl.
  repeat split; lia.
Qed.

Lemma filter_key_NoDup (f : team -> bool) (l : list team) :
  NoDup (map key l) -> NoDup (map key (List.filter f l)).
Proof.
  induction l as [|t l IH]; simpl; intros H; [exact H|].
  apply NoDup_cons in H. destruct H as [Hnotin Hnd].
  destruct (f t); simpl; [|exact (IH Hnd)].
  apply NoDup_cons. split; [|exact (IH Hnd)].
  intros Hin. apply Hnotin.
  apply list_elem_of_fmap in Hin. destruct Hin as (t' & Hk & Ht').
  apply list_elem_of_fmap. exists t'. split; [exact Hk|].
  apply list_elem_of_In in Ht'. apply filter_In in Ht'.
  apply list_elem_of_In. apply Ht'.
Qed.

(** X24.  When no two entries share a key and every named entry has a
    sport, [clean_empty_teams] leaves a registry with the same two
    properties whose cache lists every entry kept. *)
Theorem clean_empty_teams_keeps_keys_unique (st : standardizer) :
  NoDup (map key (teams_map st)) ->
  (forall t, t ∈ teams_map st -> canonical_team_name t <> "" -> sport t <> "") ->
  covered (snd (clean_empty_teams st))
  /\ in_sync (snd (clean_empty_teams st))
  /\ NoDup (map key (teams_map (snd (clean_empty_teams st)))).
Proof.
  intros Hnd Hsp. unfold clean_empty_teams. simpl.
  split; [|split; [reflexivity | apply filter_key_NoDup; exact Hnd]].
  intros t Ht Hn. simpl in *. rewrite build_cache_fold.
  apply cache_fold_covers; [exact Ht | | exact Hn].
  apply list_elem_of_In, filter_In in Ht. destruct Ht as [Ht _].
  apply Hsp; [apply list_elem_of_In; exact Ht | exact Hn].
Qed.


Lemma clean_empty_teams_keeps_keys_unique_witness :
  NoDup (map key (teams_map blank_entry_registry))
  /\ (forall t, t ∈ teams_map blank_entry_registry ->
        canonical_team_name t <> "" -> sport t <> "")
  /\ covered (snd (clean_empty_teams blank_entry_registry))
  /\ in_sync (snd (clean_empty_teams blank_entry_registry))
  /\ NoDup (map key (teams_map (snd (clean_empty_teams blank_entry_registry)))).
Proof.
  assert (H1 : NoDup (map key (teams_map blank_entry_registry))).
  { simpl. repeat (apply NoDup_cons; split;
      [rewrite ?elem_of_cons, elem_of_nil; intros H;
       repeat (destruct H as [H|H]; [discriminate H|]); exact H|]).
    apply NoDup_nil. exact I. }
  assert (H2 : forall t, t ∈ teams_map blank_entry_registry ->
                 canonical_team_name t <> "" -> sport t <> "").
  { intros t Ht _. simpl in Ht. rewrite ?elem_of_cons, elem_of_nil in Ht.
    repeat (destruct Ht as [->|Ht]; [discriminate|]). destruct Ht. }
  split; [exact H1|]. split; [exact H2|].
  exact (clean_empty_teams_keeps_keys_unique _ H1 H2).
Defined.

(** ** Every entry is counted once *)

Lemma sum_values_add (m : gmap string nat) (k : string) :
  sum_values (<[k := default 0 (m !! k) + 1]> m) = S (sum_values m).
Proof.
  unfold sum_values.
  assert (Hcomm : forall (m' : gmap string nat) (j1 j2 : string) (z1 z2 y : nat),
            j1 <> j2 -> m' !! j1 = Some z1 -> m' !! j2 = Some z2 ->
            z1 + (z2 + y) = z2 + (z1 + y)) by (intros; lia).
  destruct (m !! k) as [n|] eqn:E; simpl.
  - rewrite <- (insert_delete_eq m k).
    rewrite map_fold_insert_L;
      [|apply Hcomm | apply lookup_delete_eq].
    rewrite (map_fold_delete_L _ 0 k n m); [lia | apply Hcomm | exact E].
  - rewrite map_fold_insert_L; [lia | apply Hcomm | exact E].
Qed.

Lemma count_team_total (l : list team) :
  forall acc,
    sum_values (fst (fold_left count_team l acc)) + snd (fold_left count_team l acc)
    = sum_values (fst acc) + snd acc + List.length l.
Proof.
  induction l as [|t l IH]; intros acc; simpl; [lia|].
  rewrite IH. unfold count_team.
  destruct (negb (truthy (strip (canonical_team_name t)))); simpl.
  - lia.
  - rewrite sum_values_add. lia.
Qed.

Lemma count_team_lookup (l : list team) (k : string) :
  forall acc,
    default 0 (fst (fold_left count_team l acc) !! k)
    = default 0 (fst acc !! k)
      + List.length
          (List.filter
             (fun t => String.eqb (lower (sport t)) k && named t) l).
Proof.
  induction l as [|t l IH]; intros acc; simpl; [lia|].
  rewrite IH. unfold count_team, named.
  destruct (truthy (strip (canonical_team_name t))); simpl.
  - destruct (String.eqb (lower (sport t)) k) eqn:Ek; simpl.
    + apply String.eqb_eq in Ek. subst k. rewrite lookup_insert_eq. simpl. lia.
    + apply String.eqb_neq in Ek. rewrite lookup_insert_ne by exact Ek. lia.
  - rewrite andb_false_r. lia.
Qed.

(** X25.  [get_statistics] counts every entry once: [total_teams] is
    [empty_names] plus the sum of the counts by sport, [empty_names] is the
    number of entries with a blank name, and the count of a sport is the
    number of entries with that lowercased sport and a name that is not
    blank. *)
Theorem get_statistics_counts_every_team_once (st : standardizer) :
  total_teams (get_statistics st)
  = empty_names (get_statistics st) + sum_values (sports (get_statistics st))
  /\ empty_names (get_statistics st)
     = List.length (List.filter (fun t => negb (named t)) (teams_map st))
  /\ forall k,
       default 0 (sports (get_statistics st) !! k)
       = List.length
           (List.filter
              (fun t => String.eqb (lower (sport t)) k && named t)
              (teams_map st)).
Proof.
  unfold get_statistics. simpl.
  pose proof (count_team_total (teams_map st) (∅, 0)) as Ht.
  pose proof (count_team_blanks (teams_map st) (∅, 0)) as Hb.
  simpl in Ht, Hb. unfold sum_values at 2 in Ht. rewrite map_fold_empty in Ht.
  split; [lia|]. split.
  - assert (Hsplit : forall l : list team,
              List.length (List.filter (fun t => negb (named t)) l)
              + List.length (List.filter named l) = List.length l).
    { induction l as [|t l IH]; simpl; [reflexivity|].
      destruct (named t); simpl; lia. }
    specialize (Hsplit (teams_map st)). lia.
  - intros k. rewrite count_team_lookup. simpl. rewrite lookup_empty. reflexivity.
Qed.


(** * Dictionaries *)

Lemma dict_get_set (fields : list (string * json)) (k k' : string) (v : json) :
  dict_get (dict_set fields k v) k'
  = if String.eqb k k' then Some v else dict_get fields k'.
Proof.
  induction fields as [|[k0 v0] rest IH]; simpl; [reflexivity|].
  destruct (String.eqb k0 k) eqn:E0; simpl.
  - apply String.eqb_eq in E0. subst k0.
    destruct (String.eqb k k'); reflexivity.
  - rewrite IH. destruct (String.eqb k0 k') eqn:E1; [|reflexivity].
    apply String.eqb_eq in E1. subst k0. rewrite String.eqb_sym, E0. reflexivity.
Qed.

Lemma dict_set_values (fields : list (string * json)) (k : string) (v x : json) :
  x ∈ map snd (dict_set fields k v) -> x = v \/ x ∈ map snd fields.
Proof.
  induction fields as [|[k0 v0] rest IH]; simpl; intros H.
  - apply list_elem_of_singleton in H. left. exact H.
  - destruct (String.eqb k0 k); simpl in H; apply elem_of_cons in H.
    + destruct H as [H|H]; [left; exact H|].
      right. apply elem_of_cons. right. exact H.
    + destruct H as [H|H]; [right; apply elem_of_cons; left; exact H|].
      destruct (IH H) as [H'|H']; [left; exact H'|].
      right. apply elem_of_cons. right. exact H'.
Qed.

Lemma dict_get_value (fields : list (string * json)) (k : string) (v : json) :
  dict_get fields k = Some v -> v ∈ map snd fields.
Proof.
  induction fields as [|[k0 v0] rest IH]; simpl; intros H; [discriminate H|].
  destruct (String.eqb k0 k).
  - injection H as ->. apply elem_of_cons. left. reflexivity.
  - apply elem_of_cons. right. exact (IH H).
Qed.

Lemma combine_fst_snd {A B : Type} (l : list (A * B)) :
  combine (map fst l) (map snd l) = l.
Proof.
  induction l as [|[a b] l IH]; simpl; [reflexivity|]. rewrite IH. reflexivity.
Qed.

Lemma json_depth_pos (v : json) : 1 <= json_depth v.
Proof. destruct v; simpl; lia. Qed.

Lemma json_depth_item (items : list json) (v : json) :
  v ∈ items ->
  json_depth v <= fold_right (fun x d => Nat.max (json_depth x) d) 0 items.
Proof.
  induction items as [|x items IH]; intros H.
  - apply elem_of_nil in H. destruct H.
  - apply elem_of_cons in H. cbn [fold_right]. destruct H as [->|H]; [lia|].
    specialize (IH H). lia.
Qed.

Lemma json_depth_value (fields : list (string * json)) (v : json) :
  v ∈ map snd fields ->
  json_depth v
  <= fold_right (fun kv d => Nat.max (json_depth (snd kv)) d) 0 fields.
Proof.
  induction fields as [|[k x] fields IH]; intros H.
  - apply elem_of_nil in H. destruct H.
  - cbn [map snd] in H. apply elem_of_cons in H. cbn [fold_right snd].
    destruct H as [->|H]; [lia|]. specialize (IH H). lia.
Qed.

(** * The loop over values *)

Lemma walk_list_same (f : walk -> json -> outcome (json * walk)) (l : list json) :
  forall w, (forall v, v ∈ l -> f w v = Returns (v, w)) ->
    walk_list f w l = Returns (l, w).
Proof.
  induction l as [|v l IH]; intros w H; simpl; [reflexivity|].
  rewrite (H v) by (apply elem_of_cons; left; reflexivity).
  rewrite IH; [reflexivity|].
  intros v' Hv'. apply H. apply elem_of_cons. right. exact Hv'.
Qed.

Lemma walk_list_keeps (f : walk -> json -> outcome (json * walk))
    (P : walk -> Prop) (l : list json) :
  (forall w v v' w', v ∈ l -> P w -> f w v = Returns (v', w') -> P w') ->
  forall w l' w', P w -> walk_list f w l = Returns (l', w') -> P w'.
Proof.
  induction l as [|v l IH]; intros Hf w l' w' Hw H; simpl in H.
  - injection H as _ <-. exact Hw.
  - destruct (f w v) as [[v1 w1]| |] eqn:E; try discriminate H.
    destruct (walk_list f w1 l) as [[l1 w2]| |] eqn:E'; try discriminate H.
    injection H as _ <-.
    apply (IH (fun w v v' w' Hv => Hf w v v' w' (proj2 (elem_of_cons _ _ _) (or_intror Hv)))
             w1 l1 w2); [|exact E'].
    apply (Hf w v v1 w1); [apply elem_of_cons; left; reflexivity | exact Hw | exact E].
Qed.

Lemma walk_list_fuel (f : walk -> json -> outcome (json * walk)) (l : list json) :
  (forall w v, v ∈ l -> f w v <> OutOfFuel) ->
  forall w, walk_list f w l <> OutOfFuel.
Proof.
  induction l as [|v l IH]; intros Hf w; simpl; [discriminate|].
  pose proof (Hf w v (proj2 (elem_of_cons _ _ _) (or_introl eq_refl))) as Hv.
  destruct (f w v) as [[v1 w1]| |]; [|discriminate|congruence].
  assert (Hl : forall w v, v ∈ l -> f w v <> OutOfFuel).
  { intros w0 v0 H0. apply Hf. apply elem_of_cons. right. exact H0. }
  specialize (IH Hl w1).
  destruct (walk_list f w1 l) as [[l1 w2]| |]; [discriminate|discriminate|congruence].
Qed.


(** * The walk over a document *)

Section WalkFacts.

Variable difflib_ratio : string -> string -> Q.

Lemma process_recursive_unfold (fuel : nat) (ovr : option string) (w : walk)
    (obj : json) :
  process_recursive difflib_ratio (S fuel) ovr w obj
  = match obj with
    | JObj fields =>
        match process_fields difflib_ratio (sport_field_of ovr fields)
                team_fields w fields with
        | Returns (fields', w') =>
            match walk_list (process_recursive difflib_ratio fuel ovr) w'
                    (map snd fields') with
            | Returns (values, w'') =>
                Returns (JObj (combine (map fst fields') values), w'')
            | Raises => Raises
            | OutOfFuel => OutOfFuel
            end
        | Raises => Raises
        | OutOfFuel => OutOfFuel
        end
    | JArr items =>
        match walk_list (process_recursive difflib_ratio fuel ovr) w items with
        | Returns (items', w') => Returns (JArr items', w')
        | Raises => Raises
        | OutOfFuel => OutOfFuel
        end
    | _ => Returns (obj, w)
    end.
Proof.
  assert (Heach : forall l w0,
    (fix each (w : walk) (l : list json) : outcome (list json * walk) :=
       match l with
       | [] => Returns ([], w)
       | v :: rest =>
           match process_recursive difflib_ratio fuel ovr w v with
           | Returns (v', w') =>
               match each w' rest with
               | Returns (rest', w'') => Returns (v' :: rest', w'')
               | Raises => Raises
               | OutOfFuel => OutOfFuel
               end
           | Raises => Raises
           | OutOfFuel => OutOfFuel
           end
       end) w0 l
    = walk_list (process_recursive difflib_ratio fuel ovr) w0 l).
  { induction l as [|v l IH]; intros w0; [reflexivity|].
    cbn [walk_list].
    destruct (process_recursive difflib_ratio fuel ovr w0 v) as [[v' w']| |];
      try reflexivity.
    rewrite IH. reflexivity. }
  destruct obj; try reflexivity.
  - cbn [process_recursive]. rewrite Heach. reflexivity.
  - cbn [process_recursive].
    destruct (process_fields difflib_ratio (sport_field_of ovr fields)
                team_fields w fields) as [[fields' w']| |]; try reflexivity.
    rewrite Heach. reflexivity.
Qed.

(** ** One value *)

Lemma standardize_value_fuel (st : standardizer) (o sf : json) :
  standardize_value difflib_ratio st o sf <> OutOfFuel.
Proof.
  unfold standardize_value. destruct o; simpl; try discriminate.
  - destruct b; discriminate.
  - destruct (negb (Qeq_bool q 0)); discriminate.
  - destruct (negb (truthy s) || negb (truthy (strip s))); [discriminate|].
    destruct sf; discriminate.
  - destruct items; discriminate.
  - destruct fields; discriminate.
Qed.

Lemma standardize_value_returns (st st' : standardizer) (o sf : json)
    (name : string) (d : details) :
  json_truthy o = true ->
  standardize_value difflib_ratio st o sf = Returns (name, d, st') ->
  exists s, o = JStr s
    /\ (st' = st
        \/ exists sp,
             st' = snd (standardize_team_name difflib_ratio st s sp true)).
Proof.
  intros Ht H. unfold standardize_value in H.
  destruct o; simpl in Ht; try discriminate Ht; try (rewrite Ht in H; discriminate H).
  - simpl in H. rewrite Ht in H. discriminate H.
  - exists s. split; [reflexivity|].
    destruct (negb (truthy s) || negb (truthy (strip s))).
    + injection H as _ _ <-. left. reflexivity.
    + destruct sf; try discriminate H. injection H as H. right. exists s0.
      rewrite H. reflexivity.
  - destruct items; [discriminate Ht | discriminate H].
  - destruct fields; [discriminate Ht | discriminate H].
Qed.


(** ** The fields of one dictionary *)

Lemma process_fields_fuel (sf : json) (todo : list string) :
  forall w fields, process_fields difflib_ratio sf todo w fields <> OutOfFuel.
Proof.
  induction todo as [|field todo IH]; intros w fields; simpl; [discriminate|].
  destruct (dict_get fields field) as [o|]; [|apply IH].
  destruct (json_truthy o); [|apply IH].
  pose proof (standardize_value_fuel (self w) o sf) as Hv.
  destruct (standardize_value difflib_ratio (self w) o sf) as [[[n d] st']| |];
    [apply IH | discriminate | congruence].
Qed.

Lemma process_fields_same (sf : json) (todo : list string) :
  forall w fields,
    (forall f, f ∈ todo ->
       match dict_get fields f with
       | Some x => negb (json_truthy x)
       | None => true
       end = true) ->
    process_fields difflib_ratio sf todo w fields = Returns (fields, w).
Proof.
  induction todo as [|field todo IH]; intros w fields H; simpl; [reflexivity|].
  assert (Hrest : forall f, f ∈ todo ->
            match dict_get fields f with
            | Some x => negb (json_truthy x)
            | None => true
            end = true).
  { intros f Hf. apply H. apply elem_of_cons. right. exact Hf. }
  specialize (H field (proj2 (elem_of_cons _ _ _) (or_introl eq_refl))).
  destruct (dict_get fields field) as [o|]; [|apply IH; exact Hrest].
  apply negb_true_iff in H. rewrite H. apply IH. exact Hrest.
Qed.

Lemma process_fields_values (sf : json) (todo : list string) :
  forall w fields fields' w',
    process_fields difflib_ratio sf todo w fields = Returns (fields', w') ->
    forall x, x ∈ map snd fields' ->
      x ∈ map snd fields
      \/ (fields <> []
          /\ ((exists s, x = JStr s)
              \/ exists o s d, x = standardization_entry o s d)).
Proof.
  induction todo as [|field todo IH]; intros w fields fields' w' H x Hx;
    simpl in H.
  - injection H as <- _. left. exact Hx.
  - destruct (dict_get fields field) as [o|] eqn:Eg; [|exact (IH _ _ _ _ H x Hx)].
    destruct (json_truthy o) eqn:Et; [|exact (IH _ _ _ _ H x Hx)].
    destruct (standardize_value difflib_ratio (self w) o sf)
      as [[[n d] st']| |] eqn:Ev; try discriminate H.
    destruct (standardize_value_returns _ _ _ _ _ _ Et Ev) as (s0 & -> & _).
    assert (Hne : fields <> []) by (intros ->; discriminate Eg).
    destruct (IH _ _ _ _ H x Hx) as [Hin|[_ Hnew]]; [|right; split; assumption].
    apply dict_set_values in Hin. destruct Hin as [->|Hin].
    { right. split; [exact Hne|]. right. exists s0, n, d. reflexivity. }
    destruct (negb (String.eqb n s0)).
    + apply dict_set_values in Hin. destruct Hin as [->|Hin]; [|left; exact Hin].
      right. split; [exact Hne|]. left. exists n. reflexivity.
    + left. exact Hin.
Qed.



Lemma standardization_entry_quiet (o s : string) (d : details) :
  no_team_fields (standardization_entry o s d) = true
  /\ json_depth (standardization_entry o s d) = 3.
Proof.
  destruct d as [| sc | sc m | bs [bc|] | bs [bc|] aat]; split; reflexivity.
Qed.


(** ** The whole document *)

Lemma no_team_fields_obj (fields : list (string * json)) :
  no_team_fields (JObj fields)
  = forallb
      (fun field =>
         match dict_get fields field with
         | Some x => negb (json_truthy x)
         | None => true
         end)
      team_fields
    && forallb (fun kv => no_team_fields (snd kv)) fields.
Proof. reflexivity. Qed.


Lemma process_recursive_same (ovr : option string) (fuel : nat) :
  forall w v, json_depth v <= fuel -> no_team_fields v = true ->
    process_recursive difflib_ratio fuel ovr w v = Returns (v, w).
Proof.
  induction fuel as [|fuel IH]; intros w v Hd Hq.
  - pose proof (json_depth_pos v). lia.
  - rewrite process_recursive_unfold. destruct v as [| b | q | s | items | fields];
      try reflexivity.
    + rewrite walk_list_same; [reflexivity|].
      intros v Hv. apply IH.
      * pose proof (json_depth_item items v Hv). simpl in Hd. lia.
      * simpl in Hq. rewrite forallb_forall in Hq. apply Hq.
        apply list_elem_of_In. exact Hv.
    + rewrite no_team_fields_obj in Hq.
      apply andb_true_iff in Hq. destruct Hq as [Hq1 Hq2].
      rewrite process_fields_same.
      * rewrite walk_list_same; [rewrite combine_fst_snd; reflexivity|].
        intros v Hv. apply IH.
        -- pose proof (json_depth_value fields v Hv). simpl in Hd. lia.
        -- rewrite forallb_forall in Hq2.
           apply list_elem_of_fmap in Hv. destruct Hv as ([k x] & -> & Hkx).
           apply (Hq2 (k, x)). apply list_elem_of_In. exact Hkx.
      * intros f Hf. rewrite forallb_forall in Hq1. apply Hq1.
        apply list_elem_of_In. exact Hf.
Qed.

Lemma process_recursive_fuel (ovr : option string) (fuel : nat) :
  forall w v, json_depth v + 2 <= fuel ->
    process_recursive difflib_ratio fuel ovr w v <> OutOfFuel.
Proof.
  induction fuel as [|fuel IH]; intros w v Hd; [lia|].
  rewrite process_recursive_unfold. destruct v as [| b | q | s | items | fields];
    try discriminate.
  - assert (Hl : forall w v, v ∈ items ->
                   process_recursive difflib_ratio fuel ovr w v <> OutOfFuel).
    { intros w0 v Hv. apply IH.
      pose proof (json_depth_item items v Hv). simpl in Hd. lia. }
    pose proof (walk_list_fuel _ items Hl w) as Hw.
    destruct (walk_list _ w items) as [[l1 w1]| |];
      [discriminate | discriminate | congruence].
  - pose proof (process_fields_fuel (sport_field_of ovr fields) team_fields w fields)
      as Hpf.
    destruct (process_fields difflib_ratio (sport_field_of ovr fields) team_fields
                w fields) as [[fields' w']| |] eqn:Ef;
      [|discriminate|congruence].
    assert (Hl : forall w v, v ∈ map snd fields' ->
                   process_recursive difflib_ratio fuel ovr w v <> OutOfFuel).
    { intros w0 v Hv.
      destruct (process_fields_values _ _ _ _ _ _ Ef v Hv) as [Hold|[Hne Hnew]].
      - apply IH. pose proof (json_depth_value fields v Hold). simpl in Hd. lia.
      - assert (Hf : 3 <= fuel).
        { destruct fields as [|[k x] fields]; [congruence|].
          pose proof (json_depth_pos x). simpl in Hd. lia. }
        destruct Hnew as [[s ->]|(o & s & d & ->)].
        + apply IH. simpl. lia.
        + destruct (standardization_entry_quiet o s d) as [Hq Hdep].
          rewrite process_recursive_same; [discriminate | lia | exact Hq]. }
    pose proof (walk_list_fuel _ (map snd fields') Hl w') as Hw.
    destruct (walk_list _ w' (map snd fields')) as [[l1 w1]| |];
      [discriminate | discriminate | congruence].
Qed.


(** ** What the walk does to the standardizer *)

Section Keeps.

Variable P : walk -> Prop.

Hypothesis P_step : forall w st' c,
  P w ->
  (st' = self w
   \/ exists team_name sp,
        st' = snd (standardize_team_name difflib_ratio (self w) team_name sp true)) ->
  P {| self := st'; changes_made := c; teams_processed := S (teams_processed w) |}.

Lemma process_fields_keeps (sf : json) (todo : list string) :
  forall w fields fields' w',
    P w ->
    process_fields difflib_ratio sf todo w fields = Returns (fields', w') ->
    P w'.
Proof.
  induction todo as [|field todo IH]; intros w fields fields' w' Hw H;
    simpl in H.
  - injection H as _ <-. exact Hw.
  - destruct (dict_get fields field) as [o|]; [|exact (IH _ _ _ _ Hw H)].
    destruct (json_truthy o) eqn:Et; [|exact (IH _ _ _ _ Hw H)].
    destruct (standardize_value difflib_ratio (self w) o sf)
      as [[[n d] st']| |] eqn:Ev; try discriminate H.
    destruct (standardize_value_returns _ _ _ _ _ _ Et Ev) as (s0 & -> & Hst).
    refine (IH _ _ _ _ _ H). apply P_step; [exact Hw|].
    destruct Hst as [->|[sp ->]]; [left; reflexivity|].
    right. exists s0, sp. reflexivity.
Qed.

Lemma process_recursive_keeps (ovr : option string) (fuel : nat) :
  forall w v v' w',
    P w ->
    process_recursive difflib_ratio fuel ovr w v = Returns (v', w') ->
    P w'.
Proof.
  induction fuel as [|fuel IH]; intros w v v' w' Hw H; [discriminate H|].
  rewrite process_recursive_unfold in H.
  destruct v as [| b | q | s | items | fields];
    try (injection H as _ <-; exact Hw).
  - destruct (walk_list _ w items) as [[l1 w1]| |] eqn:E; try discriminate H.
    injection H as _ <-.
    refine (walk_list_keeps _ P items _ w l1 w1 Hw E).
    intros w0 v v1 w2 _ Hw0 Hv. exact (IH _ _ _ _ Hw0 Hv).
  - destruct (process_fields difflib_ratio (sport_field_of ovr fields) team_fields
                w fields) as [[fields' w1]| |] eqn:Ef; try discriminate H.
    destruct (walk_list _ w1 (map snd fields')) as [[l1 w2]| |] eqn:E;
      try discriminate H.
    injection H as _ <-.
    refine (walk_list_keeps _ P (map snd fields') _ w1 l1 w2 _ E).
    + intros w0 v v1 w3 _ Hw0 Hv. exact (IH _ _ _ _ Hw0 Hv).
    + exact (process_fields_keeps _ _ _ _ _ _ Hw Ef).
Qed.

End Keeps.

(** ** [process_api_response] *)

Lemma process_api_response_cases (st : standardizer) (doc : json)
    (ovr : option string) :
  match process_recursive difflib_ratio (json_depth doc + 3) ovr
          {| self := st; changes_made := false; teams_processed := 0 |} doc with
  | Returns (JObj fields, w) =>
      process_api_response difflib_ratio st doc ovr
      = Returns
          (JObj (dict_set fields "_processing_summary"
                   (processing_summary (teams_processed w) (changes_made w)
                      (List.length (_new_teams_added (self w))))),
           self w)
  | Returns (_, _) | Raises =>
      process_api_response difflib_ratio st doc ovr = Raises
  | OutOfFuel => False
  end.
Proof.
  pose proof (process_recursive_fuel ovr (json_depth doc + 3)
                {| self := st; changes_made := false; teams_processed := 0 |}
                doc ltac:(lia)) as Hf.
  unfold process_api_response.
  destruct (process_recursive difflib_ratio (json_depth doc + 3) ovr _ doc)
    as [[v w]| |]; [|reflexivity|congruence].
  destruct v; reflexivity.
Qed.

Lemma process_recursive_shape (ovr : option string) (fuel : nat) (w w' : walk)
    (v v' : json) :
  process_recursive difflib_ratio fuel ovr w v = Returns (v', w') ->
  match v with
  | JObj _ => exists fields', v' = JObj fields'
  | JArr _ => exists items', v' = JArr items'
  | _ => v' = v
  end.
Proof.
  destruct fuel as [|fuel]; [discriminate|].
  rewrite process_recursive_unfold. intros H.
  destruct v as [| b | q | s | items | fields];
    try (injection H as <- _; reflexivity).
  - destruct (walk_list _ w items) as [[l1 w1]| |]; try discriminate H.
    injection H as <- _. eexists; reflexivity.
  - destruct (process_fields difflib_ratio (sport_field_of ovr fields) team_fields
                w fields) as [[fields' w1]| |]; try discriminate H.
    destruct (walk_list _ w1 (map snd fields')) as [[l1 w2]| |];
      try discriminate H.
    injection H as <- _. eexists; reflexivity.
Qed.

(** X26.  [process_api_response] returns a dictionary or raises; the
    nesting bound of [process_recursive] is never reached.  A document that
    is not a dictionary always raises (the summary cannot be stored in it).
    A dictionary that is returned holds the entry [_processing_summary],
    whose [new_teams_added] is the length of the whole session log. *)
Theorem process_api_response_returns_dictionary_or_raises (st : standardizer)
    (ovr : option string) :
  process_api_response difflib_ratio st JNull ovr = Raises
  /\ (forall b, process_api_response difflib_ratio st (JBool b) ovr = Raises)
  /\ (forall q, process_api_response difflib_ratio st (JNum q) ovr = Raises)
  /\ (forall s, process_api_response difflib_ratio st (JStr s) ovr = Raises)
  /\ (forall items,
        process_api_response difflib_ratio st (JArr items) ovr = Raises)
  /\ (forall fields,
        process_api_response difflib_ratio st (JObj fields) ovr = Raises
        \/ exists fields' st' processed changes,
             process_api_response difflib_ratio st (JObj fields) ovr
             = Returns (JObj fields', st')
             /\ dict_get fields' "_processing_summary"
                = Some (processing_summary processed changes
                          (List.length (_new_teams_added st')))).
Proof.
  split; [reflexivity|]. split; [reflexivity|]. split; [reflexivity|].
  split; [reflexivity|]. split.
  - intros items.
    pose proof (process_api_response_cases st (JArr items) ovr) as H.
    destruct (process_recursive difflib_ratio _ ovr _ (JArr items))
      as [[v w]| |] eqn:E; [|exact H|destruct H].
    apply process_recursive_shape in E. destruct E as [items' ->]. exact H.
  - intros fields.
    pose proof (process_api_response_cases st (JObj fields) ovr) as H.
    destruct (process_recursive difflib_ratio _ ovr _ (JObj fields))
      as [[v w]| |] eqn:E; [|left; exact H|destruct H].
    apply process_recursive_shape in E. destruct E as [fields' ->].
    right. eexists _, _, _, _. split; [exact H|].
    rewrite dict_get_set, String.eqb_refl. reflexivity.
Qed.



(** X29.  [process_api_response] keeps the two invariants of the registry
    when it returns: every named entry is listed by the cache, and no two
    entries share the key [(sport.lower(), name.lower())]. *)
Theorem process_api_response_keeps_keys_unique (st st' : standardizer)
    (doc doc' : json) (ovr : option string) :
  covered st -> NoDup (map key (teams_map st)) ->
  process_api_response difflib_ratio st doc ovr = Returns (doc', st') ->
  covered st' /\ NoDup (map key (teams_map st')).
Proof.
  intros Hcov Hnd H.
  pose proof (process_api_response_cases st doc ovr) as Hc.
  destruct (process_recursive difflib_ratio _ ovr _ doc) as [[v w]| |] eqn:E;
    [| rewrite Hc in H; discriminate H | destruct Hc].
  assert (Hw : covered (self w) /\ NoDup (map key (teams_map (self w)))).
  { refine (process_recursive_keeps
              (fun w => covered (self w) /\ NoDup (map key (teams_map (self w))))
              _ ovr _ _ _ _ _ _ E); [|simpl; split; assumption].
    intros w0 st0 c [H1 H2] [->|(n & sp & ->)]; simpl; [split; assumption|].
    apply standardize_invariant; assumption. }
  destruct v; rewrite Hc in H; try discriminate H.
  injection H as _ <-. exact Hw.
Qed.

(** X30.  When [process_api_response] returns, the teams list and the
    session log have grown by the same entries, no more of them than the
    [teams_processed] of the summary; the thresholds are unchanged, and
    [new_teams_added] counts the whole session log, the entries added by
    earlier calls included. *)
Theorem process_api_response_only_appends (st st' : standardizer)
    (doc doc' : json) (ovr : option string) :
  process_api_response difflib_ratio st doc ovr = Returns (doc', st') ->
  exists fields' processed changes new,
    doc' = JObj fields'
    /\ dict_get fields' "_processing_summary"
       = Some (processing_summary processed changes
                 (List.length (_new_teams_added st')))
    /\ teams_map st' = teams_map st ++ new
    /\ _new_teams_added st' = _new_teams_added st ++ new
    /\ List.length new <= processed
    /\ threshold st' = threshold st
    /\ auto_add_threshold st' = auto_add_threshold st.
Proof.
  intros H.
  pose proof (process_api_response_cases st doc ovr) as Hc.
  destruct (process_recursive difflib_ratio _ ovr _ doc) as [[v w]| |] eqn:E;
    [| rewrite Hc in H; discriminate H | destruct Hc].
  assert (Hw : exists new,
             teams_map (self w) = teams_map st ++ new
             /\ _new_teams_added (self w) = _new_teams_added st ++ new
             /\ List.length new <= teams_processed w
             /\ threshold (self w) = threshold st
             /\ auto_add_threshold (self w) = auto_add_threshold st).
  { refine (process_recursive_keeps
              (fun w => exists new,
                 teams_map (self w) = teams_map st ++ new
                 /\ _new_teams_added (self w) = _new_teams_added st ++ new
                 /\ List.length new <= teams_processed w
                 /\ threshold (self w) = threshold st
                 /\ auto_add_threshold (self w) = auto_add_threshold st)
              _ ovr _ _ _ _ _ _ E).
    - intros w0 st0 c (new & H1 & H2 & H3 & H4 & H5) Hst. simpl.
      destruct Hst as [->|(n & sp & ->)].
      + exists new. repeat split; auto.
      + destruct (standardize_step difflib_ratio (self w0) n sp true)
          as [->|(_ & -> & _)].
        * exists new. repeat split; auto.
        * exists (new ++ [Team (lower sp) (strip n)]). simpl.
          rewrite H1, H2, !app_assoc, length_app. simpl.
          repeat split; auto. lia.
    - exists []. simpl. rewrite !app_nil_r. repeat split; auto. }
  destruct v; rewrite Hc in H; try discriminate H.
  injection H as <- <-. destruct Hw as (new & H1 & H2 & H3 & H4 & H5).
  eexists _, _, _, new. split; [reflexivity|].
  split; [rewrite dict_get_set, String.eqb_refl; reflexivity|].
  repeat split; assumption.
Qed.

End WalkFacts.





Lemma process_api_response_keeps_keys_unique_witness :
  covered scenario_registry
  /\ NoDup (map key (teams_map scenario_registry))
  /\ exists doc' st',
       process_api_response Difflib.sequence_ratio scenario_registry
         scenario_doc None
       = Returns (doc', st')
       /\ covered st' /\ NoDup (map key (teams_map st')).
Proof.
  assert (H1 : covered scenario_registry).
  { apply init_covered. intros t Ht _. apply list_elem_of_singleton in Ht.
    subst t. discriminate. }
  assert (H2 : NoDup (map key (teams_map scenario_registry))).
  { apply NoDup_singleton. }
  assert (H3 : exists doc' st',
             process_api_response Difflib.sequence_ratio scenario_registry
               scenario_doc None
             = Returns (doc', st')).
  { vm_compute. eexists _, _. reflexivity. }
  split; [exact H1|]. split; [exact H2|].
  destruct H3 as (doc' & st' & E). exists doc', st'. split; [exact E|].
  exact (process_api_response_keeps_keys_unique Difflib.sequence_ratio
           _ _ _ _ _ H1 H2 E).
Defined.

Lemma process_api_response_only_appends_witness :
  exists doc' st',
    process_api_response Difflib.sequence_ratio scenario_registry
      scenario_doc None
    = Returns (doc', st')
    /\ exists fields' processed changes new,
         doc' = JObj fields'
         /\ dict_get fields' "_processing_summary"
            = Some (processing_summary processed changes
                      (List.length (_new_teams_added st')))
         /\ teams_map st' = teams_map scenario_registry ++ new
         /\ _new_teams_added st' = _new_teams_added scenario_registry ++ new
         /\ List.length new <= processed
         /\ threshold st' = threshold scenario_registry
         /\ auto_add_threshold st' = auto_add_threshold scenario_registry.
Proof.
  assert (H : exists doc' st',
            process_api_response Difflib.sequence_ratio scenario_registry
              scenario_doc None
            = Returns (doc', st')).
  { vm_compute. eexists _, _. reflexivity. }
  destruct H as (doc' & st' & E). exists doc', st'. split; [exact E|].
  exact (process_api_response_only_appends Difflib.sequence_ratio
           _ _ _ _ _ E).
Defined.
